(** * Roll-out coordination and experience collection (maro.rl.learning)

    A shallow embedding of [env_sampler.py] (the per-worker simulation
    driver [EnvSampler], its callers [worker] and [actor], and the
    [AgentWrapper]) and of [rollout_manager.py] (the local-pool and the
    remote roll-out managers), with the properties of the delayed-reward
    flush, of the quorum protocol and of the coordinator flags.

    The simulation, the policies and the message transport are external
    collaborators: they appear as section variables (pure step functions and
    oracles) and as explicit traces of what the transport delivers. *)

From Stdlib Require Import ZArith Bool Sorting.Sorted.
From stdpp Require Import base option list strings sorting gmap.

Local Open Scope Z_scope.

(** ** Python helpers shared by both files *)

(** Truthiness of an optional dict, as tested by [if d:]: [None] and the
    empty dict are both falsy. *)
Definition truthy {A : Type} (d : option (list A)) : bool :=
  match d with
  | Some (_ :: _) => true
  | _ => false
  end.

(** [d[k].append(v)] on a [defaultdict(list)] kept in insertion order: a
    missing key is created at the end. *)
Fixpoint dd_append {V : Type} (d : list (string * list V)) (k : string) (v : V)
  : list (string * list V) :=
  match d with
  | [] => [(k, [v])]
  | (k', vs) :: d' =>
      if String.eqb k' k then (k', vs ++ [v]) :: d'
      else (k', vs) :: dd_append d' k v
  end.

(** The outcome of a call that may loop: [Diverges] stands for a loop that
    never ends (in the fuelled functions: for exhausted fuel). *)
Inductive outcome (A : Type) : Type :=
| Ret (a : A)
| Raises (err : string)
| Diverges.
Arguments Ret {A} a.
Arguments Raises {A} err.
Arguments Diverges {A}.

(** ** env_sampler.py : EnvSampler *)

Module EnvSampler.

Section Sampler.

(** The simulation ([maro.simulator.Env]) and the shaping callbacks given
    to [EnvSampler.__init__]. *)
Variables Env Event AgentState Action EnvActions Reward TVal PolicyState
          Info Params : Type.

Definition Agent := string.
(** [state_by_agent]: a dict in insertion order. *)
Definition StateDict := list (Agent * AgentState).
(** [self.tracker]: a user dict, [{}] at construction. *)
Definition Tracker := list (string * TVal).
Definition PolicyStateDict := list (string * PolicyState).

Variable env_reset : Env -> Env.
(** [env.step(actions)] gives [(metrics, event, terminal)]; the metrics
    are dropped at every call site. *)
Variable env_step : Env -> option EnvActions -> Env * Event * bool.
Variable env_tick : Env -> Z.

Variable get_state : Env -> Event -> StateDict.
Variable get_env_actions : Env -> (Agent -> Action) -> Event -> EnvActions.
(** [get_reward(env, env_actions, tick)] is a dict read at [reward[agent]]. *)
Variable get_reward : Env -> EnvActions -> Z -> Agent -> Reward.
Variable post_step :
  option (Env -> Tracker -> AgentState -> Action -> EnvActions ->
          (Agent -> Reward) -> Z -> Tracker).
Variable reward_eval_delay : Z.

(** A cached tuple [(state, action, env_actions, tick)]. *)
Record Cached := {
  c_state : AgentState;
  c_action : Action;
  c_env_actions : EnvActions;
  c_tick : Z
}.

(** The next-state argument of [record_transition] is either the state of
    the new front record ([cache[0][0]]) or [self._state], which is the
    whole state dict, or [None] once the episode has ended. *)
Inductive NextState :=
| FrontState (s : AgentState)
| PendingState (s : option StateDict).

(** The arguments of one [record_transition] call. *)
Record Transition := {
  t_agent : Agent;
  t_state : AgentState;
  t_action : Action;
  t_reward : Reward;
  t_next_state : NextState;
  t_terminal : bool
}.

(** The policies live behind [AgentWrapper]; the sampler only calls it.
    Its state is the history of the calls made so far, and what it answers
    is an arbitrary function of that history. The calls are taken to
    return: a call of the wrapper that raises (a [KeyError] in
    [set_policy_states], [choose_action] or [record_transition], see
    [AgentWrapper] below) ends the call of the sampler with that error,
    and is not among the outcomes described here. What is stated of
    [sample] and [test] is stated of the calls that return. *)
Inductive AWCall :=
| SetPolicyStates (d : PolicyStateDict)
| Explore
| Exploit
| ExplorationStep
| ChooseAction (st : option StateDict)
| RecordTransition (t : Transition).

Variable choose_action_of : list AWCall -> option StateDict -> Agent -> Action.
Variable rollout_info_of : list AWCall -> list (string * Info).
Variable exploration_params_of : list AWCall -> list (string * Params).

(** A popped record together with the transition recorded for it. *)
Record Flushed := {
  popped : Cached;
  recorded : Transition
}.

(** Which environment [self.env] points to. *)
Inductive EnvRef := NoEnv | LearnEnv | TestEnv.

Record Sampler := {
  learn_env : Env;
  (** [None]: no [get_test_env] was given and [_test_env] is the very
      object [_learn_env]. *)
  test_env : option Env;
  env : EnvRef;
  agent_wrapper : list AWCall;
  state_ : option StateDict;
  event_ : option Event;
  step_index : Z;
  terminal : bool;
  transition_cache : list (Agent * list Cached);
  tracker : Tracker
}.

Definition init (get_env : Env) (get_test_env : option Env) : Sampler :=
  {| learn_env := get_env; test_env := get_test_env; env := NoEnv;
     agent_wrapper := []; state_ := None; event_ := None;
     step_index := 0; terminal := true;
     transition_cache := []; tracker := [] |}.

(** The guard of the flush loop, for the record at the queue front. *)
Definition due (term : bool) (now : Z) (c : Cached) : bool :=
  term || (reward_eval_delay <=? now - c_tick c).

Definition run_post_step (e : Env) (tr : Tracker) (c : Cached)
    (reward : Agent -> Reward) : Tracker :=
  match post_step with
  | Some f => f e tr (c_state c) (c_action c) (c_env_actions c) reward (c_tick c)
  | None => tr
  end.

(** The inner [while cache and (...)] loop of [sample] for one agent:
    the flushed records in pop order, what stays in the deque, and the
    tracker after the [post_step] calls. *)
Fixpoint flush_cache (e : Env) (term : bool) (pending : option StateDict)
    (agent : Agent) (cache : list Cached) (tr : Tracker)
  : list Flushed * list Cached * Tracker :=
  match cache with
  | [] => ([], [], tr)
  | c :: rest =>
      if due term (env_tick e) c then
        let reward := get_reward e (c_env_actions c) (c_tick c) in
        let tr1 := run_post_step e tr c reward in
        let t := {| t_agent := agent;
                    t_state := c_state c;
                    t_action := c_action c;
                    t_reward := reward agent;
                    t_next_state :=
                      match rest with
                      | c' :: _ => FrontState (c_state c')
                      | [] => PendingState pending
                      end;
                    t_terminal :=
                      match rest with
                      | _ :: _ => false
                      | [] => term
                      end |} in
        let '(out, rest', tr2) := flush_cache e term pending agent rest tr1 in
        ({| popped := c; recorded := t |} :: out, rest', tr2)
      else ([], cache, tr)
  end.

(** The outer [for agent, cache in self._transition_cache.items()]. *)
Fixpoint flush_all (e : Env) (term : bool) (pending : option StateDict)
    (caches : list (Agent * list Cached)) (tr : Tracker)
  : list Flushed * list (Agent * list Cached) * Tracker :=
  match caches with
  | [] => ([], [], tr)
  | (agent, cache) :: more =>
      let '(out, cache', tr1) := flush_cache e term pending agent cache tr in
      let '(outs, more', tr2) := flush_all e term pending more tr1 in
      (out ++ outs, (agent, cache') :: more', tr2)
  end.

(** [for agent, state in self._state.items(): cache[agent].append(...)]. *)
Fixpoint cache_step (caches : list (Agent * list Cached)) (st : StateDict)
    (action : Agent -> Action) (env_actions : EnvActions) (tick : Z)
  : list (Agent * list Cached) :=
  match st with
  | [] => caches
  | (agent, s) :: st' =>
      cache_step
        (dd_append caches agent
           {| c_state := s; c_action := action agent;
              c_env_actions := env_actions; c_tick := tick |})
        st' action env_actions tick
  end.

(** The roll-out loop state: what the [while] loop of [sample] reads and
    writes. *)
Record Loop := {
  l_env : Env;
  l_aw : list AWCall;
  l_state : option StateDict;
  l_event : Event;
  l_step_index : Z;
  l_terminal : bool;
  l_cache : list (Agent * list Cached)
}.

(** [while not self._terminal and steps_to_go > 0]; [steps_to_go] is
    [None] for [float("inf")]. *)
Fixpoint rollout_loop (fuel : nat) (steps_to_go : option Z) (l : Loop)
  : outcome Loop :=
  if l_terminal l then Ret l
  else if match steps_to_go with Some n => n <=? 0 | None => false end then Ret l
  else
    match fuel with
    | O => Diverges
    | S fuel' =>
        match l_state l with
        | None => Raises "AttributeError"
        | Some st =>
            let aw1 := l_aw l ++ [ChooseAction (l_state l)] in
            let action := choose_action_of (l_aw l) (l_state l) in
            let env_actions := get_env_actions (l_env l) action (l_event l) in
            let cache1 :=
              cache_step (l_cache l) st action env_actions (env_tick (l_env l)) in
            let '(e1, ev1, term1) := env_step (l_env l) (Some env_actions) in
            rollout_loop fuel' (option_map (fun n => n - 1) steps_to_go)
              {| l_env := e1; l_aw := aw1;
                 l_state := if term1 then None else Some (get_state e1 ev1);
                 l_event := ev1;
                 l_step_index := l_step_index l + 1;
                 l_terminal := term1;
                 l_cache := cache1 |}
        end
    end.

Record SampleResult := {
  rollout_info : list (string * Info);
  step_range : Z * Z;
  res_tracker : Tracker;
  end_of_episode : bool;
  exploration_params : list (string * Params)
}.

(** The calls made on the agent wrapper before the roll-out loop. *)
Definition sample_prologue (aw : list AWCall)
    (policy_state_dict : option PolicyStateDict) (exploration_step : bool)
  : list AWCall :=
  aw ++ (if truthy policy_state_dict
         then match policy_state_dict with
              | Some d => [SetPolicyStates d]
              | None => []
              end
         else [])
     ++ [Explore]
     ++ (if exploration_step then [ExplorationStep] else []).

(** [EnvSampler.sample]. The third component lists the flushed records of
    this call, in the order of their [record_transition] calls. *)
Definition sample (fuel : nat) (s : Sampler)
    (policy_state_dict : option PolicyStateDict) (num_steps : Z)
    (exploration_step : bool)
  : outcome (Sampler * SampleResult * list Flushed) :=
  let aw0 := sample_prologue (agent_wrapper s) policy_state_dict exploration_step in
  let start : outcome Loop :=
    if terminal s then
      let e0 := env_reset (learn_env s) in
      let '(e1, ev, _) := env_step e0 None in
      Ret {| l_env := e1; l_aw := aw0;
             l_state := Some (get_state e1 ev); l_event := ev;
             l_step_index := 0; l_terminal := false; l_cache := [] |}
    else
      match event_ s with
      | Some ev =>
          Ret {| l_env := learn_env s; l_aw := aw0;
                 l_state := state_ s; l_event := ev;
                 l_step_index := step_index s; l_terminal := false;
                 l_cache := transition_cache s |}
      | None => Raises "TypeError"
      end in
  let tr0 := if terminal s then [] else tracker s in
  match start with
  | Ret l0 =>
      let starting_step_index := l_step_index l0 + 1 in
      let steps_to_go := if num_steps =? -1 then None else Some num_steps in
      match rollout_loop fuel steps_to_go l0 with
      | Ret l =>
          let '(out, cache', tr') :=
            flush_all (l_env l) (l_terminal l) (l_state l) (l_cache l) tr0 in
          let aw' := l_aw l ++ map (fun f => RecordTransition (recorded f)) out in
          Ret ({| learn_env := l_env l; test_env := test_env s; env := LearnEnv;
                  agent_wrapper := aw'; state_ := l_state l;
                  event_ := Some (l_event l);
                  step_index := l_step_index l; terminal := l_terminal l;
                  transition_cache := cache'; tracker := tr' |},
               {| rollout_info := rollout_info_of aw';
                  step_range := (starting_step_index, l_step_index l);
                  res_tracker := tr';
                  end_of_episode := l_terminal l;
                  exploration_params := exploration_params_of aw' |},
               out)
      | Raises err => Raises err
      | Diverges => Diverges
      end
  | Raises err => Raises err
  | Diverges => Diverges
  end.

(** The part of [sample] that comes before the flush: the state of the
    roll-out loop when the loop has ended, with the environment, the
    terminal flag, the pending state and the queues that the flush then
    runs on. *)
Definition sample_rollout (fuel : nat) (s : Sampler)
    (policy_state_dict : option PolicyStateDict) (num_steps : Z)
    (exploration_step : bool) : outcome Loop :=
  let aw0 := sample_prologue (agent_wrapper s) policy_state_dict exploration_step in
  let start : outcome Loop :=
    if terminal s then
      let e0 := env_reset (learn_env s) in
      let '(e1, ev, _) := env_step e0 None in
      Ret {| l_env := e1; l_aw := aw0;
             l_state := Some (get_state e1 ev); l_event := ev;
             l_step_index := 0; l_terminal := false; l_cache := [] |}
    else
      match event_ s with
      | Some ev =>
          Ret {| l_env := learn_env s; l_aw := aw0;
                 l_state := state_ s; l_event := ev;
                 l_step_index := step_index s; l_terminal := false;
                 l_cache := transition_cache s |}
      | None => Raises "TypeError"
      end in
  match start with
  | Ret l0 =>
      rollout_loop fuel (if num_steps =? -1 then None else Some num_steps) l0
  | Raises err => Raises err
  | Diverges => Diverges
  end.

(** The [while not terminal] loop of [test], entered with
    [terminal = False]. *)
Fixpoint test_loop (fuel : nat) (e : Env) (aw : list AWCall)
    (state : StateDict) (event : Event) : outcome (Env * list AWCall) :=
  match fuel with
  | O => Diverges
  | S fuel' =>
      let action := choose_action_of aw (Some state) in
      let aw1 := aw ++ [ChooseAction (Some state)] in
      let env_actions := get_env_actions e action event in
      let '(e1, ev1, term1) := env_step e (Some env_actions) in
      if term1 then Ret (e1, aw1)
      else test_loop fuel' e1 aw1 (get_state e1 ev1) ev1
  end.

(** [EnvSampler.test]: runs the test environment (the learning
    environment itself when no other was given) to its end and returns
    [self.tracker]. *)
Definition test (fuel : nat) (s : Sampler)
    (policy_state_dict : option PolicyStateDict)
  : outcome (Sampler * Tracker) :=
  let aw0 := agent_wrapper s
             ++ (if truthy policy_state_dict
                 then match policy_state_dict with
                      | Some d => [SetPolicyStates d]
                      | None => []
                      end
                 else [])
             ++ [Exploit] in
  let e := match test_env s with Some te => te | None => learn_env s end in
  let '(e1, ev, _) := env_step (env_reset e) None in
  match test_loop fuel e1 aw0 (get_state e1 ev) ev with
  | Ret (e2, aw2) =>
      Ret ({| learn_env := match test_env s with
                           | Some _ => learn_env s
                           | None => e2
                           end;
              test_env := match test_env s with
                          | Some _ => Some e2
                          | None => None
                          end;
              env := TestEnv;
              agent_wrapper := aw2;
              state_ := state_ s; event_ := event_ s;
              step_index := step_index s; terminal := terminal s;
              transition_cache := transition_cache s;
              tracker := tracker s |},
           tracker s)
  | Raises err => Raises err
  | Diverges => Diverges
  end.

(** *** Predicates of the statements *)

(** A sampler on which only [test] has been called since construction. *)
Inductive never_sampled : Sampler -> Prop :=
| fresh get_env get_test_env : never_sampled (init get_env get_test_env)
| tested fuel s policy_state_dict s' tr :
    never_sampled s ->
    test fuel s policy_state_dict = Ret (s', tr) ->
    never_sampled s'.

(** A queue in tick order, none of whose records is later than [now]. *)
Definition in_order (now : Z) (q : list Cached) : Prop :=
  Sorted Z.le (c_tick <$> q) /\ Forall (fun c => c_tick c <= now) q.

Definition queues_in_order (now : Z)
    (caches : list (Agent * list Cached)) : Prop :=
  Forall (fun kv => in_order now (snd kv)) caches.

End Sampler.

Arguments c_state {AgentState Action EnvActions} c.
Arguments c_action {AgentState Action EnvActions} c.
Arguments c_env_actions {AgentState Action EnvActions} c.
Arguments c_tick {AgentState Action EnvActions} c.
Arguments FrontState {AgentState} s.
Arguments PendingState {AgentState} s.
Arguments t_agent {AgentState Action Reward} t.
Arguments t_state {AgentState Action Reward} t.
Arguments t_action {AgentState Action Reward} t.
Arguments t_reward {AgentState Action Reward} t.
Arguments t_next_state {AgentState Action Reward} t.
Arguments t_terminal {AgentState Action Reward} t.
Arguments popped {AgentState Action EnvActions Reward} f.
Arguments recorded {AgentState Action EnvActions Reward} f.
Arguments flush_cache {Env AgentState Action EnvActions Reward TVal}
  env_tick get_reward post_step reward_eval_delay e term pending agent cache tr.
Arguments flush_all {Env AgentState Action EnvActions Reward TVal}
  env_tick get_reward post_step reward_eval_delay e term pending caches tr.
Arguments learn_env {Env Event AgentState Action EnvActions Reward TVal PolicyState} s.
Arguments test_env {Env Event AgentState Action EnvActions Reward TVal PolicyState} s.
Arguments agent_wrapper {Env Event AgentState Action EnvActions Reward TVal PolicyState} s.
Arguments RecordTransition {AgentState Action Reward PolicyState} t.
Arguments state_ {Env Event AgentState Action EnvActions Reward TVal PolicyState} s.
Arguments step_index {Env Event AgentState Action EnvActions Reward TVal PolicyState} s.
Arguments terminal {Env Event AgentState Action EnvActions Reward TVal PolicyState} s.
Arguments transition_cache {Env Event AgentState Action EnvActions Reward TVal PolicyState} s.
Arguments tracker {Env Event AgentState Action EnvActions Reward TVal PolicyState} s.
Arguments res_tracker {TVal Info Params} s.
Arguments end_of_episode {TVal Info Params} s.
Arguments init {Env} Event AgentState Action EnvActions Reward TVal PolicyState
  get_env get_test_env.
Arguments cache_step {AgentState Action EnvActions} caches st action env_actions tick.
Arguments rollout_loop {Env Event AgentState Action EnvActions Reward PolicyState}.
Arguments test_loop {Env Event AgentState Action EnvActions Reward PolicyState}.
Arguments sample {Env Event AgentState Action EnvActions Reward TVal PolicyState
  Info Params}.
Arguments sample_rollout {Env Event AgentState Action EnvActions Reward TVal
  PolicyState}.
Arguments test {Env Event AgentState Action EnvActions Reward TVal PolicyState}.
Arguments never_sampled {Env Event AgentState Action EnvActions Reward TVal
  PolicyState}.
Arguments in_order {AgentState Action EnvActions} now q.
Arguments queues_in_order {AgentState Action EnvActions} now caches.

End EnvSampler.

(** ** rollout_manager.py : the roll-out managers *)

Module RolloutManager.

(** The message tags of [maro.rl.utils.MsgTag] that the two files use. *)
Inductive MsgTag := SAMPLE | SAMPLE_DONE | EVAL | TEST | TEST_DONE | EXIT.

Definition tag_eqb (a b : MsgTag) : bool :=
  match a, b with
  | SAMPLE, SAMPLE | SAMPLE_DONE, SAMPLE_DONE | EVAL, EVAL
  | TEST, TEST | TEST_DONE, TEST_DONE | EXIT, EXIT => true
  | _, _ => false
  end.

Section Manager.

Variables Info TVal : Type.

(** [rollout_info]: policy name -> experience, a dict. *)
Definition RolloutInfo := list (string * Info).
Definition Tracker := list (string * TVal).

(** What a manager hands back: [info_by_policy] (a [defaultdict(list)])
    and the [trackers] list given to [post_collect]. *)
Record Collected := {
  info_by_policy : list (string * list Info);
  trackers : list Tracker
}.

Definition no_results : Collected :=
  {| info_by_policy := []; trackers := [] |}.

(** [for policy_name, info in rollout_info.items():
       info_by_policy[policy_name].append(info)]
    followed by [trackers.append(tracker)]. *)
Definition add_result (acc : Collected) (rollout_info : RolloutInfo)
    (tracker : Tracker) : Collected :=
  {| info_by_policy :=
       fold_left (fun d (kv : string * Info) => dd_append d (fst kv) (snd kv))
                 rollout_info (info_by_policy acc);
     trackers := trackers acc ++ [tracker] |}.

(** *** SimpleRolloutManager *)

Record Simple := {
  (** [None] is [float("inf")]. *)
  s_num_steps : option Z;
  s_exploration_step : bool;
  s_parallelism : Z;
  s_eval_parallelism : Z;
  s_episode_complete : bool
}.

(** [SimpleRolloutManager.__init__]. *)
Definition simple_init (num_steps parallelism eval_parallelism : Z)
  : outcome Simple :=
  if (num_steps =? 0) || (num_steps <? -1) then
    Raises "ValueError: num_steps must be a positive integer or -1."
  else if parallelism <? 1 then
    Raises "ValueError: 'parallelism' must be equal to or greater than 1."
  else if parallelism <? eval_parallelism then
    Raises "ValueError: 'num_eval_workers' can not be greater than 'parallelism'."
  else
    Ret {| s_num_steps := if 0 <? num_steps then Some num_steps else None;
           s_exploration_step := false;
           s_parallelism := parallelism;
           s_eval_parallelism := eval_parallelism;
           s_episode_complete := false |}.

(** [AbsRolloutManager.reset]. *)
Definition simple_reset (self : Simple) : Simple :=
  {| s_num_steps := s_num_steps self;
     s_exploration_step := s_exploration_step self;
     s_parallelism := s_parallelism self;
     s_eval_parallelism := s_eval_parallelism self;
     s_episode_complete := false |}.

(** The part of a result dict that a manager reads. The local manager
    reads the end-of-episode flag under the key ["end_of_episode"] when it
    samples in process and under ["episode_end"] from a pool worker.
    [EnvSampler.sample] returns the first key and not the second:
    [r_episode_end] is [None] for a dict without the key ["episode_end"],
    as the dicts that [sample] returns are. *)
Record WorkerResult := {
  r_rollout_info : RolloutInfo;
  r_tracker : Tracker;
  r_end_of_episode : bool;
  r_episode_end : option bool
}.

(** [for conn in self._manager_ends: result = conn.recv(); ...;
      self.episode_complete = result["episode_end"]].
    [results !! i] is what worker [i] answers on its pipe; a worker that
    never answers blocks the loop, and a result without the key
    ["episode_end"] ends it with a [KeyError]. *)
Fixpoint simple_recv_all (conns : list nat) (results : list WorkerResult)
    (acc : Collected) (episode_complete : bool)
  : outcome (Collected * bool) :=
  match conns with
  | [] => Ret (acc, episode_complete)
  | i :: conns' =>
      match results !! i with
      | None => Diverges
      | Some r =>
          match r_episode_end r with
          | None => Raises "KeyError: 'episode_end'"
          | Some ended =>
              simple_recv_all conns' results
                (add_result acc (r_rollout_info r) (r_tracker r))
                ended
          end
      end
  end.

(** One [SimpleRolloutManager.collect] call. [results] are the sampler
    results of this round, in pool order (one entry when sampling in
    process). The [bool] of the result is the [exploration_step] value
    that went out with this round's sample request. *)
Definition simple_collect (self : Simple) (results : list WorkerResult)
  : outcome (Simple * bool * Collected) :=
  let finish (flag_after_send complete : bool) (acc : Collected) :=
    Ret ({| s_num_steps := s_num_steps self;
            s_exploration_step := if complete then true else flag_after_send;
            s_parallelism := s_parallelism self;
            s_eval_parallelism := s_eval_parallelism self;
            s_episode_complete := complete |},
         s_exploration_step self, acc) in
  if s_parallelism self =? 1 then
    match results !! 0%nat with
    | None => Diverges
    | Some r =>
        finish (s_exploration_step self) (r_end_of_episode r)
               (add_result no_results (r_rollout_info r) (r_tracker r))
    end
  else
    match simple_recv_all (seq 0 (Z.to_nat (s_parallelism self))) results
                          no_results (s_episode_complete self) with
    | Ret (acc, complete) => finish false complete acc
    | Raises err => Raises err
    | Diverges => Diverges
    end.

(** The pipes of the pool during [evaluate]: [pending !! i] counts the
    test requests sent to worker [i] whose reply has not been read. A
    worker answers each request once, and only requests. *)
Fixpoint pipe_send (pending : list nat) (i : nat) : list nat :=
  match pending, i with
  | [], _ => []
  | n :: rest, O => S n :: rest
  | n :: rest, S i' => n :: pipe_send rest i'
  end.

(** [for conn in self._manager_ends: result = conn.recv();
      trackers.append(result["tracker"])]. *)
Fixpoint simple_eval_recv (pending : list nat) (i : nat)
    (test_tracker : nat -> Tracker) : outcome (list Tracker) :=
  match pending with
  | [] => Ret []
  | O :: _ => Diverges
  | S _ :: rest =>
      match simple_eval_recv rest (S i) test_tracker with
      | Ret ts => Ret (test_tracker i :: ts)
      | Raises err => Raises err
      | Diverges => Diverges
      end
  end.

(** [SimpleRolloutManager.evaluate]. [chosen] is what
    [choices(self._manager_ends, k=self._eval_parallelism)] drew, as pool
    indices; [test_tracker i] is the tracker of worker [i]'s evaluation
    (worker 0 is the in-process sampler). *)
Definition simple_evaluate (self : Simple) (chosen : list nat)
    (test_tracker : nat -> Tracker) : outcome (list Tracker) :=
  if s_eval_parallelism self =? 1 then
    if s_parallelism self =? 1 then Ret [test_tracker 0%nat]
    else Raises "AttributeError: env_sampler"
  else
    if s_parallelism self =? 1 then Raises "AttributeError: _manager_ends"
    else
      let idle := replicate (Z.to_nat (s_parallelism self)) 0%nat in
      simple_eval_recv (fold_left pipe_send chosen idle) 0 test_tracker.

(** *** DistributedRolloutManager *)

Record Distributed := {
  d_num_workers : Z;
  d_num_steps : Z;
  d_min_finished_workers : Z;
  d_max_extra_recv_tries : Z;
  (** [None] when the argument is left out. *)
  d_extra_recv_timeout : option Z;
  d_max_lag : Z;
  d_num_eval_workers : Z;
  d_exploration_step : bool;
  d_episode_complete : bool
}.

(** [DistributedRolloutManager.__init__]. *)
Definition distributed_init (num_workers num_steps : Z)
    (min_finished_workers max_extra_recv_tries extra_recv_timeout : option Z)
    (max_lag num_eval_workers : Z) : outcome Distributed :=
  if num_workers <? num_eval_workers then
    Raises "ValueError: num_eval_workers cannot exceed the number of available workers"
  else
    let min_finished :=
      match min_finished_workers with Some m => m | None => num_workers end in
    let max_extra :=
      match max_extra_recv_tries with
      | Some m => m
      | None => num_workers - min_finished
      end in
    Ret {| d_num_workers := num_workers;
           d_num_steps := num_steps;
           d_min_finished_workers := min_finished;
           d_max_extra_recv_tries := max_extra;
           d_extra_recv_timeout := extra_recv_timeout;
           d_max_lag := max_lag;
           d_num_eval_workers := num_eval_workers;
           d_exploration_step := false;
           d_episode_complete := false |}.

Definition set_flags (self : Distributed) (exploration_step complete : bool)
  : Distributed :=
  {| d_num_workers := d_num_workers self;
     d_num_steps := d_num_steps self;
     d_min_finished_workers := d_min_finished_workers self;
     d_max_extra_recv_tries := d_max_extra_recv_tries self;
     d_extra_recv_timeout := d_extra_recv_timeout self;
     d_max_lag := d_max_lag self;
     d_num_eval_workers := d_num_eval_workers self;
     d_exploration_step := exploration_step;
     d_episode_complete := complete |}.

(** [AbsRolloutManager.reset]. *)
Definition distributed_reset (self : Distributed) : Distributed :=
  set_flags self (d_exploration_step self) false.

(** A worker's message, with the keys the manager reads. *)
Record WorkerMsg := {
  m_type : MsgTag;
  m_version : Z;
  m_episode : Z;
  m_segment : Z;
  m_end_of_episode : bool;
  m_rollout_info : RolloutInfo;
  m_tracker : Tracker
}.

(** [_handle_worker_result]: [None] stands for the pair [(None, None)]. *)
Definition handle_worker_result (self : Distributed) (msg : WorkerMsg)
    (ep segment version : Z)
  : Distributed * option (RolloutInfo * Tracker) :=
  if negb (tag_eqb (m_type msg) SAMPLE_DONE) then (self, None)
  else if d_max_lag self <? version - m_version msg then (self, None)
  else if (m_episode msg =? ep) && (m_segment msg =? segment) then
    (set_flags self (d_exploration_step self) (m_end_of_episode msg),
     Some (m_rollout_info msg, m_tracker msg))
  else (self, None).

(** What the transport delivers to the manager, in order: a message, or a
    silence that outlasts a receive timeout. *)
Inductive Delivery :=
| Arrive (msg : WorkerMsg)
| Silence.

(** The receive calls a manager made. *)
Inductive Recv :=
| RecvBlocking (msg : WorkerMsg)
| RecvTimed (timeout : option Z) (received : option WorkerMsg).

(** [self._endpoint.receive()]: waits through any silence; [None] when
    nothing arrives any more. *)
Fixpoint receive (inbox : list Delivery) : option (WorkerMsg * list Delivery) :=
  match inbox with
  | [] => None
  | Silence :: rest => receive rest
  | Arrive msg :: rest => Some (msg, rest)
  end.

(** [self._endpoint.receive(timeout=...)]. *)
Definition receive_timeout (inbox : list Delivery)
  : option WorkerMsg * list Delivery :=
  match inbox with
  | [] => (None, [])
  | Silence :: rest => (None, rest)
  | Arrive msg :: rest => (Some msg, rest)
  end.

(** The buffers of one [collect] call. *)
Record Buffers := {
  b_collected : Collected;
  b_num_finishes : Z;
  b_log : list Recv
}.

(** The handling of one received message in [collect]: the
    [if info_by_policy:] block. *)
Definition absorb (self : Distributed) (b : Buffers) (entry : Recv)
    (msg : WorkerMsg) (ep segment version : Z) : Distributed * Buffers :=
  let '(self', handled) := handle_worker_result self msg ep segment version in
  let logged := {| b_collected := b_collected b;
                   b_num_finishes := b_num_finishes b;
                   b_log := b_log b ++ [entry] |} in
  (self',
   match handled with
   | Some (info, tracker) =>
       if truthy (Some info) then
         {| b_collected := add_result (b_collected b) info tracker;
            b_num_finishes := b_num_finishes b + 1;
            b_log := b_log b ++ [entry] |}
       else logged
   | None => logged
   end).

(** The first loop of [collect]: [while True: ... receive() ...]. *)
Fixpoint quorum_loop (self : Distributed) (b : Buffers) (ep segment version : Z)
    (inbox : list Delivery) : outcome (Distributed * Buffers * list Delivery) :=
  match inbox with
  | [] => Diverges
  | Silence :: rest => quorum_loop self b ep segment version rest
  | Arrive msg :: rest =>
      let '(self', b') := absorb self b (RecvBlocking msg) msg ep segment version in
      if b_num_finishes b' =? d_min_finished_workers self then Ret (self', b', rest)
      else quorum_loop self' b' ep segment version rest
  end.

(** The second loop: [for i in range(self._max_extra_recv_tries)], with
    [tries] iterations left. *)
Fixpoint extra_loop (tries : nat) (self : Distributed) (b : Buffers)
    (ep segment version : Z) (inbox : list Delivery)
  : Distributed * Buffers * list Delivery :=
  match tries with
  | O => (self, b, inbox)
  | S tries' =>
      match receive_timeout inbox with
      | (None, rest) =>
          extra_loop tries' self
            {| b_collected := b_collected b;
               b_num_finishes := b_num_finishes b;
               b_log := b_log b ++ [RecvTimed (d_extra_recv_timeout self) None] |}
            ep segment version rest
      | (Some msg, rest) =>
          let '(self', b') :=
            absorb self b (RecvTimed (d_extra_recv_timeout self) (Some msg))
                   msg ep segment version in
          if b_num_finishes b' =? d_num_workers self then (self', b', rest)
          else extra_loop tries' self' b' ep segment version rest
      end
  end.

(** What one [collect] call of the remote manager did. *)
Record CollectReport := {
  (** the [exploration_step] value of the broadcast sample request *)
  sent_exploration_step : bool;
  quorum_recvs : list Recv;
  (** [num_finishes] when the first loop ended *)
  quorum_finishes : Z;
  extra_recvs : list Recv;
  num_finishes : Z;
  collected : Collected;
  unread : list Delivery
}.

(** [DistributedRolloutManager.collect]. *)
Definition distributed_collect (self : Distributed) (ep segment version : Z)
    (inbox : list Delivery) : outcome (Distributed * CollectReport) :=
  let sent := d_exploration_step self in
  let self0 := set_flags self false (d_episode_complete self) in
  let b0 := {| b_collected := no_results; b_num_finishes := 0; b_log := [] |} in
  match quorum_loop self0 b0 ep segment version inbox with
  | Ret (self1, b1, inbox1) =>
      let b1' := {| b_collected := b_collected b1;
                    b_num_finishes := b_num_finishes b1;
                    b_log := [] |} in
      let '(self2, b2, inbox2) :=
        extra_loop (Z.to_nat (d_max_extra_recv_tries self1)) self1 b1'
                   ep segment version inbox1 in
      Ret (set_flags self2
             (if d_episode_complete self2 then true else d_exploration_step self2)
             (d_episode_complete self2),
           {| sent_exploration_step := sent;
              quorum_recvs := b_log b1;
              quorum_finishes := b_num_finishes b1;
              extra_recvs := b_log b2;
              num_finishes := b_num_finishes b2;
              collected := b_collected b2;
              unread := inbox2 |})
  | Raises err => Raises err
  | Diverges => Diverges
  end.

(** The receive loop of [evaluate]: [for _ in range(len(workers))]. *)
Fixpoint eval_loop (iterations : nat) (self : Distributed) (ep : Z)
    (inbox : list Delivery) (finishes : Z) (acc : list Tracker)
  : outcome (list Tracker * Z * list Delivery) :=
  match iterations with
  | O => Ret (acc, finishes, inbox)
  | S iterations' =>
      match receive inbox with
      | None => Diverges
      | Some (result, rest) =>
          if negb (tag_eqb (m_type result) TEST_DONE)
             || negb (m_episode result =? ep)
          then eval_loop iterations' self ep rest finishes acc
          else
            let acc' := acc ++ [m_tracker result] in
            if m_episode result =? ep then
              if finishes + 1 =? d_num_eval_workers self
              then Ret (acc', finishes + 1, rest)
              else eval_loop iterations' self ep rest (finishes + 1) acc'
            else eval_loop iterations' self ep rest finishes acc'
      end
  end.

(** [DistributedRolloutManager.evaluate]. [workers] is what
    [choices(self._endpoint.workers, k=self._num_eval_workers)] drew; the
    request itself goes to every worker of the endpoint. The result holds
    the trackers, the number of valid replies and the unread deliveries. *)
Definition distributed_evaluate (self : Distributed) (ep : Z)
    (workers : list string) (inbox : list Delivery)
  : outcome (list Tracker * Z * list Delivery) :=
  eval_loop (length workers) self ep inbox 0 [].

(** *** Predicates of the statements *)

(** The three checks of [_handle_worker_result]. *)
Definition passes_checks (self : Distributed) (msg : WorkerMsg)
    (ep segment version : Z) : Prop :=
  m_type msg = SAMPLE_DONE
  /\ version - m_version msg <= d_max_lag self
  /\ m_episode msg = ep /\ m_segment msg = segment.

(** Whether [_handle_worker_result] returned a result for the message. *)
Definition handled (self : Distributed) (msg : WorkerMsg)
    (ep segment version : Z) : bool :=
  match snd (handle_worker_result self msg ep segment version) with
  | Some _ => true
  | None => false
  end.

(** Whether [collect] counts the message: the test [if info_by_policy:]
    on what [_handle_worker_result] returned. *)
Definition counted (self : Distributed) (ep segment version : Z)
    (msg : WorkerMsg) : bool :=
  truthy (fst <$> snd (handle_worker_result self msg ep segment version)).

(** The configuration of a manager, which no call changes. *)
Definition config (self : Distributed) :=
  (d_num_workers self, d_num_steps self, d_min_finished_workers self,
   d_max_extra_recv_tries self, d_extra_recv_timeout self, d_max_lag self,
   d_num_eval_workers self).

Definition recv_msg (r : Recv) : option WorkerMsg :=
  match r with
  | RecvBlocking msg => Some msg
  | RecvTimed _ received => received
  end.

Definition is_blocking (r : Recv) : Prop :=
  match r with RecvBlocking _ => True | RecvTimed _ _ => False end.

(** The messages among the deliveries. *)
Definition arrivals (inbox : list Delivery) : list WorkerMsg :=
  omap (fun d => match d with Arrive msg => Some msg | Silence => None end) inbox.

(** How many entries satisfy [f]. *)
Fixpoint tally {A : Type} (f : A -> bool) (l : list A) : Z :=
  match l with
  | [] => 0
  | x :: l' => (if f x then 1 else 0) + tally f l'
  end.

Definition counted_recv (self : Distributed) (ep segment version : Z)
    (r : Recv) : bool :=
  match recv_msg r with
  | Some msg => counted self ep segment version msg
  | None => false
  end.

(** The [episode_complete] flag after the receives of [log], from the
    value [flag] before them: every message that passes the checks
    overwrites it. *)
Definition flag_after (self : Distributed) (ep segment version : Z)
    (flag : bool) (log : list Recv) : bool :=
  fold_left
    (fun acc r =>
       match recv_msg r with
       | Some msg =>
           if handled self msg ep segment version then m_end_of_episode msg else acc
       | None => acc
       end)
    log flag.

End Manager.

Arguments Arrive {Info TVal} msg.
Arguments Silence {Info TVal}.
Arguments RecvBlocking {Info TVal} msg.
Arguments RecvTimed {Info TVal} timeout received.
Arguments info_by_policy {Info TVal} c.
Arguments trackers {Info TVal} c.
Arguments no_results {Info TVal}.
Arguments add_result {Info TVal} acc rollout_info tracker.
Arguments r_rollout_info {Info TVal} w.
Arguments r_tracker {Info TVal} w.
Arguments r_end_of_episode {Info TVal} w.
Arguments r_episode_end {Info TVal} w.
Arguments simple_recv_all {Info TVal} conns results acc episode_complete.
Arguments simple_collect {Info TVal} self results.
Arguments simple_eval_recv {TVal} pending i test_tracker.
Arguments simple_evaluate {TVal} self chosen test_tracker.
Arguments m_type {Info TVal} w.
Arguments m_version {Info TVal} w.
Arguments m_episode {Info TVal} w.
Arguments m_segment {Info TVal} w.
Arguments m_end_of_episode {Info TVal} w.
Arguments m_rollout_info {Info TVal} w.
Arguments m_tracker {Info TVal} w.
Arguments handle_worker_result {Info TVal} self msg ep segment version.
Arguments receive {Info TVal} inbox.
Arguments receive_timeout {Info TVal} inbox.
Arguments b_collected {Info TVal} b.
Arguments b_num_finishes {Info TVal} b.
Arguments b_log {Info TVal} b.
Arguments absorb {Info TVal} self b entry msg ep segment version.
Arguments quorum_loop {Info TVal} self b ep segment version inbox.
Arguments extra_loop {Info TVal} tries self b ep segment version inbox.
Arguments sent_exploration_step {Info TVal} c.
Arguments quorum_recvs {Info TVal} c.
Arguments quorum_finishes {Info TVal} c.
Arguments extra_recvs {Info TVal} c.
Arguments num_finishes {Info TVal} c.
Arguments collected {Info TVal} c.
Arguments unread {Info TVal} c.
Arguments distributed_collect {Info TVal} self ep segment version inbox.
Arguments eval_loop {Info TVal} iterations self ep inbox finishes acc.
Arguments distributed_evaluate {Info TVal} self ep workers inbox.
Arguments passes_checks {Info TVal} self msg ep segment version.
Arguments handled {Info TVal} self msg ep segment version.
Arguments counted {Info TVal} self ep segment version msg.
Arguments recv_msg {Info TVal} r.
Arguments is_blocking {Info TVal} r.
Arguments arrivals {Info TVal} inbox.
Arguments counted_recv {Info TVal} self ep segment version r.
Arguments flag_after {Info TVal} self ep segment version flag log.

End RolloutManager.

(** ** Concrete runs used in the statements *)

Module Scenarios.
Import RolloutManager EnvSampler.

(** Roll-out information and tracker values are numbers in these runs. *)
Definition reply (tag : MsgTag) (version episode segment : Z) (ended : bool)
    (info : RolloutInfo nat) (steps : nat) : WorkerMsg nat nat :=
  {| m_type := tag; m_version := version; m_episode := episode;
     m_segment := segment; m_end_of_episode := ended;
     m_rollout_info := info; m_tracker := [("steps"%string, steps)] |}.

(** A remote manager of four workers that waits for [quorum] replies and
    then tries [extra] more receives. *)
Definition remote (quorum extra : Z) : Distributed :=
  {| d_num_workers := 4; d_num_steps := -1;
     d_min_finished_workers := quorum; d_max_extra_recv_tries := extra;
     d_extra_recv_timeout := Some 100; d_max_lag := 0;
     d_num_eval_workers := 2;
     d_exploration_step := false; d_episode_complete := false |}.

(** A reply to the request of episode 1, segment 0, version 5, from a
    worker none of whose policies gathers experience: its roll-out
    information is the empty dict. *)
Definition bare_reply : WorkerMsg nat nat := reply SAMPLE_DONE 5 1 0 true [] 3.

(** The same reply from a worker with one learning policy. *)
Definition full_reply (ended : bool) : WorkerMsg nat nat :=
  reply SAMPLE_DONE 5 1 0 ended [("dqn"%string, 7%nat)] 3.

(** A local manager with [parallelism] workers, as [__init__] leaves it. *)
Definition pool (parallelism eval_parallelism : Z) : Simple :=
  {| s_num_steps := None; s_exploration_step := false;
     s_parallelism := parallelism; s_eval_parallelism := eval_parallelism;
     s_episode_complete := false |}.

(** A result of the local manager, with the end-of-episode flag under
    both keys: under ["end_of_episode"], where the in-process branch of
    [collect] looks for it, and under ["episode_end"], where the pool
    branch does. *)
Definition result (ended : bool) : WorkerResult nat nat :=
  {| r_rollout_info := [("dqn"%string, 7%nat)];
     r_tracker := [("steps"%string, 3%nat)];
     r_end_of_episode := ended;
     r_episode_end := Some ended |}.

(** Successive [collect] calls of a learner loop on the local manager; the
    list of the result holds the [exploration_step] value sent in each
    round. *)
Fixpoint simple_rounds (self : Simple) (rounds : list (list (WorkerResult nat nat)))
  : outcome (Simple * list bool) :=
  match rounds with
  | [] => Ret (self, [])
  | results :: more =>
      match simple_collect self results with
      | Ret (self', sent, _) =>
          match simple_rounds self' more with
          | Ret (self'', flags) => Ret (self'', sent :: flags)
          | Raises err => Raises err
          | Diverges => Diverges
          end
      | Raises err => Raises err
      | Diverges => Diverges
      end
  end.

(** Two workers answer the request of episode 1, segment 0, version 5:
    the first reports the end of its episode, the second does not. *)
Definition mixed_inbox : list (Delivery nat nat) :=
  [Arrive (full_reply true); Arrive (full_reply false)].

(** A late reply to the last [collect], whose tag is not [TEST_DONE]. *)
Definition late_sample_reply : WorkerMsg nat nat := full_reply false.

(** A valid reply to the evaluation request of episode 1. *)
Definition test_reply (steps : nat) : WorkerMsg nat nat :=
  reply TEST_DONE 5 1 0 true [] steps.

(** A reply built from the policy of version 2, three versions behind. *)
Definition stale_reply : WorkerMsg nat nat :=
  reply SAMPLE_DONE 2 1 0 false [("dqn"%string, 7%nat)] 3.

(** What a remote [collect] with a quorum of two and two extra tries may
    see: the quorum is reached at the fourth delivery, then a silence and a
    stale reply use up the two tries. *)
Definition busy_inbox : list (Delivery nat nat) :=
  [Arrive (full_reply false); Silence; Arrive stale_reply;
   Arrive (full_reply false); Silence; Arrive stale_reply;
   Arrive (full_reply false)].

(** A simulation whose state is its tick: a step takes two ticks and the
    episode ends at tick 6. One agent, whose state is the tick. *)
Definition toy_reset (e : Z) : Z := 0.
Definition toy_step (e : Z) (actions : option nat) : Z * unit * bool :=
  (e + 2, tt, 6 <=? e + 2).
Definition toy_tick (e : Z) : Z := e.
Definition toy_state (e : Z) (ev : unit) : StateDict nat := [("vessel"%string, Z.to_nat e)].
Definition toy_env_actions (e : Z) (action : Agent -> nat) (ev : unit) : nat :=
  action "vessel"%string.
Definition toy_reward (e : Z) (env_actions : nat) (tick : Z) (agent : Agent) : Z :=
  e - tick.
Definition toy_post_step :
  option (Z -> Tracker nat -> nat -> nat -> nat -> (Agent -> Z) -> Z -> Tracker nat) :=
  Some (fun e tr state action env_actions reward tick =>
          tr ++ [("flushed"%string, Z.to_nat tick)]).
Definition toy_policy (history : list (AWCall nat nat Z unit))
    (st : option (StateDict nat)) (agent : Agent) : nat :=
  length history.
Definition toy_rollout_info (history : list (AWCall nat nat Z unit))
  : list (string * nat) := [("dqn"%string, length history)].
Definition toy_params (history : list (AWCall nat nat Z unit))
  : list (string * unit) := [].

Definition toy_sample :=
  sample toy_reset toy_step toy_tick toy_state toy_env_actions toy_reward
         toy_post_step 3 toy_policy toy_rollout_info toy_params.
Definition toy_test :=
  test (TVal := nat) toy_reset toy_step toy_state toy_env_actions toy_policy.
Definition toy_flush :=
  flush_cache toy_tick toy_reward toy_post_step 3.

Definition cached (tick : Z) : Cached nat nat nat :=
  {| c_state := Z.to_nat tick; c_action := 0%nat; c_env_actions := 0%nat;
     c_tick := tick |}.

(** The queue of the example: ticks 0, 2 and 5. *)
Definition queue : list (Cached nat nat nat) := [cached 0; cached 2; cached 5].

Definition flushed_at_4 := toy_flush 4 false None "vessel"%string queue [].

(** A sampler in the middle of an episode, at tick [tick], holding the
    queue [q] for its agent. *)
Definition holding (tick : Z) (q : list (Cached nat nat nat))
  : Sampler Z unit nat nat nat Z nat unit :=
  {| learn_env := tick; test_env := None; env := LearnEnv;
     agent_wrapper := []; state_ := Some (toy_state tick tt);
     event_ := Some tt; step_index := 3; terminal := false;
     transition_cache := [("vessel"%string, q)]; tracker := [] |}.

(** A sampler after one step of sampling, with a record waiting in the
    queue, and then after an evaluation on the shared environment. *)
Definition after_one_step :=
  match toy_sample 1%nat (init unit nat nat nat Z nat unit 0 None) None 1 false with
  | Ret (s, _, _) => s
  | _ => init unit nat nat nat Z nat unit 0 None
  end.

Definition after_test :=
  match toy_test 5%nat after_one_step None with
  | Ret r => r
  | _ => (after_one_step, [])
  end.

End Scenarios.

(** ** env_sampler.py : the callers of [sample] and [test] *)

Module SamplerUse.
Import EnvSampler.

Section Use.

Variables Env Event AgentState Action EnvActions Reward TVal PolicyState
          Info Params : Type.
Variable env_reset : Env -> Env.
Variable env_step : Env -> option EnvActions -> Env * Event * bool.
Variable env_tick : Env -> Z.
Variable get_state : Env -> Event -> StateDict AgentState.
Variable get_env_actions : Env -> (Agent -> Action) -> Event -> EnvActions.
Variable get_reward : Env -> EnvActions -> Z -> Agent -> Reward.
Variable post_step :
  option (Env -> Tracker TVal -> AgentState -> Action -> EnvActions ->
          (Agent -> Reward) -> Z -> Tracker TVal).
Variable reward_eval_delay : Z.
Variable choose_action_of :
  list (AWCall AgentState Action Reward PolicyState) ->
  option (StateDict AgentState) -> Agent -> Action.
Variable rollout_info_of :
  list (AWCall AgentState Action Reward PolicyState) -> list (string * Info).
Variable exploration_params_of :
  list (AWCall AgentState Action Reward PolicyState) -> list (string * Params).

Local Abbreviation Sampler :=
  (Sampler Env Event AgentState Action EnvActions Reward TVal PolicyState).
Local Abbreviation sample :=
  (sample env_reset env_step env_tick get_state get_env_actions get_reward
          post_step reward_eval_delay choose_action_of rollout_info_of
          exploration_params_of).
Local Abbreviation test :=
  (test env_reset env_step get_state get_env_actions choose_action_of).

(** *** EnvSampler.worker *)

(** A message of the roll-out manager, with the body keys that [worker]
    reads. *)
Record Request := {
  q_tag : RolloutManager.MsgTag;
  q_episode : Z;
  q_segment : Z;
  q_version : Z;
  q_num_steps : Z;
  q_exploration_step : bool;
  q_policy_state : option (PolicyStateDict PolicyState)
}.

(** What [worker] sends back with [proxy.reply]: the tag and the body. *)
Inductive Reply :=
| SampleDone (episode segment version : Z) (info : list (string * Info))
             (step_range : Z * Z) (tracker : Tracker TVal) (end_of_episode : bool)
| TestDone (tracker : Tracker TVal) (episode : Z).

(** How the event loop of [worker] stopped: on an [EXIT] message, waiting
    for a next message, inside a call that does not end, or on an error. *)
Inductive WorkerEnd :=
| Exited
| Waiting
| Stuck
| Crashed (err : string).

(** The event loop [for msg in proxy.receive()] of [worker], on the
    messages that arrive: the sampler it leaves, the replies it sent, in
    order, and how it stopped. *)
Fixpoint worker (fuel : nat) (s : Sampler) (inbox : list Request)
  : Sampler * list Reply * WorkerEnd :=
  match inbox with
  | [] => (s, [], Waiting)
  | msg :: rest =>
      if RolloutManager.tag_eqb (q_tag msg) RolloutManager.EXIT then (s, [], Exited)
      else if RolloutManager.tag_eqb (q_tag msg) RolloutManager.SAMPLE then
        match sample fuel s (q_policy_state msg) (q_num_steps msg)
                     (q_exploration_step msg) with
        | Ret (s', res, _) =>
            let '(s'', replies, how) := worker fuel s' rest in
            (s'',
             SampleDone (q_episode msg) (q_segment msg) (q_version msg)
                        (rollout_info _ _ _ res) (step_range _ _ _ res)
                        (res_tracker res) (end_of_episode res)
             :: replies,
             how)
        | Raises err => (s, [], Crashed err)
        | Diverges => (s, [], Stuck)
        end
      else if RolloutManager.tag_eqb (q_tag msg) RolloutManager.TEST then
        match test fuel s (q_policy_state msg) with
        | Ret (s', tracker) =>
            let '(s'', replies, how) := worker fuel s' rest in
            (s'', TestDone tracker (q_episode msg) :: replies, how)
        | Raises err => (s, [], Crashed err)
        | Diverges => (s, [], Stuck)
        end
      else worker fuel s rest
  end.

(** *** EnvSampler.actor *)

(** What [actor] sends to the policy server. *)
Inductive ActorMsg :=
| GetInitialPolicyState
| SampleDoneMsg (info : list (string * Info)) (version : Z)
| ActorDone.

(** The policy server: the policy states and the version of its reply to
    the last of the messages sent so far. *)
Variable server : list ActorMsg -> option (PolicyStateDict PolicyState) * Z.

(** The [while True] loop of one episode, entered with [calls] sample
    calls of fuel. *)
Fixpoint actor_episode (calls fuel : nat) (num_steps : Z) (s : Sampler)
    (sent : list ActorMsg) (policy_state_dict : option (PolicyStateDict PolicyState))
    (policy_version : Z) (exploration_step : bool)
  : outcome (Sampler * list ActorMsg * option (PolicyStateDict PolicyState) * Z) :=
  match calls with
  | O => Diverges
  | S calls' =>
      match sample fuel s policy_state_dict num_steps exploration_step with
      | Ret (s', res, _) =>
          let sent' := sent ++ [SampleDoneMsg (rollout_info _ _ _ res) policy_version] in
          let '(policy_state_dict', policy_version') := server sent' in
          if end_of_episode res
          then Ret (s', sent', policy_state_dict', policy_version')
          else actor_episode calls' fuel num_steps s' sent'
                             policy_state_dict' policy_version' false
      | Raises err => Raises err
      | Diverges => Diverges
      end
  end.

(** [for ep in range(1, num_episodes + 1)], with [episodes] left. *)
Fixpoint actor_episodes (episodes calls fuel : nat) (num_steps : Z) (s : Sampler)
    (sent : list ActorMsg) (policy_state_dict : option (PolicyStateDict PolicyState))
    (policy_version : Z)
  : outcome (Sampler * list ActorMsg) :=
  match episodes with
  | O => Ret (s, sent)
  | S episodes' =>
      match actor_episode calls fuel num_steps s sent
                          policy_state_dict policy_version true with
      | Ret (s', sent', policy_state_dict', policy_version') =>
          actor_episodes episodes' calls fuel num_steps s' sent'
                         policy_state_dict' policy_version'
      | Raises err => Raises err
      | Diverges => Diverges
      end
  end.

(** [EnvSampler.actor]: the sampler it leaves and the messages it sent to
    the policy server. *)
Definition actor (calls fuel : nat) (s : Sampler) (num_episodes num_steps : Z)
  : outcome (Sampler * list ActorMsg) :=
  if (num_steps =? 0) || (num_steps <? -1) then
    Raises "ValueError: num_steps must be a positive integer or -1"
  else
    let sent := [GetInitialPolicyState] in
    let '(policy_state_dict, policy_version) := server sent in
    match actor_episodes (Z.to_nat num_episodes) calls fuel num_steps s sent
                         policy_state_dict policy_version with
    | Ret (s', sent') => Ret (s', sent' ++ [ActorDone])
    | Raises err => Raises err
    | Diverges => Diverges
    end.

(** *** Predicates of the statements *)

(** A sampler as a sequence of [sample] calls, and of [test] calls on a
    test environment of its own, leaves it. *)
Inductive in_use : Sampler -> Prop :=
| in_use_init get_env get_test_env :
    in_use (init Event AgentState Action EnvActions Reward TVal PolicyState
                 get_env get_test_env)
| in_use_sample fuel s policy_state_dict num_steps exploration_step s' res out :
    in_use s ->
    sample fuel s policy_state_dict num_steps exploration_step = Ret (s', res, out) ->
    in_use s'
| in_use_test fuel s policy_state_dict s' tr :
    in_use s ->
    is_Some (test_env s) ->
    test fuel s policy_state_dict = Ret (s', tr) ->
    in_use s'.

(** The request that a reply answers. *)
Definition answers (msg : Request) (r : Reply) : Prop :=
  match r with
  | SampleDone episode segment version _ _ _ _ =>
      q_tag msg = RolloutManager.SAMPLE
      /\ episode = q_episode msg /\ segment = q_segment msg
      /\ version = q_version msg
  | TestDone _ episode =>
      q_tag msg = RolloutManager.TEST /\ episode = q_episode msg
  end.

Definition is_work (msg : Request) : bool :=
  RolloutManager.tag_eqb (q_tag msg) RolloutManager.SAMPLE
  || RolloutManager.tag_eqb (q_tag msg) RolloutManager.TEST.

(** Every report among the messages sent carries the version that came
    with the server's reply before it. *)
Definition versions_follow (sent : list ActorMsg) : Prop :=
  forall (k : nat) info v,
    sent !! k = Some (SampleDoneMsg info v) -> v = snd (server (take k sent)).

(** The number of [exploration_step] calls made on the agent wrapper. *)
Definition exploration_steps
    (calls : list (AWCall AgentState Action Reward PolicyState)) : nat :=
  length (List.filter (fun c => match c with ExplorationStep _ _ _ _ => true | _ => false end)
                      calls).

End Use.

Arguments q_tag {PolicyState} r.
Arguments q_episode {PolicyState} r.
Arguments q_segment {PolicyState} r.
Arguments q_version {PolicyState} r.
Arguments q_num_steps {PolicyState} r.
Arguments q_exploration_step {PolicyState} r.
Arguments q_policy_state {PolicyState} r.
Arguments SampleDone {TVal Info} episode segment version info step_range tracker
  end_of_episode.
Arguments TestDone {TVal Info} tracker episode.
Arguments GetInitialPolicyState {Info}.
Arguments SampleDoneMsg {Info} info version.
Arguments ActorDone {Info}.
Arguments worker {Env Event AgentState Action EnvActions Reward TVal PolicyState
  Info Params}.
Arguments actor_episode {Env Event AgentState Action EnvActions Reward TVal
  PolicyState Info Params}.
Arguments actor_episodes {Env Event AgentState Action EnvActions Reward TVal
  PolicyState Info Params}.
Arguments actor {Env Event AgentState Action EnvActions Reward TVal PolicyState
  Info Params}.
Arguments in_use {Env Event AgentState Action EnvActions Reward TVal PolicyState
  Info Params}.
Arguments answers {TVal PolicyState Info} msg r.
Arguments is_work {PolicyState} msg.
Arguments exploration_steps {AgentState Action Reward PolicyState} calls.
Arguments versions_follow {PolicyState Info} server sent.

End SamplerUse.

(** ** rollout_manager.py : what the managers hand back *)

Module ManagerUse.
Import RolloutManager.

(** [d[k]] on a [defaultdict(list)] that is only read: the list under the
    key, empty when the key is missing. *)
Fixpoint dd_get {V : Type} (d : list (string * list V)) (k : string) : list V :=
  match d with
  | [] => []
  | (k', vs) :: d' => if String.eqb k' k then vs else dd_get d' k
  end.

(** The values that the items of a dict hold under a key. *)
Definition items_under {V : Type} (d : list (string * V)) (k : string) : list V :=
  snd <$> List.filter (fun kv => String.eqb (fst kv) k) d.

(** The buffers of a remote [collect] after the receives of [log]: every
    counted message adds its roll-out information and its tracker. *)
Definition gathered {Info TVal : Type} (self : Distributed) (ep segment version : Z)
    (log : list (Recv Info TVal)) (acc : Collected Info TVal) : Collected Info TVal :=
  fold_left
    (fun acc r =>
       match recv_msg r with
       | Some msg =>
           if counted self ep segment version msg
           then add_result acc (m_rollout_info msg) (m_tracker msg)
           else acc
       | None => acc
       end)
    log acc.

(** The test of the receive loop of [evaluate] on a message. *)
Definition is_test_reply {Info TVal : Type} (ep : Z) (msg : WorkerMsg Info TVal) : bool :=
  tag_eqb (m_type msg) TEST_DONE && (m_episode msg =? ep).

End ManagerUse.

(** ** env_sampler.py : AgentWrapper *)

Module AgentWrapper.

(** [d.get(k)] on a dict kept as an association list. *)
Fixpoint dict_get {V : Type} (d : list (string * V)) (k : string) : option V :=
  match d with
  | [] => None
  | (k', v) :: d' => if String.eqb k' k then Some v else dict_get d' k
  end.

(** [d[k] = v]: an existing key keeps its place. *)
Fixpoint dict_set {V : Type} (d : list (string * V)) (k : string) (v : V)
  : list (string * V) :=
  match d with
  | [] => [(k, v)]
  | (k', v') :: d' =>
      if String.eqb k' k then (k', v) :: d' else (k', v') :: dict_set d' k v
  end.

(** [{**a, **b}]. *)
Definition dict_merge {V : Type} (a b : list (string * V)) : list (string * V) :=
  fold_left (fun d kv => dict_set d (fst kv) (snd kv)) b a.

Section Wrapper.

Variables PolicyState Info : Type.

(** [isinstance(policy, RLPolicy)] for the policy created under a name. *)
Variable is_rl_policy : string -> bool.
(** [policy.get_rollout_info()] of a policy of this process, and the
    answer of a policy host to a ["rollout_info"] message. *)
Variable local_rollout_info : string -> Info.
Variable host_rollout_info : string -> Info.

(** The wrapper. A policy object is identified by the name it was created
    under: [policy_dict] holds the names of the policies of this process,
    [policy_by_agent] maps an agent to the name of its policy object, and
    [conn_] holds the keys of [_conn], the pipes to the policy hosts. *)
Record Wrapper := {
  policies_to_parallelize : list string;
  policy_dict : list string;
  agent2policy : gmap string string;
  policy_by_agent : gmap string string;
  conn_ : list string
}.

(** [for id_ in policies_to_parallelize: ...; self._conn[id_] = conn1;
      host = Process(..., args=(id_, get_policy_func_dict[id_], conn2))]. *)
Fixpoint start_hosts (get_policy_func_dict ids conn : list string)
  : outcome (list string) :=
  match ids with
  | [] => Ret conn
  | id_ :: ids' =>
      if bool_decide (id_ ∈ get_policy_func_dict) then
        start_hosts get_policy_func_dict ids'
                    (if bool_decide (id_ ∈ conn) then conn else conn ++ [id_])
      else Raises ("KeyError: " ++ id_)
  end.

(** [AgentWrapper.__init__]. [get_policy_func_dict] is given by its keys. *)
Definition init (get_policy_func_dict : list string)
    (agent2policy : gmap string string) (policies_to_parallelize : list string)
  : outcome Wrapper :=
  let policy_dict :=
    filter (fun id_ => id_ ∉ policies_to_parallelize) get_policy_func_dict in
  let policy_by_agent :=
    filter (fun kv : string * string => kv.2 ∈ policy_dict) agent2policy in
  match start_hosts get_policy_func_dict policies_to_parallelize [] with
  | Ret conn =>
      Ret {| policies_to_parallelize := policies_to_parallelize;
             policy_dict := policy_dict;
             agent2policy := agent2policy;
             policy_by_agent := policy_by_agent;
             conn_ := conn |}
  | Raises err => Raises err
  | Diverges => Diverges
  end.

(** Where [record_transition] puts a transition. *)
Inductive Route :=
| Recorded (policy : string)
| Skipped (policy : string)
| Sent (policy : string).

(** [AgentWrapper.record_transition], for the agent of the transition. *)
Definition record_transition (w : Wrapper) (agent : string) : outcome Route :=
  match policy_by_agent w !! agent with
  | Some policy =>
      Ret (if is_rl_policy policy then Recorded policy else Skipped policy)
  | None =>
      match agent2policy w !! agent with
      | None => Raises ("KeyError: " ++ agent)
      | Some policy_id =>
          if bool_decide (policy_id ∈ conn_ w) then Ret (Sent policy_id)
          else Raises ("KeyError: " ++ policy_id)
      end
  end.

(** [for policy_id, conn in self._conn.items():
       conn.send({"type": "set_state", "policy_state": policy_state_dict[policy_id]})]:
    the states sent, with the host they went to. *)
Fixpoint send_states (conn : list string) (policy_state_dict : list (string * PolicyState))
  : outcome (list (string * PolicyState)) :=
  match conn with
  | [] => Ret []
  | policy_id :: conn' =>
      match dict_get policy_state_dict policy_id with
      | None => Raises ("KeyError: " ++ policy_id)
      | Some st =>
          match send_states conn' policy_state_dict with
          | Ret sent => Ret ((policy_id, st) :: sent)
          | Raises err => Raises err
          | Diverges => Diverges
          end
      end
  end.

(** [for policy_id, policy_state in policy_state_dict.items():
       if policy_id not in self._conn:
           self.policy_dict[policy_id].set_state(policy_state)]:
    the states set in this process. *)
Fixpoint set_local_states (w : Wrapper) (items : list (string * PolicyState))
  : outcome (list (string * PolicyState)) :=
  match items with
  | [] => Ret []
  | (policy_id, st) :: items' =>
      if bool_decide (policy_id ∈ conn_ w) then set_local_states w items'
      else if bool_decide (policy_id ∈ policy_dict w) then
        match set_local_states w items' with
        | Ret done => Ret ((policy_id, st) :: done)
        | Raises err => Raises err
        | Diverges => Diverges
        end
      else Raises ("KeyError: " ++ policy_id)
  end.

(** [AgentWrapper.set_policy_states]: what was sent to the hosts and what
    was set in this process. *)
Definition set_policy_states (w : Wrapper)
    (policy_state_dict : list (string * PolicyState))
  : outcome (list (string * PolicyState) * list (string * PolicyState)) :=
  match send_states (conn_ w) policy_state_dict with
  | Ret sent =>
      match set_local_states w policy_state_dict with
      | Ret done => Ret (sent, done)
      | Raises err => Raises err
      | Diverges => Diverges
      end
  | Raises err => Raises err
  | Diverges => Diverges
  end.

(** [AgentWrapper.get_rollout_info]. *)
Definition get_rollout_info (w : Wrapper) : list (string * Info) :=
  dict_merge
    ((fun id_ => (id_, local_rollout_info id_))
       <$> filter (fun id_ => is_rl_policy id_) (policy_dict w))
    ((fun id_ => (id_, host_rollout_info id_)) <$> conn_ w).

End Wrapper.

Arguments send_states {PolicyState} conn policy_state_dict.
Arguments set_local_states {PolicyState} w items.
Arguments set_policy_states {PolicyState} w policy_state_dict.
Arguments get_rollout_info {Info} is_rl_policy local_rollout_info host_rollout_info w.

End AgentWrapper.

(** ** Concrete runs of the callers *)

Module UseScenarios.
Import RolloutManager EnvSampler SamplerUse Scenarios.

(** The sampler of the small simulation, as [__init__] leaves it. *)
Definition fresh : Sampler Z unit nat nat nat Z nat unit :=
  EnvSampler.init unit nat nat nat Z nat unit 0 None.

Definition toy_worker :=
  worker toy_reset toy_step toy_tick toy_state toy_env_actions toy_reward
         toy_post_step 3 toy_policy toy_rollout_info toy_params.

(** A message of the manager for episode 1, asking for two steps. *)
Definition request (tag : MsgTag) (segment : Z) : Request unit :=
  {| q_tag := tag; q_episode := 1; q_segment := segment; q_version := 5;
     q_num_steps := 2; q_exploration_step := false; q_policy_state := None |}.

(** A sample request, a message that is not for the worker, an
    evaluation, the exit notice and a request that comes too late. *)
Definition worker_inbox : list (Request unit) :=
  [request SAMPLE 0; request EVAL 0; request TEST 1; request EXIT 1;
   request SAMPLE 2].

Definition worker_run := toy_worker 5 fresh worker_inbox.

(** A [sample] call without step budget on the new sampler. *)
Definition whole_episode := toy_sample 5 fresh None (-1) false.

(** One reply of each of the four workers of a remote manager. *)
Definition full_inbox : list (Delivery nat nat) :=
  [Arrive (full_reply false); Arrive (full_reply false);
   Arrive (full_reply false); Arrive (full_reply true)].

(** An evaluation that first reads a late sample reply. *)
Definition eval_inbox : list (Delivery nat nat) :=
  [Arrive late_sample_reply; Arrive (test_reply 11); Arrive (test_reply 12)].

Definition worker_tracker (i : nat) : Tracker nat := [("steps"%string, i)].

(** Three policies, of which [ac] runs in a process of its own; the agent
    [vessel] uses [dqn] and the agent [port] uses [ac]. *)
Definition policy_names : list string := ["dqn"; "ac"; "rule"]%string.
Definition agents : gmap string string :=
  <["vessel"%string := "dqn"%string]> (<["port"%string := "ac"%string]> ∅).
Definition toy_wrapper : AgentWrapper.Wrapper :=
  match AgentWrapper.init policy_names agents ["ac"%string] with
  | Ret w => w
  | _ => {| AgentWrapper.policies_to_parallelize := [];
            AgentWrapper.policy_dict := [];
            AgentWrapper.agent2policy := ∅;
            AgentWrapper.policy_by_agent := ∅;
            AgentWrapper.conn_ := [] |}
  end.

(** Policy states for the two learning policies. *)
Definition toy_policy_states : list (string * nat) :=
  [("ac"%string, 1%nat); ("dqn"%string, 2%nat)].

Definition toy_is_rl (policy : string) : bool :=
  negb (String.eqb policy "rule").

End UseScenarios.

(** * Properties *)

(** ** The delayed-reward flush of [EnvSampler.sample] *)

Module EnvSamplerFacts.
Import EnvSampler.

Section Flush.

Context {Env AgentState Action EnvActions Reward TVal : Type}.
Variable env_tick : Env -> Z.
Variable get_reward : Env -> EnvActions -> Z -> Agent -> Reward.
Variable post_step :
  option (Env -> Tracker TVal -> AgentState -> Action -> EnvActions ->
          (Agent -> Reward) -> Z -> Tracker TVal).
Variable reward_eval_delay : Z.

Local Abbreviation Cached := (Cached AgentState Action EnvActions).
Local Abbreviation Flushed := (Flushed AgentState Action EnvActions Reward).
Local Abbreviation flush :=
  (flush_cache env_tick get_reward post_step reward_eval_delay).
Local Abbreviation due := (due AgentState Action EnvActions reward_eval_delay).

Implicit Types (cache rest : list Cached) (out : list Flushed) (c : Cached).

Lemma due_spec term now c :
  due term now c = true <-> term = true \/ reward_eval_delay <= now - c_tick c.
Proof.
  unfold EnvSampler.due. rewrite orb_true_iff, Z.leb_le. reflexivity.
Qed.

(** The flushed records are a prefix of the queue, every one of them was
    due, and the loop stopped at a record that was not. *)
Lemma flush_prefix e term pending agent cache tr out rest tr' :
  flush e term pending agent cache tr = (out, rest, tr') ->
  cache = (popped <$> out) ++ rest
  /\ Forall (fun c => due term (env_tick e) c = true) ((popped <$> out))
  /\ (forall c, head rest = Some c -> due term (env_tick e) c = false).
Proof.
  revert tr out rest tr'.
  induction cache as [|c cache IH]; intros tr out rest tr' Hf; simpl in Hf.
  - inversion Hf; subst. repeat split; [constructor | discriminate].
  - destruct (due term (env_tick e) c) eqn:Hdue.
    + destruct (flush e term pending agent cache _) as [[out1 rest1] tr1] eqn:Hrec.
      inversion Hf; subst. apply IH in Hrec as (Heq & Hall & Hstop).
      simpl. repeat split.
      * now f_equal.
      * now constructor.
      * exact Hstop.
    + inversion Hf; subst. simpl. repeat split.
      * constructor.
      * intros c' [= <-]. exact Hdue.
Qed.

(** What is recorded for a popped record: its own state and action, for
    the agent of the queue, with the reward computed for its tick. *)
Lemma flush_records e term pending agent cache tr out rest tr' :
  flush e term pending agent cache tr = (out, rest, tr') ->
  Forall (fun f : Flushed =>
            t_agent (recorded f) = agent
            /\ t_state (recorded f) = c_state (popped f)
            /\ t_action (recorded f) = c_action (popped f)
            /\ t_reward (recorded f)
               = get_reward e (c_env_actions (popped f)) (c_tick (popped f)) agent)
         out.
Proof.
  revert tr out rest tr'.
  induction cache as [|c cache IH]; intros tr out rest tr' Hf; simpl in Hf.
  - inversion Hf; subst. constructor.
  - destruct (due term (env_tick e) c).
    + destruct (flush e term pending agent cache _) as [[out1 rest1] tr1] eqn:Hrec.
      inversion Hf; subst. constructor; [now repeat split|].
      exact (IH _ _ _ _ Hrec).
    + inversion Hf; subst. constructor.
Qed.

Lemma sorted_ticks_tail (cache : list Cached) c0 rest0 c :
  Sorted Z.le ((c_tick <$> cache ++ c0 :: rest0)) ->
  c ∈ c0 :: rest0 -> c_tick c0 <= c_tick c.
Proof.
  intros Hs Hin. apply Sorted_StronglySorted in Hs; [|exact Z.le_trans].
  rewrite fmap_app in Hs. apply StronglySorted_app_1_r in Hs.
  simpl in Hs. inversion Hs as [|? ? _ Hall]; subst.
  apply elem_of_cons in Hin as [->|Hin]; [lia|].
  rewrite Forall_forall in Hall. apply Hall.
  apply (list_elem_of_fmap_2 c_tick) in Hin. exact Hin.
Qed.

Lemma sorted_ticks_prefix (l1 l2 : list Cached) :
  Sorted Z.le ((c_tick <$> l1 ++ l2)) -> Sorted Z.le ((c_tick <$> l1)).
Proof.
  intros Hs. apply Sorted_StronglySorted in Hs; [|exact Z.le_trans].
  rewrite fmap_app in Hs. apply StronglySorted_app_1_l in Hs.
  now apply StronglySorted_Sorted.
Qed.

(** The inner loop pops, from the front of the queue, exactly the records
    that are due: every flushed record is due and the loop stops at the
    first that is not; on a queue in tick order this holds of every record
    of the queue, and the flushed records keep their queue order, so their
    ticks do not decrease. *)
Lemma flush_cache_iff_due e term pending agent cache tr out rest tr' :
  flush_cache env_tick get_reward post_step reward_eval_delay
              e term pending agent cache tr = (out, rest, tr') ->
  cache = (popped <$> out) ++ rest
  /\ Forall (fun c => term = true \/ reward_eval_delay <= env_tick e - c_tick c)
            (popped <$> out)
  /\ Forall (fun f : Flushed =>
               t_agent (recorded f) = agent
               /\ t_state (recorded f) = c_state (popped f)
               /\ t_action (recorded f) = c_action (popped f)
               /\ t_reward (recorded f)
                  = get_reward e (c_env_actions (popped f)) (c_tick (popped f)) agent)
            out
  /\ (forall c, head rest = Some c ->
        ~ (term = true \/ reward_eval_delay <= env_tick e - c_tick c))
  /\ (Sorted Z.le ((c_tick <$> cache)) ->
        (forall (i : nat) c, cache !! i = Some c ->
           (i < length out)%nat <->
           (term = true \/ reward_eval_delay <= env_tick e - c_tick c))
        /\ Sorted Z.le ((c_tick <$> (popped <$> out))))
  /\ (forall c0 c2 c5 e4 e6 tr4 tr6,
        reward_eval_delay = 3 ->
        c_tick c0 = 0 -> c_tick c2 = 2 -> c_tick c5 = 5 ->
        env_tick e4 = 4 -> env_tick e6 = 6 ->
        let '(out4, rest4, _) := flush e4 false pending agent [c0; c2; c5] tr4 in
        let '(out6, rest6, _) := flush e6 false pending agent rest4 tr6 in
        popped <$> out4 = [c0] /\ rest4 = [c2; c5]
        /\ popped <$> out6 = [c2] /\ rest6 = [c5]).
Proof.
  intros Hf. destruct (flush_prefix _ _ _ _ _ _ _ _ _ Hf) as (Heq & Hall & Hstop).
  split; [exact Heq|]. split; [|split; [exact (flush_records _ _ _ _ _ _ _ _ _ Hf)|]].
  2: split; [|split].
  - eapply Forall_impl; [exact Hall|]. intros c Hc. now apply due_spec.
  - intros c Hc Hd. apply (proj2 (due_spec _ _ _)) in Hd. rewrite (Hstop c Hc) in Hd. discriminate.
  - intros Hs. split.
    + intros i c Hi. split.
      * intros Hlt. rewrite Heq in Hi.
        rewrite lookup_app_l in Hi by now rewrite length_fmap.
        rewrite Forall_lookup in Hall. apply due_spec. exact (Hall _ _ Hi).
      * intros Hd. destruct (decide (i < length out)%nat) as [|Hge]; [assumption|].
        exfalso. rewrite Heq in Hi.
        rewrite lookup_app_r in Hi by (rewrite length_fmap; lia).
        destruct rest as [|c0 rest0]; [discriminate|].
        assert (Hc0 : due term (env_tick e) c0 = false) by now apply Hstop.
        assert (Hle : c_tick c0 <= c_tick c).
        { apply (sorted_ticks_tail ((popped <$> out)) c0 rest0).
          - now rewrite <- Heq.
          - eapply list_elem_of_lookup_2. exact Hi. }
        unfold EnvSampler.due in Hc0.
        apply orb_false_elim in Hc0 as [Ht Hz]. apply Z.leb_gt in Hz.
        destruct Hd as [Hd|Hd]; [congruence|lia].
    + apply (sorted_ticks_prefix _ rest). now rewrite <- Heq.
  - intros c0 c2 c5 e4 e6 tr4 tr6 Hd H0 H2 H5 H4 H6. simpl.
    unfold EnvSampler.due. rewrite ?H4, ?H0, ?H2, ?Hd. simpl.
    unfold EnvSampler.due. rewrite ?H6, ?H2, ?H5, ?Hd. simpl.
    repeat split.
Qed.

(** When the inner loop pops record [i] of the queue, the transition it
    records takes its next state from record [i + 1] when there is one and
    otherwise from [pending]; its terminal flag is set exactly when the
    queue has been emptied and [term] holds. *)
Lemma flush_cache_next_state e term pending agent cache tr out rest tr' :
  flush_cache env_tick get_reward post_step reward_eval_delay
              e term pending agent cache tr = (out, rest, tr') ->
  forall (i : nat) (f : Flushed), out !! i = Some f ->
    cache !! i = Some (popped f)
    /\ t_agent (recorded f) = agent
    /\ t_next_state (recorded f) =
         match cache !! S i with
         | Some c' => FrontState (c_state c')
         | None => PendingState pending
         end
    /\ (t_terminal (recorded f) = true <-> cache !! S i = None /\ term = true).
Proof.
  revert tr out rest tr'.
  induction cache as [|c cache IH]; intros tr out rest tr' Hf i f Hi; simpl in Hf.
  - inversion Hf; subst. discriminate.
  - destruct (due term (env_tick e) c) eqn:Hdue.
    + destruct (flush e term pending agent cache _) as [[out1 rest1] tr1] eqn:Hrec.
      inversion Hf; subst. destruct i as [|i]; simpl in Hi.
      * inversion Hi; subst. simpl.
        split; [reflexivity|]. split; [reflexivity|].
        split; [destruct cache; reflexivity|].
        destruct cache; simpl; split.
        -- intros Ht. now split.
        -- intros [_ Ht]. exact Ht.
        -- discriminate.
        -- intros [? _]. discriminate.
      * exact (IH _ _ _ _ Hrec i f Hi).
    + inversion Hf; subst. discriminate.
Qed.

Local Abbreviation flush_everyone :=
  (flush_all env_tick get_reward post_step reward_eval_delay).

(** The outer loop runs the inner loop once on every agent's queue, in
    the order of the dict, and what it records is made of the inner
    loops' records. *)
Lemma flush_all_per_agent e term pending caches tr out caches' tr' :
  flush_everyone e term pending caches tr = (out, caches', tr') ->
  forall (k : nat) agent cache, caches !! k = Some (agent, cache) ->
    exists tr1 o rest tr2 before after,
      flush e term pending agent cache tr1 = (o, rest, tr2)
      /\ caches' !! k = Some (agent, rest)
      /\ out = before ++ o ++ after.
Proof.
  revert tr out caches' tr'.
  induction caches as [|[a q] caches IH]; intros tr out caches' tr' Hf k agent cache Hk.
  - discriminate.
  - simpl in Hf.
    destruct (flush e term pending a q tr) as [[o1 q1] t1] eqn:H1.
    destruct (flush_everyone e term pending caches t1) as [[o2 q2] t2] eqn:H2.
    inversion Hf; subst. destruct k as [|k]; simpl in Hk.
    + inversion Hk; subst. exists tr, o1, q1, t1, [], o2. now repeat split.
    + destruct (IH _ _ _ _ H2 k agent cache Hk)
        as (tr1 & o & rest & tr2 & before & after & Hfl & Hlk & Hout).
      exists tr1, o, rest, tr2, (o1 ++ before), after.
      repeat split; [exact Hfl|exact Hlk|].
      rewrite Hout. now rewrite <- app_assoc.
Qed.

Lemma flush_all_length e term pending caches tr out caches' tr' :
  flush_everyone e term pending caches tr = (out, caches', tr') ->
  length caches' = length caches.
Proof.
  revert tr out caches' tr'.
  induction caches as [|[a q] caches IH]; intros tr out caches' tr' Hf; simpl in Hf.
  - now inversion Hf.
  - destruct (flush e term pending a q tr) as [[o1 q1] t1].
    destruct (flush_everyone e term pending caches t1) as [[o2 q2] t2] eqn:H2.
    inversion Hf; subst. simpl. f_equal. exact (IH _ _ _ _ H2).
Qed.

(** Once the episode is terminal the inner loop empties the queue. *)
Lemma flush_cache_empties e pending agent cache tr out rest tr' :
  flush e true pending agent cache tr = (out, rest, tr') -> rest = [].
Proof.
  intros Hf. apply flush_prefix in Hf as (_ & _ & Hstop).
  destruct rest as [|c rest]; [reflexivity|].
  specialize (Hstop c eq_refl). discriminate.
Qed.

End Flush.

Section Calls.

Context {Env Event AgentState Action EnvActions Reward TVal PolicyState
         Info Params : Type}.
Variable env_reset : Env -> Env.
Variable env_step : Env -> option EnvActions -> Env * Event * bool.
Variable env_tick : Env -> Z.
Variable get_state : Env -> Event -> StateDict AgentState.
Variable get_env_actions : Env -> (Agent -> Action) -> Event -> EnvActions.
Variable get_reward : Env -> EnvActions -> Z -> Agent -> Reward.
Variable post_step :
  option (Env -> Tracker TVal -> AgentState -> Action -> EnvActions ->
          (Agent -> Reward) -> Z -> Tracker TVal).
Variable reward_eval_delay : Z.
Variable choose_action_of :
  list (AWCall AgentState Action Reward PolicyState) ->
  option (StateDict AgentState) -> Agent -> Action.
Variable rollout_info_of :
  list (AWCall AgentState Action Reward PolicyState) -> list (string * Info).
Variable exploration_params_of :
  list (AWCall AgentState Action Reward PolicyState) -> list (string * Params).

Local Abbreviation Sampler :=
  (Sampler Env Event AgentState Action EnvActions Reward TVal PolicyState).
Local Abbreviation sample :=
  (sample env_reset env_step env_tick get_state get_env_actions get_reward
          post_step reward_eval_delay choose_action_of rollout_info_of
          exploration_params_of).
Local Abbreviation test :=
  (test env_reset env_step get_state get_env_actions choose_action_of).
Local Abbreviation test_loop :=
  (test_loop env_step get_state get_env_actions choose_action_of).
Local Abbreviation init :=
  (init Event AgentState Action EnvActions Reward TVal PolicyState).

Local Abbreviation never_sampled :=
  (never_sampled env_reset env_step get_state get_env_actions choose_action_of).

Implicit Types s : Sampler.
Implicit Types (c : Cached AgentState Action EnvActions).
Implicit Types (q : list (Cached AgentState Action EnvActions)).
Implicit Types (caches : list (Agent * list (Cached AgentState Action EnvActions))).

(** The flush stage of a [sample] call that returns: it runs on the
    terminal flag, the pending state and the environment that the call
    leaves behind, and the call's result reports the tracker and the
    terminal flag of the sampler. *)
Lemma sample_flush_stage fuel s policy_state_dict num_steps exploration_step
    s' res out :
  sample fuel s policy_state_dict num_steps exploration_step = Ret (s', res, out) ->
  (exists caches tr0,
      flush_all env_tick get_reward post_step reward_eval_delay
        (learn_env s') (terminal s') (state_ s') caches tr0
      = (out, transition_cache s', tracker s'))
  /\ (exists calls,
        agent_wrapper s'
        = calls ++ map (fun f => RecordTransition (recorded f)) out)
  /\ res_tracker res = tracker s'
  /\ end_of_episode res = terminal s'.
Proof.
  unfold EnvSampler.sample. intros H.
  match type of H with
  | match ?start with _ => _ end = _ => destruct start as [l0| |]; try discriminate
  end.
  destruct (EnvSampler.rollout_loop _ _ _ _ _ _ _ l0) as [l| |]; try discriminate.
  match type of H with
  | context [flush_all ?a ?b ?c ?d ?e ?f ?g ?h ?i] =>
      destruct (flush_all a b c d e f g h i) as [[o q] t] eqn:Hfl
  end.
  inversion H; subst; simpl. repeat split.
  - now exists (l_cache _ _ _ _ _ _ _ l), (if terminal s then [] else tracker s).
  - now exists (l_aw _ _ _ _ _ _ _ l).
Qed.

Lemma test_frame fuel s policy_state_dict s' tr :
  test fuel s policy_state_dict = Ret (s', tr) ->
  transition_cache s' = transition_cache s
  /\ tracker s' = tracker s
  /\ step_index s' = step_index s
  /\ terminal s' = terminal s
  /\ state_ s' = state_ s
  /\ tr = tracker s.
Proof.
  unfold EnvSampler.test. intros H.
  destruct (env_step _ None) as [[e1 ev] t0].
  destruct (EnvSampler.test_loop _ _ _ _ _ _ _ _ _) as [[e2 aw2]| |];
    try discriminate.
  inversion H; subst; simpl. repeat split.
Qed.

Lemma never_sampled_tracker s : never_sampled s -> tracker s = [].
Proof.
  induction 1 as [|fuel s psd s' tr _ IH Ht]; [reflexivity|].
  apply test_frame in Ht as (_ & -> & _). exact IH.
Qed.

(** More fuel does not change the outcome of an evaluation that ends. *)
Lemma test_loop_fuel fuel extra e aw state event r :
  test_loop fuel e aw state event = Ret r ->
  test_loop (fuel + extra) e aw state event = Ret r.
Proof.
  revert e aw state event.
  induction fuel as [|fuel IH]; intros e aw state event H; [discriminate|].
  simpl in *. destruct (env_step e _) as [[e1 ev1] [|]]; [exact H|].
  now apply IH.
Qed.

Lemma test_fuel fuel extra s policy_state_dict r :
  test fuel s policy_state_dict = Ret r ->
  test (fuel + extra) s policy_state_dict = Ret r.
Proof.
  unfold EnvSampler.test. destruct (env_step _ None) as [[e1 ev] t0].
  destruct (EnvSampler.test_loop _ _ _ _ fuel _ _ _ _) as [r0| |] eqn:Hl;
    try discriminate.
  fold test_loop in Hl. rewrite (test_loop_fuel _ extra _ _ _ _ _ Hl).
  trivial.
Qed.

(** C10. [test] leaves the sampling state as it was: the transition
    cache, the tracker, the step index and the terminal flag are those of
    before the call, and the tracker it returns is the sampler's own, that
    is the one the last [sample] call reported, and the empty dict when
    only [test] has been called since construction. *)
Theorem test_keeps_sampling_state fuel s policy_state_dict s' tr :
  test fuel s policy_state_dict = Ret (s', tr) ->
  transition_cache s' = transition_cache s
  /\ tracker s' = tracker s
  /\ step_index s' = step_index s
  /\ terminal s' = terminal s
  /\ tr = tracker s
  /\ (forall fuel0 s0 policy_state_dict0 num_steps exploration_step res out,
        sample fuel0 s0 policy_state_dict0 num_steps exploration_step
        = Ret (s, res, out) ->
        tr = res_tracker res)
  /\ (never_sampled s -> tr = []).
Proof.
  intros H. destruct (test_frame _ _ _ _ _ H) as (Hc & Ht & Hi & Hterm & _ & Hr).
  repeat split; try assumption.
  - intros fuel0 s0 psd0 n x res out Hs.
    apply sample_flush_stage in Hs as (_ & _ & -> & _). exact Hr.
  - intros Hn. rewrite Hr. now apply never_sampled_tracker.
Qed.

Lemma in_order_snoc now q c :
  in_order now q -> c_tick c = now -> in_order now (q ++ [c]).
Proof.
  intros [Hs Hall] Hc. split.
  - induction q as [|a q IH]; simpl.
    + repeat constructor.
    + inversion Hs as [|? ? Hs' Hhd]; subst. inversion Hall as [|? ? Ha Hall']; subst.
      constructor; [now apply IH|].
      destruct q as [|b q]; simpl in *.
      * constructor. lia.
      * inversion Hhd; subst. now constructor.
  - apply Forall_app. split; [exact Hall|]. repeat constructor. lia.
Qed.

Lemma in_order_later now now' q :
  now <= now' -> in_order now q -> in_order now' q.
Proof.
  intros Hle [Hs Hall]. split; [exact Hs|].
  eapply Forall_impl; [exact Hall|]. intros c Hc. simpl in Hc. lia.
Qed.

Lemma dd_append_in_order now caches agent c :
  queues_in_order now caches -> c_tick c = now ->
  queues_in_order now (dd_append caches agent c).
Proof.
  intros Hq Hc. induction caches as [|[k q] caches IH]; simpl.
  - constructor; [|constructor]. apply (in_order_snoc now [] c); [|exact Hc].
    split; constructor.
  - inversion Hq as [|? ? Hk Hq']; subst. destruct (String.eqb k agent).
    + constructor; [|exact Hq']. simpl in *. now apply in_order_snoc.
    + constructor; [exact Hk|now apply IH].
Qed.

Lemma cache_step_in_order now caches st action env_actions :
  queues_in_order now caches ->
  queues_in_order now (cache_step caches st action env_actions now).
Proof.
  revert caches. induction st as [|[agent a] st IH]; intros caches Hq; simpl.
  - exact Hq.
  - apply IH. now apply dd_append_in_order.
Qed.

(** When the tick of the simulation never goes back in a step, the
    roll-out loop keeps every queue in tick order. *)
Lemma rollout_loop_in_order fuel steps_to_go l l' :
  (forall e a, env_tick e <= env_tick (fst (fst (env_step e a)))) ->
  queues_in_order (env_tick (l_env _ _ _ _ _ _ _ l)) (l_cache _ _ _ _ _ _ _ l) ->
  rollout_loop env_step env_tick get_state get_env_actions choose_action_of
               fuel steps_to_go l = Ret l' ->
  queues_in_order (env_tick (l_env _ _ _ _ _ _ _ l')) (l_cache _ _ _ _ _ _ _ l').
Proof.
  intros Hmono. revert steps_to_go l.
  induction fuel as [|fuel IH]; intros steps_to_go l Hq H; simpl in H.
  - destruct (l_terminal _ _ _ _ _ _ _ l); [inversion H; subst; exact Hq|].
    destruct (match steps_to_go with Some n => n <=? 0 | None => false end);
      [inversion H; subst; exact Hq|discriminate].
  - destruct (l_terminal _ _ _ _ _ _ _ l); [inversion H; subst; exact Hq|].
    destruct (match steps_to_go with Some n => n <=? 0 | None => false end);
      [inversion H; subst; exact Hq|].
    destruct (l_state _ _ _ _ _ _ _ l) as [st|]; [|discriminate].
    match type of H with
    | context [env_step ?e ?a] =>
        pose proof (Hmono e a) as Hle; destruct (env_step e a) as [[e1 ev1] term1]
    end.
    apply IH in H; [exact H|]. simpl in *.
    eapply Forall_impl; [apply cache_step_in_order; exact Hq|].
    intros kv Hkv. simpl in Hkv. now apply (in_order_later _ _ _ Hle).
Qed.

Lemma flush_cache_in_order now e term pending agent q tr out rest tr' :
  flush_cache env_tick get_reward post_step reward_eval_delay
              e term pending agent q tr = (out, rest, tr') ->
  in_order now q -> in_order now rest.
Proof.
  intros Hf [Hs Hall]. apply flush_prefix in Hf as (Heq & _).
  rewrite Heq in Hs, Hall. split.
  - apply Sorted_StronglySorted in Hs; [|exact Z.le_trans].
    rewrite fmap_app in Hs. apply StronglySorted_app_1_r in Hs.
    now apply StronglySorted_Sorted.
  - apply Forall_app in Hall. tauto.
Qed.

Lemma flush_all_in_order now e term pending caches tr out caches' tr' :
  flush_all env_tick get_reward post_step reward_eval_delay
            e term pending caches tr = (out, caches', tr') ->
  queues_in_order now caches -> queues_in_order now caches'.
Proof.
  revert tr out caches' tr'.
  induction caches as [|[a q] caches IH]; intros tr out caches' tr' Hf Hq; simpl in Hf.
  - inversion Hf; subst. constructor.
  - destruct (flush_cache _ _ _ _ e term pending a q tr) as [[o1 q1] t1] eqn:H1.
    destruct (flush_all _ _ _ _ e term pending caches t1) as [[o2 q2] t2] eqn:H2.
    inversion Hf; subst. inversion Hq as [|? ? Hk Hq']; subst.
    constructor.
    + simpl in *. eapply flush_cache_in_order; eauto.
    + eapply IH; eauto.
Qed.

(** The queues that the flush stage of a [sample] call runs on are in
    tick order, and so are the queues that the call leaves, as long as the
    tick of the simulation never goes back in a step. *)
Lemma sample_queues_in_order fuel s policy_state_dict num_steps exploration_step
    s' res out :
  (forall e a, env_tick e <= env_tick (fst (fst (env_step e a)))) ->
  queues_in_order (env_tick (learn_env s)) (transition_cache s) ->
  sample fuel s policy_state_dict num_steps exploration_step = Ret (s', res, out) ->
  (exists caches tr0,
      flush_all env_tick get_reward post_step reward_eval_delay
        (learn_env s') (terminal s') (state_ s') caches tr0
      = (out, transition_cache s', tracker s')
      /\ Forall (fun kv => Sorted Z.le (c_tick <$> snd kv)) caches)
  /\ queues_in_order (env_tick (learn_env s')) (transition_cache s').
Proof.
  intros Hmono Hq. unfold EnvSampler.sample. intros H.
  match type of H with
  | match ?start with _ => _ end = _ =>
      assert (Hstart : forall l0, start = Ret l0 ->
                queues_in_order (env_tick (l_env _ _ _ _ _ _ _ l0))
                                (l_cache _ _ _ _ _ _ _ l0));
      [|destruct start as [l0| |]; try discriminate]
  end.
  { intros l0. destruct (terminal s).
    - destruct (env_step (env_reset (learn_env s)) None) as [[e1 ev] t0].
      intros [= <-]. constructor.
    - destruct (event_ _ _ _ _ _ _ _ _ s); [|discriminate].
      intros [= <-]. exact Hq. }
  specialize (Hstart l0 eq_refl).
  destruct (EnvSampler.rollout_loop _ _ _ _ _ _ _ l0) as [l| |] eqn:Hloop;
    try discriminate.
  apply (rollout_loop_in_order _ _ _ _ Hmono Hstart) in Hloop.
  match type of H with
  | context [flush_all ?a ?b ?c ?d ?e ?f ?g ?h ?i] =>
      destruct (flush_all a b c d e f g h i) as [[o q] t] eqn:Hfl
  end.
  inversion H; subst; simpl. split.
  - eexists _, _. split; [exact Hfl|].
    eapply Forall_impl; [exact Hloop|]. intros kv [Hs _]. exact Hs.
  - eapply flush_all_in_order; eauto.
Qed.

Local Abbreviation Loop :=
  (Loop Env Event AgentState Action EnvActions Reward PolicyState).
Local Abbreviation lenv :=
  (l_env Env Event AgentState Action EnvActions Reward PolicyState).
Local Abbreviation law :=
  (l_aw Env Event AgentState Action EnvActions Reward PolicyState).
Local Abbreviation lstate :=
  (l_state Env Event AgentState Action EnvActions Reward PolicyState).
Local Abbreviation lterm :=
  (l_terminal Env Event AgentState Action EnvActions Reward PolicyState).
Local Abbreviation lcache :=
  (l_cache Env Event AgentState Action EnvActions Reward PolicyState).
Local Abbreviation sample_rollout :=
  (sample_rollout env_reset env_step env_tick get_state get_env_actions
                  choose_action_of).

(** A [sample] call that returns has run the roll-out loop and then the
    flush, once, on the environment, the terminal flag, the pending state
    and the queues that the loop left; it hands the flushed records to the
    agent wrapper in flush order, and keeps what the flush left. *)
Lemma sample_flush_queues fuel s policy_state_dict num_steps exploration_step
    s' res out :
  sample fuel s policy_state_dict num_steps exploration_step = Ret (s', res, out) ->
  exists (l : Loop) tr0,
    sample_rollout fuel s policy_state_dict num_steps exploration_step = Ret l
    /\ learn_env s' = lenv l
    /\ terminal s' = lterm l
    /\ state_ s' = lstate l
    /\ end_of_episode res = terminal s'
    /\ agent_wrapper s'
       = law l ++ map (fun f => RecordTransition (recorded f)) out
    /\ flush_all env_tick get_reward post_step reward_eval_delay
         (lenv l) (lterm l) (lstate l) (lcache l) tr0
       = (out, transition_cache s', tracker s').
Proof.
  unfold EnvSampler.sample, EnvSampler.sample_rollout. intros H.
  match type of H with
  | match ?start with _ => _ end = _ => destruct start as [l0| |]; try discriminate
  end.
  destruct (EnvSampler.rollout_loop _ _ _ _ _ _ _ l0) as [l| |]; try discriminate.
  match type of H with
  | context [flush_all ?a ?b ?c ?d ?e ?f ?g ?h ?i] =>
      destruct (flush_all a b c d e f g h i) as [[o q] t] eqn:Hfl
  end.
  inversion H; subst; simpl.
  exists l, (if terminal s then [] else tracker s). now repeat split.
Qed.

(** With a budget of no step, the roll-out loop of a sampler in the
    middle of an episode leaves everything as it found it. *)
Lemma sample_rollout_no_step fuel s policy_state_dict exploration_step (l : Loop) :
  terminal s = false ->
  sample_rollout fuel s policy_state_dict 0 exploration_step = Ret l ->
  lenv l = learn_env s /\ lterm l = false /\ lstate l = state_ s
  /\ lcache l = transition_cache s.
Proof.
  unfold EnvSampler.sample_rollout. intros Ht. rewrite Ht.
  destruct (event_ _ _ _ _ _ _ _ _ s) as [ev|]; [|discriminate].
  destruct fuel; simpl; intros [= <-]; now repeat split.
Qed.

(** C1. A [sample] call that returns runs the flush once on every agent's
    queue as the roll-out loop left it, with the tick of the environment
    and the terminal flag that the call leaves behind. From the front of
    each queue it pops exactly the records that are due: a record is
    flushed only if the episode is terminal or the current tick minus the
    record's tick is at least [reward_eval_delay], the first record left in
    the queue is not due, and on a queue in tick order (as the queues are
    when the tick never goes back) a record is flushed if and only if it is
    due. Every flushed record is handed to [record_transition] with its own
    state, action and reward, for the agent of its queue, and the flushed
    records keep their queue order, so their ticks do not decrease. With a
    queue of ticks [0; 2; 5] and a delay of 3, a call at tick 4 that takes
    no step flushes the tick-0 record alone, and one at tick 6 then flushes
    the tick-2 record alone. *)
Theorem sample_flushes_iff_due fuel s policy_state_dict num_steps exploration_step
    s' res out :
  sample fuel s policy_state_dict num_steps exploration_step = Ret (s', res, out) ->
  (exists l : Loop,
      sample_rollout fuel s policy_state_dict num_steps exploration_step = Ret l
      /\ learn_env s' = lenv l
      /\ terminal s' = lterm l
      /\ end_of_episode res = terminal s'
      /\ agent_wrapper s'
         = law l ++ map (fun f => RecordTransition (recorded f)) out
      /\ length (transition_cache s') = length (lcache l)
      /\ (forall (k : nat) agent q, lcache l !! k = Some (agent, q) ->
            exists o rest before after,
              transition_cache s' !! k = Some (agent, rest)
              /\ out = before ++ o ++ after
              /\ q = (popped <$> o) ++ rest
              /\ Forall (fun c => terminal s' = true
                                  \/ reward_eval_delay
                                     <= env_tick (learn_env s') - c_tick c)
                        (popped <$> o)
              /\ Forall (fun f =>
                           t_agent (recorded f) = agent
                           /\ t_state (recorded f) = c_state (popped f)
                           /\ t_action (recorded f) = c_action (popped f)
                           /\ t_reward (recorded f)
                              = get_reward (learn_env s')
                                  (c_env_actions (popped f)) (c_tick (popped f))
                                  agent)
                        o
              /\ (forall c, head rest = Some c ->
                    ~ (terminal s' = true
                       \/ reward_eval_delay <= env_tick (learn_env s') - c_tick c))
              /\ (Sorted Z.le (c_tick <$> q) ->
                    (forall (i : nat) c, q !! i = Some c ->
                       (i < length o)%nat <->
                       (terminal s' = true
                        \/ reward_eval_delay
                           <= env_tick (learn_env s') - c_tick c))
                    /\ Sorted Z.le (c_tick <$> (popped <$> o))))
      /\ ((forall e a, env_tick e <= env_tick (fst (fst (env_step e a)))) ->
          queues_in_order (env_tick (learn_env s)) (transition_cache s) ->
          Forall (fun kv => Sorted Z.le (c_tick <$> snd kv)) (lcache l)))
  /\ (forall fuel4 fuel6 (s4 s6 : Sampler) psd4 psd6 x4 x6 agent c0 c2 c5
             s4' res4 out4 s6' res6 out6,
        reward_eval_delay = 3 ->
        c_tick c0 = 0 -> c_tick c2 = 2 -> c_tick c5 = 5 ->
        terminal s4 = false -> env_tick (learn_env s4) = 4 ->
        transition_cache s4 = [(agent, [c0; c2; c5])] ->
        terminal s6 = false -> env_tick (learn_env s6) = 6 ->
        transition_cache s6 = transition_cache s4' ->
        sample fuel4 s4 psd4 0 x4 = Ret (s4', res4, out4) ->
        sample fuel6 s6 psd6 0 x6 = Ret (s6', res6, out6) ->
        popped <$> out4 = [c0] /\ transition_cache s4' = [(agent, [c2; c5])]
        /\ popped <$> out6 = [c2] /\ transition_cache s6' = [(agent, [c5])]).
Proof.
  intros H. split.
  - apply sample_flush_queues in H
      as (l & tr0 & Hroll & He & Ht & Hst & Hend & Haw & Hfl).
    exists l. rewrite He, Ht.
    split; [exact Hroll|]. split; [reflexivity|]. split; [reflexivity|].
    split; [now rewrite Hend, Ht|]. split; [exact Haw|].
    split; [now apply flush_all_length in Hfl|]. split.
    + intros k agent q Hk.
      eapply flush_all_per_agent in Hfl; [|exact Hk].
      destruct Hfl
        as (tr1 & o & rest & tr2 & before & after & Hf & Hlk & Hout).
      apply flush_cache_iff_due in Hf
        as (Hq & Hdue & Hrec & Hstop & Hsorted & _).
      exists o, rest, before, after.
      split; [exact Hlk|]. split; [exact Hout|]. split; [exact Hq|].
      split; [exact Hdue|]. split; [exact Hrec|]. split; [exact Hstop|].
      exact Hsorted.
    + intros Hmono Hq.
      unfold EnvSampler.sample_rollout in Hroll.
      match type of Hroll with
      | match ?start with _ => _ end = _ =>
          assert (Hstart : forall l0, start = Ret l0 ->
                    queues_in_order (env_tick (lenv l0)) (lcache l0));
          [|destruct start as [l0| |]; try discriminate]
      end.
      { intros l0. destruct (terminal s).
        - destruct (env_step (env_reset (learn_env s)) None) as [[e1 ev] t0].
          intros [= <-]. constructor.
        - destruct (event_ _ _ _ _ _ _ _ _ s); [|discriminate].
          intros [= <-]. exact Hq. }
      apply (rollout_loop_in_order _ _ _ _ Hmono (Hstart l0 eq_refl)) in Hroll.
      eapply Forall_impl; [exact Hroll|]. intros kv [Hs _]. exact Hs.
  - clear H.
    intros fuel4 fuel6 s4 s6 psd4 psd6 x4 x6 agent c0 c2 c5
           s4' res4 out4 s6' res6 out6 Hd H0 H2 H5 Ht4 He4 Hc4 Ht6 He6 Hc6 Hs4 Hs6.
    apply sample_flush_queues in Hs4
      as (l4 & tr4 & Hroll4 & _ & _ & _ & _ & _ & Hfl4).
    apply sample_rollout_no_step in Hroll4 as (Ha4 & Hb4 & Hg4 & Hd4);
      [|exact Ht4].
    rewrite Ha4, Hb4, Hg4, Hd4, Hc4 in Hfl4. simpl in Hfl4. unfold EnvSampler.due in Hfl4.
    rewrite ?He4, ?H0, ?H2, ?Hd in Hfl4. simpl in Hfl4.
    injection Hfl4 as Ho4 Hq4 _. rewrite <- Hq4 in Hc6.
    apply sample_flush_queues in Hs6
      as (l6 & tr6 & Hroll6 & _ & _ & _ & _ & _ & Hfl6).
    apply sample_rollout_no_step in Hroll6 as (Ha6 & Hb6 & Hg6 & Hd6);
      [|exact Ht6].
    rewrite Ha6, Hb6, Hg6, Hd6, Hc6 in Hfl6. simpl in Hfl6. unfold EnvSampler.due in Hfl6.
    rewrite ?He6, ?H2, ?H5, ?Hd in Hfl6. simpl in Hfl6.
    injection Hfl6 as Ho6 Hq6 _.
    rewrite <- Ho4, <- Hq4, <- Ho6, <- Hq6. now repeat split.
Qed.

(** C4. In a [sample] call that returns, when the flush pops record [i]
    of an agent's queue, the transition handed to [record_transition]
    takes its next state from the new front of the queue, record [i + 1],
    when there is one, and otherwise from the pending state [self._state]
    that the call leaves; its terminal flag is set exactly when the queue
    has been emptied and the call ends the episode. At the end of an
    episode every queue is emptied. *)
Theorem sample_records_next_state fuel s policy_state_dict num_steps
    exploration_step s' res out :
  sample fuel s policy_state_dict num_steps exploration_step = Ret (s', res, out) ->
  exists l : Loop,
    sample_rollout fuel s policy_state_dict num_steps exploration_step = Ret l
    /\ state_ s' = lstate l
    /\ terminal s' = lterm l
    /\ end_of_episode res = terminal s'
    /\ agent_wrapper s'
       = law l ++ map (fun f => RecordTransition (recorded f)) out
    /\ (forall (k : nat) agent q, lcache l !! k = Some (agent, q) ->
          exists o rest before after,
            transition_cache s' !! k = Some (agent, rest)
            /\ out = before ++ o ++ after
            /\ q = (popped <$> o) ++ rest
            /\ (terminal s' = true -> rest = [])
            /\ (forall (i : nat) f, o !! i = Some f ->
                  q !! i = Some (popped f)
                  /\ t_agent (recorded f) = agent
                  /\ t_next_state (recorded f)
                     = match q !! S i with
                       | Some c' => FrontState (c_state c')
                       | None => PendingState (state_ s')
                       end
                  /\ (t_terminal (recorded f) = true
                      <-> q !! S i = None /\ terminal s' = true))).
Proof.
  intros H.
  apply sample_flush_queues in H
    as (l & tr0 & Hroll & He & Ht & Hst & Hend & Haw & Hfl).
  exists l. rewrite Hst, Ht.
  split; [exact Hroll|]. split; [reflexivity|]. split; [reflexivity|].
  split; [now rewrite Hend, Ht|]. split; [exact Haw|].
  intros k agent q Hk.
  eapply flush_all_per_agent in Hfl; [|exact Hk].
  destruct Hfl as (tr1 & o & rest & tr2 & before & after & Hf & Hlk & Hout).
  exists o, rest, before, after.
  split; [exact Hlk|]. split; [exact Hout|].
  split; [now apply flush_prefix in Hf|]. split.
  - intros Hterm. rewrite Hterm in Hf. now apply flush_cache_empties in Hf.
  - intros i f Hi. eapply flush_cache_next_state; [exact Hf|exact Hi].
Qed.

End Calls.

End EnvSamplerFacts.

(** ** The remote manager: validity of replies, quorum and extra receives *)

Module RolloutManagerFacts.
Import RolloutManager.

Section Remote.

Context {Info TVal : Type}.

Implicit Types (self : Distributed) (msg : WorkerMsg Info TVal).
Implicit Types (b : Buffers Info TVal) (inbox : list (Delivery Info TVal)).
Implicit Types (log : list (Recv Info TVal)).

Lemma tally_app {A} (f : A -> bool) l1 l2 :
  tally f (l1 ++ l2) = tally f l1 + tally f l2.
Proof. induction l1 as [|x l1 IH]; simpl; [reflexivity|]. rewrite IH. lia. Qed.


Lemma tag_eqb_eq (a t : MsgTag) : tag_eqb a t = true <-> a = t.
Proof. destruct a, t; simpl; split; congruence. Qed.

Lemma handle_worker_result_spec self msg ep segment version :
  (passes_checks self msg ep segment version
   /\ handle_worker_result self msg ep segment version
      = (set_flags self (d_exploration_step self) (m_end_of_episode msg),
         Some (m_rollout_info msg, m_tracker msg)))
  \/ (~ passes_checks self msg ep segment version
      /\ handle_worker_result self msg ep segment version = (self, None)).
Proof.
  unfold handle_worker_result, passes_checks.
  destruct (tag_eqb (m_type msg) SAMPLE_DONE) eqn:Htag; simpl.
  - apply tag_eqb_eq in Htag.
    destruct (d_max_lag self <? version - m_version msg) eqn:Hlag.
    + right. apply Z.ltb_lt in Hlag. split; [lia|reflexivity].
    + apply Z.ltb_ge in Hlag.
      destruct (m_episode msg =? ep) eqn:Hep; simpl.
      * destruct (m_segment msg =? segment) eqn:Hseg.
        -- left. apply Z.eqb_eq in Hep, Hseg. now repeat split.
        -- right. apply Z.eqb_neq in Hseg. split; [tauto|reflexivity].
      * right. apply Z.eqb_neq in Hep. split; [tauto|reflexivity].
  - right. split; [|reflexivity]. intros [Ht _].
    apply tag_eqb_eq in Ht. congruence.
Qed.



Lemma handle_config self msg ep segment version :
  config (fst (handle_worker_result self msg ep segment version)) = config self
  /\ d_exploration_step (fst (handle_worker_result self msg ep segment version))
     = d_exploration_step self.
Proof.
  destruct (handle_worker_result_spec self msg ep segment version)
    as [[_ ->]|[_ ->]]; simpl; split; reflexivity.
Qed.

Lemma handle_max_lag self self' msg ep segment version :
  config self' = config self ->
  snd (handle_worker_result self' msg ep segment version)
  = snd (handle_worker_result self msg ep segment version).
Proof.
  intros Hc. assert (Hl : d_max_lag self' = d_max_lag self).
  { unfold config in Hc. congruence. }
  unfold handle_worker_result. rewrite Hl.
  repeat match goal with |- context [if ?c then _ else _] => destruct c end;
    reflexivity.
Qed.

Lemma counted_config self self' ep segment version msg :
  config self' = config self ->
  counted self' ep segment version msg = counted self ep segment version msg.
Proof. intros Hc. unfold counted. now rewrite (handle_max_lag self self'). Qed.

Lemma handled_config self self' ep segment version msg :
  config self' = config self ->
  handled self' msg ep segment version = handled self msg ep segment version.
Proof. intros Hc. unfold handled. now rewrite (handle_max_lag self self'). Qed.

Lemma tally_counted_config self self' ep segment version log :
  config self' = config self ->
  tally (counted_recv self' ep segment version) log
  = tally (counted_recv self ep segment version) log.
Proof.
  intros Hc. induction log as [|r log IH]; simpl; [reflexivity|].
  rewrite IH. unfold counted_recv. destruct (recv_msg r); [|reflexivity].
  now rewrite (counted_config self self').
Qed.

Lemma flag_after_config self self' ep segment version flag log :
  config self' = config self ->
  flag_after self' ep segment version flag log
  = flag_after self ep segment version flag log.
Proof.
  intros Hc. revert flag. unfold flag_after.
  induction log as [|r log IH]; intros flag; simpl; [reflexivity|].
  rewrite IH. destruct (recv_msg r); [|reflexivity].
  now rewrite (handled_config self self').
Qed.

(** What the handling of one received message does to the manager and
    to the buffers of the call. *)
Lemma absorb_spec self b entry msg ep segment version self' b' :
  absorb self b entry msg ep segment version = (self', b') ->
  config self' = config self
  /\ d_exploration_step self' = d_exploration_step self
  /\ d_episode_complete self'
     = (if handled self msg ep segment version then m_end_of_episode msg
        else d_episode_complete self)
  /\ b_log b' = b_log b ++ [entry]
  /\ b_num_finishes b'
     = b_num_finishes b + (if counted self ep segment version msg then 1 else 0)
  /\ b_collected b'
     = (if counted self ep segment version msg
        then add_result (b_collected b) (m_rollout_info msg) (m_tracker msg)
        else b_collected b).
Proof.
  unfold absorb, counted, handled.
  destruct (handle_worker_result_spec self msg ep segment version)
    as [[_ ->]|[_ ->]]; simpl.
  - destruct (m_rollout_info msg) as [|kv info] eqn:Hinfo; simpl;
      intros [= <- <-]; simpl; repeat split; lia.
  - intros [= <- <-]; simpl. repeat split; lia.
Qed.

(** The first loop of [collect], when it ends. *)
Lemma quorum_loop_ret self b ep segment version inbox self' b' rest :
  quorum_loop self b ep segment version inbox = Ret (self', b', rest) ->
  exists new,
    b_log b' = b_log b ++ new
    /\ Forall is_blocking new
    /\ b_num_finishes b'
       = b_num_finishes b + tally (counted_recv self ep segment version) new
    /\ b_num_finishes b' = d_min_finished_workers self
    /\ config self' = config self
    /\ d_exploration_step self' = d_exploration_step self
    /\ d_episode_complete self'
       = flag_after self ep segment version (d_episode_complete self) new
    /\ omap recv_msg new ++ arrivals rest = arrivals inbox.
Proof.
  revert self b.
  induction inbox as [|[msg|] inbox IH]; intros self b H; simpl in H.
  - discriminate.
  - destruct (absorb self b (RecvBlocking msg) msg ep segment version)
      as [self1 b1] eqn:Habs.
    apply absorb_spec in Habs as (Hc & Hx & He & Hl & Hn & _).
    destruct (b_num_finishes b1 =? d_min_finished_workers self) eqn:Hq.
    + inversion H; subst. exists [RecvBlocking msg]. apply Z.eqb_eq in Hq.
      repeat split; try assumption.
      * repeat constructor.
      * simpl. unfold counted_recv at 1. simpl. lia.
    + apply IH in H as (new & Hl' & Hb & Hn' & Hm & Hc' & Hx' & He' & Har).
      exists (RecvBlocking msg :: new).
      assert (Hmin : d_min_finished_workers self1 = d_min_finished_workers self).
      { unfold config in Hc. congruence. }
      repeat split.
      * rewrite Hl', Hl. now rewrite <- app_assoc.
      * constructor; [exact I|exact Hb].
      * rewrite Hn', Hn. simpl. unfold counted_recv at 2. simpl.
        rewrite (tally_counted_config self self1) by exact Hc. lia.
      * congruence.
      * congruence.
      * congruence.
      * rewrite He', He. rewrite (flag_after_config self self1) by exact Hc.
        reflexivity.
      * simpl. now f_equal.
  - apply IH in H as (new & ?). exists new. exact H.
Qed.



(** The second loop of [collect]: what its receives are, how many there
    are, and when it stops before its tries are used up. *)
Lemma extra_loop_spec tries self b ep segment version inbox self' b' rest :
  extra_loop tries self b ep segment version inbox = (self', b', rest) ->
  exists new,
    b_log b' = b_log b ++ new
    /\ (length new <= tries)%nat
    /\ Forall (fun r => exists got, r = RecvTimed (d_extra_recv_timeout self) got) new
    /\ b_num_finishes b'
       = b_num_finishes b + tally (counted_recv self ep segment version) new
    /\ ((length new < tries)%nat ->
        b_num_finishes b' = d_num_workers self
        /\ exists msg,
             last new = Some (RecvTimed (d_extra_recv_timeout self) (Some msg)))
    /\ (forall (k : nat) t msg,
          new !! k = Some (RecvTimed t (Some msg)) ->
          b_num_finishes b
          + tally (counted_recv self ep segment version) (take (S k) new)
          = d_num_workers self ->
          S k = length new)
    /\ config self' = config self
    /\ d_exploration_step self' = d_exploration_step self
    /\ d_episode_complete self'
       = flag_after self ep segment version (d_episode_complete self) new
    /\ rest = drop (length new) inbox.
Proof.
  revert self b inbox.
  induction tries as [|tries IH]; intros self b inbox H; simpl in H.
  - inversion H; subst. exists []. rewrite app_nil_r. simpl.
    repeat split; try reflexivity; try lia.
    + constructor.
    + intros k t msg Hk. discriminate.
  - destruct (receive_timeout inbox) as [[msg|] rest0] eqn:Hrecv.
    + destruct (absorb self b (RecvTimed (d_extra_recv_timeout self) (Some msg))
                       msg ep segment version) as [self1 b1] eqn:Habs.
      apply absorb_spec in Habs as (Hc & Hx & He & Hl & Hn & _).
      assert (Hrest : rest0 = drop 1 inbox).
      { destruct inbox as [|[m|] inbox]; inversion Hrecv; reflexivity. }
      assert (Hcfg : d_num_workers self1 = d_num_workers self
                     /\ d_extra_recv_timeout self1 = d_extra_recv_timeout self).
      { unfold config in Hc. split; congruence. }
      destruct Hcfg as [Hnw Hto].
      destruct (b_num_finishes b1 =? d_num_workers self) eqn:Hq.
      * inversion H; subst. apply Z.eqb_eq in Hq.
        exists [RecvTimed (d_extra_recv_timeout self) (Some msg)].
        repeat split; try assumption; simpl; try lia.
        -- repeat constructor. eauto.
        -- unfold counted_recv at 1. simpl. lia.
        -- eauto.
        -- intros [|k] t m Hk _; [reflexivity|discriminate].
      * apply Z.eqb_neq in Hq.
        apply IH in H as (new & Hl' & Hlen & Hall & Hn' & Hearly & Hstop
                          & Hc' & Hx' & He' & Hr).
        exists (RecvTimed (d_extra_recv_timeout self) (Some msg) :: new).
        rewrite Hnw, Hto in *.
        rewrite (tally_counted_config self self1) in * by exact Hc.
        rewrite (flag_after_config self self1) in He' by exact Hc.
        repeat split.
        -- rewrite Hl', Hl. now rewrite <- app_assoc.
        -- simpl. lia.
        -- constructor; [eauto|exact Hall].
        -- rewrite Hn', Hn. simpl. unfold counted_recv at 2. simpl. lia.
        -- simpl in H. apply Hearly. lia.
        -- simpl in H. destruct Hearly as [_ [m Hm]]; [lia|].
           exists m. destruct new; [discriminate|exact Hm].
        -- intros [|k] t m Hk Hsum.
           ++ simpl in Hsum. unfold counted_recv in Hsum. simpl in Hsum. lia.
           ++ simpl. f_equal. apply (Hstop k t m Hk).
              simpl in Hsum. unfold counted_recv at 1 in Hsum. simpl in Hsum.
              rewrite (tally_counted_config self self1) by exact Hc. lia.
        -- congruence.
        -- congruence.
        -- rewrite He', He. reflexivity.
        -- rewrite Hr, Hrest. simpl. now rewrite drop_drop.
    + assert (Hrest : rest0 = drop 1 inbox).
      { destruct inbox as [|[m|] inbox]; inversion Hrecv; reflexivity. }
      apply IH in H as (new & Hl' & Hlen & Hall & Hn' & Hearly & Hstop
                        & Hc' & Hx' & He' & Hr).
      simpl in *.
      exists (RecvTimed (d_extra_recv_timeout self) None :: new).
      repeat split.
      * rewrite Hl'. now rewrite <- app_assoc.
      * simpl. lia.
      * constructor; [eauto|exact Hall].
      * rewrite Hn'. simpl. reflexivity.
      * simpl in H. apply Hearly. lia.
      * simpl in H. destruct Hearly as [_ [m Hm]]; [lia|].
        exists m. destruct new; [discriminate|exact Hm].
      * intros [|k] t m Hk Hsum; [discriminate|].
        simpl. f_equal. apply (Hstop k t m Hk). exact Hsum.
      * exact Hc'.
      * exact Hx'.
      * exact He'.
      * rewrite Hr, Hrest. simpl. now rewrite drop_drop.
Qed.




(** Everything [collect] does between the broadcast and the flag update. *)
Lemma collect_ret self ep segment version inbox self' report :
  distributed_collect self ep segment version inbox = Ret (self', report) ->
  exists self2 rest1,
    self' = set_flags self2
              (if d_episode_complete self2 then true else false)
              (d_episode_complete self2)
    /\ config self2 = config self
    /\ d_episode_complete self2
       = flag_after self ep segment version (d_episode_complete self)
           (quorum_recvs report ++ extra_recvs report)
    /\ sent_exploration_step report = d_exploration_step self
    /\ Forall is_blocking (quorum_recvs report)
    /\ quorum_finishes report
       = tally (counted_recv self ep segment version) (quorum_recvs report)
    /\ quorum_finishes report = d_min_finished_workers self
    /\ omap recv_msg (quorum_recvs report) ++ arrivals rest1 = arrivals inbox
    /\ (exists new, new = extra_recvs report
        /\ (length new <= Z.to_nat (d_max_extra_recv_tries self))%nat
        /\ Forall (fun r => exists got,
                     r = RecvTimed (d_extra_recv_timeout self) got) new
        /\ num_finishes report
           = quorum_finishes report
             + tally (counted_recv self ep segment version) new
        /\ ((length new < Z.to_nat (d_max_extra_recv_tries self))%nat ->
            num_finishes report = d_num_workers self
            /\ exists msg,
                 last new
                 = Some (RecvTimed (d_extra_recv_timeout self) (Some msg)))
        /\ (forall (k : nat) t msg,
              new !! k = Some (RecvTimed t (Some msg)) ->
              quorum_finishes report
              + tally (counted_recv self ep segment version) (take (S k) new)
              = d_num_workers self ->
              S k = length new)
        /\ unread report = drop (length new) rest1).
Proof.
  unfold distributed_collect. intros H.
  set (self0 := set_flags self false (d_episode_complete self)) in *.
  assert (Hc0 : config self0 = config self) by reflexivity.
  destruct (quorum_loop self0 _ ep segment version inbox)
    as [[[self1 b1] rest1]| |] eqn:Hq; try discriminate.
  apply quorum_loop_ret in Hq
    as (new1 & Hl1 & Hb1 & Hn1 & Hm1 & Hc1 & Hx1 & He1 & Har1).
  simpl in Hl1, Hn1, Hx1, He1.
  match type of H with
  | context [extra_loop ?t ?s ?b _ _ _ ?i] =>
      destruct (extra_loop t s b ep segment version i)
        as [[self2 b2] rest2] eqn:Hex
  end.
  apply extra_loop_spec in Hex
    as (new2 & Hl2 & Hlen2 & Hall2 & Hn2 & Hearly2 & Hstop2 & Hc2 & Hx2 & He2 & Hr2).
  simpl in Hl2, Hn2.
  assert (Hc10 : config self1 = config self) by congruence.
  assert (Hf : d_max_extra_recv_tries self1 = d_max_extra_recv_tries self
               /\ d_extra_recv_timeout self1 = d_extra_recv_timeout self
               /\ d_num_workers self1 = d_num_workers self
               /\ d_min_finished_workers self0 = d_min_finished_workers self).
  { unfold config in Hc10. repeat split; congruence. }
  destruct Hf as (Hf1 & Hf2 & Hf3 & Hf4).
  rewrite Hf1, Hf2, Hf3 in *.
  rewrite (tally_counted_config self self1) in * by exact Hc10.
  rewrite (tally_counted_config self self0) in * by exact Hc0.
  rewrite (flag_after_config self self1) in He2 by exact Hc10.
  rewrite (flag_after_config self self0) in He1 by exact Hc0.
  inversion H; subst; simpl. clear H.
  exists self2, rest1.
  assert (Hxs : d_exploration_step self2 = false) by congruence.
  rewrite Hxs.
  split; [reflexivity|]. split; [congruence|]. split.
  { unfold flag_after. rewrite fold_left_app.
    fold (@flag_after Info TVal self ep segment version). rewrite He2, He1. reflexivity. }
  split; [reflexivity|]. split; [exact Hb1|]. split; [lia|].
  split; [congruence|]. split; [exact Har1|].
  exists (b_log b2). split; [reflexivity|]. split; [exact Hlen2|].
  split; [exact Hall2|]. split; [exact Hn2|]. split; [exact Hearly2|].
  split; [|reflexivity].
  intros k t msg Hk Hsum. apply (Hstop2 k t msg Hk). simpl.
  rewrite (tally_counted_config self self1) by exact Hc10. exact Hsum.
Qed.


(** The flag after a sequence of receives is that of the last message
    that passed the checks, if there is one. *)
Lemma flag_after_last self ep segment version flag log :
  flag_after self ep segment version flag log
  = match last (List.filter (fun msg => handled self msg ep segment version)
                            (omap recv_msg log)) with
    | Some msg => m_end_of_episode msg
    | None => flag
    end.
Proof.
  induction log as [|r log IH] using rev_ind; [reflexivity|].
  unfold flag_after in *. rewrite fold_left_app. simpl. rewrite IH.
  rewrite omap_app, List.filter_app. simpl.
  destruct (recv_msg r) as [msg|]; simpl.
  - destruct (handled self msg ep segment version); simpl.
    + now rewrite last_snoc.
    + now rewrite app_nil_r.
  - now rewrite app_nil_r.
Qed.

(** The receive loop of [evaluate] reads at most one message per
    iteration. *)
Lemma eval_loop_reads iterations self ep inbox finishes acc acc' finishes' rest :
  eval_loop iterations self ep inbox finishes acc = Ret (acc', finishes', rest) ->
  (length (arrivals inbox) <= length (arrivals rest) + iterations)%nat
  /\ (length acc' <= length acc + iterations)%nat.
Proof.
  revert inbox finishes acc.
  induction iterations as [|n IH]; intros inbox finishes acc H; simpl in H.
  - inversion H; subst. lia.
  - destruct (receive inbox) as [[result inbox1]|] eqn:Hrecv; [|discriminate].
    assert (Hlen : length (arrivals inbox) = S (length (arrivals inbox1))).
    { clear -Hrecv. induction inbox as [|[m|] inbox IHi]; simpl in *.
      - discriminate.
      - inversion Hrecv; subst. reflexivity.
      - now apply IHi. }
    destruct (negb (tag_eqb (m_type result) TEST_DONE)
              || negb (m_episode result =? ep)).
    + apply IH in H. lia.
    + destruct (m_episode result =? ep).
      * destruct (finishes + 1 =? d_num_eval_workers self).
        -- inversion H; subst. rewrite length_app. simpl. lia.
        -- apply IH in H. rewrite length_app in H. simpl in H. lia.
      * apply IH in H. rewrite length_app in H. simpl in H. lia.
Qed.

End Remote.

(** ** The local pool *)

Section Local.

Context {Info TVal : Type}.

Implicit Types (self : Simple) (results : list (WorkerResult Info TVal)).

Lemma simple_recv_all_spec conns results acc complete acc' complete' :
  simple_recv_all conns results acc complete = Ret (acc', complete') ->
  Forall (fun i => exists r ended,
            results !! i = Some r /\ r_episode_end r = Some ended) conns
  /\ complete' = match last conns with
                 | Some i =>
                     match results !! i with
                     | Some r => default complete (r_episode_end r)
                     | None => complete
                     end
                 | None => complete
                 end.
Proof.
  revert acc complete.
  induction conns as [|i conns IH]; intros acc complete H; simpl in H.
  - inversion H; subst. split; [constructor|reflexivity].
  - destruct (results !! i) as [r|] eqn:Hr; [|discriminate].
    destruct (r_episode_end r) as [ended|] eqn:He; [|discriminate].
    apply IH in H as [Hall Hc]. split.
    + constructor; [eauto|exact Hall].
    + destruct conns as [|j conns]; [simpl in *; now rewrite Hr, He|].
      rewrite last_cons_cons.
      destruct (last (j :: conns)) as [k|] eqn:Hk.
      * apply last_Some_elem_of in Hk.
        rewrite Forall_forall in Hall.
        destruct (Hall k Hk) as (rk & ek & Hrk & Hek).
        now rewrite Hrk, Hek in *.
      * apply last_None in Hk. discriminate.
Qed.

(** What one [collect] call of the local manager does to the two flags. *)
Lemma simple_collect_flags self results self' sent acc :
  simple_collect self results = Ret (self', sent, acc) ->
  sent = s_exploration_step self
  /\ s_parallelism self' = s_parallelism self
  /\ s_exploration_step self'
     = (if s_parallelism self =? 1
        then s_exploration_step self || s_episode_complete self'
        else s_episode_complete self').
Proof.
  unfold simple_collect. destruct (s_parallelism self =? 1) eqn:Hp.
  - destruct (results !! 0%nat) as [r|]; [|discriminate].
    intros [= <- <- <-]. simpl.
    destruct (r_end_of_episode r), (s_exploration_step self); repeat split.
  - destruct (simple_recv_all _ _ _ _) as [[acc1 complete]| |]; try discriminate.
    intros [= <- <- <-]. simpl. destruct complete; repeat split.
Qed.

(** The flag after a [collect] call of the local manager is the one read
    from the last result: under the key ["end_of_episode"] in process,
    under ["episode_end"] on a pool. *)
Lemma simple_collect_last self results self' sent acc :
  1 <= s_parallelism self ->
  simple_collect self results = Ret (self', sent, acc) ->
  exists r,
    results !! (Z.to_nat (s_parallelism self) - 1)%nat = Some r
    /\ (if s_parallelism self =? 1
        then r_end_of_episode r = s_episode_complete self'
        else r_episode_end r = Some (s_episode_complete self')).
Proof.
  intros H1. unfold simple_collect. destruct (s_parallelism self =? 1) eqn:Hp.
  - apply Z.eqb_eq in Hp. rewrite Hp. simpl.
    destruct (results !! 0%nat) as [r|]; [|discriminate].
    intros [= <- <- <-]. simpl. eauto.
  - destruct (simple_recv_all _ _ _ _) as [[acc1 complete]| |] eqn:Hr;
      try discriminate.
    intros [= <- <- <-]. simpl.
    apply simple_recv_all_spec in Hr as [Hall ->].
    destruct (Z.to_nat (s_parallelism self)) as [|n] eqn:Hn; [lia|].
    rewrite seq_S in *. rewrite last_snoc. simpl.
    rewrite Forall_app in Hall. destruct Hall as [_ Hall].
    inversion Hall as [|? ? (r & ended & Hr & He) _]; subst.
    exists r. rewrite Nat.sub_0_r. rewrite Hr, He. now split.
Qed.

(** In process, the exploration-step flag is never cleared: once set, it
    goes out with every later sample call. *)
Lemma in_process_flag_sticks self results self' sent acc :
  s_parallelism self = 1 ->
  s_exploration_step self = true ->
  simple_collect self results = Ret (self', sent, acc) ->
  sent = true /\ s_exploration_step self' = true.
Proof.
  intros Hp Hx H. apply simple_collect_flags in H as (-> & _ & ->).
  rewrite Hp, Hx. now split.
Qed.

(** The constructor of the local manager raises exactly on a bad step
    budget, on a pool of less than one worker and on more evaluation
    workers than workers. *)
Lemma simple_init_raises_iff num_steps parallelism eval_parallelism :
  (exists err, simple_init num_steps parallelism eval_parallelism = Raises err)
  <-> (num_steps = 0 \/ num_steps < -1 \/ parallelism < 1
       \/ parallelism < eval_parallelism).
Proof.
  unfold simple_init.
  destruct (num_steps =? 0) eqn:H0; simpl.
  { apply Z.eqb_eq in H0. split; eauto. }
  apply Z.eqb_neq in H0.
  destruct (num_steps <? -1) eqn:H1.
  { apply Z.ltb_lt in H1. split; eauto. }
  apply Z.ltb_ge in H1.
  destruct (parallelism <? 1) eqn:H2.
  { apply Z.ltb_lt in H2. split; eauto. }
  apply Z.ltb_ge in H2.
  destruct (parallelism <? eval_parallelism) eqn:H3.
  { apply Z.ltb_lt in H3. split; eauto 6. }
  apply Z.ltb_ge in H3.
  split; [intros [err H]; discriminate|lia].
Qed.

(** The constructor of the remote manager only checks the number of
    evaluation workers. *)
Lemma distributed_init_raises_iff num_workers num_steps min_finished max_extra
    timeout max_lag num_eval_workers :
  (exists err,
      distributed_init num_workers num_steps min_finished max_extra timeout
                       max_lag num_eval_workers = Raises err)
  <-> num_workers < num_eval_workers.
Proof.
  unfold distributed_init. destruct (num_workers <? num_eval_workers) eqn:H.
  - apply Z.ltb_lt in H. split; eauto.
  - apply Z.ltb_ge in H. split; [intros [err He]; discriminate|lia].
Qed.

Lemma pipe_send_lookup (pending : list nat) (i j : nat) :
  pipe_send pending i !! j
  = if decide (i = j) then S <$> pending !! j else pending !! j.
Proof.
  revert i j. induction pending as [|n pending IH]; intros i j; simpl.
  - destruct i; simpl; now destruct (decide _).
  - destruct i as [|i], j as [|j]; simpl; try reflexivity.
    rewrite IH. destruct (decide (i = j)), (decide (S i = S j));
      try reflexivity; lia.
Qed.

Lemma sends_skip (chosen pending : list nat) (j : nat) :
  j ∉ chosen -> fold_left pipe_send chosen pending !! j = pending !! j.
Proof.
  revert pending. induction chosen as [|i chosen IH]; intros pending Hj; simpl.
  - reflexivity.
  - apply not_elem_of_cons in Hj as [Hne Hj]. rewrite IH by exact Hj.
    rewrite pipe_send_lookup. destruct (decide (i = j)); [congruence|reflexivity].
Qed.

Lemma sends_keep_requests (chosen pending : list nat) (j n : nat) :
  pending !! j = Some (S n) ->
  exists n', fold_left pipe_send chosen pending !! j = Some (S n').
Proof.
  revert pending n. induction chosen as [|i chosen IH]; intros pending n Hj; simpl.
  - eauto.
  - destruct (decide (i = j)) as [->|Hne].
    + apply (IH _ (S n)). rewrite pipe_send_lookup, Hj.
      now destruct (decide (j = j)).
    + apply (IH _ n). rewrite pipe_send_lookup, Hj.
      destruct (decide (i = j)); [congruence|reflexivity].
Qed.

Lemma sends_reach (chosen pending : list nat) (j : nat) :
  j ∈ chosen -> (j < length pending)%nat ->
  exists n, fold_left pipe_send chosen pending !! j = Some (S n).
Proof.
  revert pending. induction chosen as [|i chosen IH]; intros pending Hj Hlen.
  - inversion Hj.
  - simpl. destruct (decide (i = j)) as [->|Hne].
    + destruct (lookup_lt_is_Some_2 pending j Hlen) as [n Hn].
      apply (sends_keep_requests chosen _ j n).
      rewrite pipe_send_lookup, Hn. now destruct (decide (j = j)).
    + apply elem_of_cons in Hj as [->|Hj]; [congruence|].
      apply IH; [exact Hj|].
      assert (Hl : forall p k, length (pipe_send p k) = length p).
      { clear. induction p as [|n p IHp]; intros [|k]; simpl; auto. }
      now rewrite Hl.
Qed.

Lemma sends_length (chosen pending : list nat) :
  length (fold_left pipe_send chosen pending) = length pending.
Proof.
  revert pending. induction chosen as [|i chosen IH]; intros pending; simpl.
  - reflexivity.
  - rewrite IH. clear. revert i.
    induction pending as [|n p IHp]; intros [|k]; simpl; auto.
Qed.

Lemma eval_recv_blocks (pending : list nat) (k j : nat)
    (test_tracker : nat -> Tracker TVal) :
  pending !! j = Some 0%nat ->
  simple_eval_recv pending k test_tracker = Diverges.
Proof.
  revert k j. induction pending as [|n pending IH]; intros k j Hj.
  - discriminate.
  - destruct j as [|j]; simpl in Hj.
    + inversion Hj; subst. reflexivity.
    + simpl. destruct n; [reflexivity|]. now rewrite (IH (S k) j Hj).
Qed.

Lemma eval_recv_returns (pending : list nat) (k : nat)
    (test_tracker : nat -> Tracker TVal) :
  (forall j, (j < length pending)%nat -> exists n, pending !! j = Some (S n)) ->
  exists ts, simple_eval_recv pending k test_tracker = Ret ts
             /\ length ts = length pending.
Proof.
  revert k. induction pending as [|n pending IH]; intros k Hall.
  - exists []. now split.
  - destruct (Hall 0%nat) as [n0 Hn0]; [simpl; lia|].
    simpl in Hn0. inversion Hn0; subst. simpl.
    destruct (IH (S k)) as (ts & -> & Hlen).
    + intros j Hj. apply (Hall (S j)). simpl. lia.
    + exists (test_tracker k :: ts). simpl. now rewrite Hlen.
Qed.

(** [evaluate] on a pool returns exactly when [choices] happened to draw
    every worker of the pool: it reads one reply from every pipe, and a
    worker that was sent no request never writes one. *)
Lemma evaluate_returns_iff self (chosen : list nat)
    (test_tracker : nat -> Tracker TVal) :
  s_eval_parallelism self <> 1 -> s_parallelism self <> 1 ->
  (exists ts, simple_evaluate self chosen test_tracker = Ret ts)
  <-> (forall j, (j < Z.to_nat (s_parallelism self))%nat -> j ∈ chosen).
Proof.
  intros He Hp. unfold simple_evaluate.
  apply Z.eqb_neq in He, Hp. rewrite He, Hp.
  set (idle := replicate (Z.to_nat (s_parallelism self)) 0%nat).
  assert (Hlen : length idle = Z.to_nat (s_parallelism self))
    by apply length_replicate.
  split.
  - intros [ts Hts] j Hj. destruct (decide (j ∈ chosen)) as [|Hn]; [assumption|].
    exfalso. rewrite (eval_recv_blocks _ 0%nat j) in Hts; [discriminate|].
    rewrite sends_skip by exact Hn. unfold idle.
    apply lookup_replicate_2. exact Hj.
  - intros Hall.
    destruct (eval_recv_returns (fold_left pipe_send chosen idle) 0%nat test_tracker)
      as (ts & Hts & _); [|eauto].
    intros j Hj. rewrite sends_length, Hlen in Hj.
    apply sends_reach; [now apply Hall|lia].
Qed.

End Local.

End RolloutManagerFacts.

(** ** The managers on concrete runs *)

Module Runs.
Import RolloutManager RolloutManagerFacts Scenarios.

(** C2. A reply with the tag [SAMPLE_DONE], the current version, the
    current episode and the current segment passes the three checks, and
    [_handle_worker_result] takes its end-of-episode flag; but when its
    roll-out information is the empty dict, [collect] does not count it and
    drops its tracker, so that a quorum of one is never reached with it,
    whereas the same reply with some roll-out information is counted. *)
Theorem valid_reply_without_info_is_not_counted :
  passes_checks (remote 1 0) bare_reply 1 0 5
  /\ d_episode_complete (fst (handle_worker_result (remote 1 0) bare_reply 1 0 5))
     = true
  /\ counted (remote 1 0) 1 0 5 bare_reply = false
  /\ distributed_collect (remote 1 0) 1 0 5 [Arrive bare_reply] = Diverges
  /\ (exists self' report,
         distributed_collect (remote 1 0) 1 0 5 [Arrive bare_reply; Arrive (full_reply true)]
         = Ret (self', report)
         /\ num_finishes report = 1
         /\ trackers (collected report) = [m_tracker (full_reply true)])
  /\ counted (remote 1 0) 1 0 5 (full_reply true) = true.
Proof.
  split; [|split; [|split; [|split; [|split]]]]; try reflexivity.
  - unfold passes_checks. simpl. repeat split; lia.
  - eexists _, _. split; [reflexivity|]. split; reflexivity.
Qed.


(** C5. [episode_complete] after [collect] is not true whenever some
    contributing worker reported the end of the episode: when the remote
    manager counts two replies, the first of which reports it and the
    second does not, the flag is false after the call. *)
Lemma episode_complete_is_not_any_worker :
  ~ (forall (self : Distributed) ep segment version
            (inbox : list (Delivery nat nat)) self' report,
        distributed_collect self ep segment version inbox = Ret (self', report) ->
        (exists msg,
            msg ∈ omap recv_msg (quorum_recvs report ++ extra_recvs report)
            /\ counted self ep segment version msg = true
            /\ m_end_of_episode msg = true) ->
        d_episode_complete self' = true).
Proof.
  intros H.
  specialize (H (remote 2 0) 1 0 5 mixed_inbox _ _ eq_refl).
  simpl in H. discriminate H.
  exists (full_reply true). split; [left|split; reflexivity].
Qed.

(** C5, as amended. [episode_complete] is false after construction and
    after [reset], for both managers; after a [collect] call that returns
    it is the end-of-episode flag of the last contributing worker: for the
    local manager the flag read from the last result (the sampler's in
    process, under the key [end_of_episode]; the last pool worker's, under
    the key [episode_end]), and for the remote manager that of the last
    received reply that passed the checks (the flag keeps its value when
    there was none). *)
Theorem episode_complete_is_last_worker :
  (forall num_steps parallelism eval_parallelism self,
      simple_init num_steps parallelism eval_parallelism = Ret self ->
      s_episode_complete self = false)
  /\ (forall num_workers num_steps min_finished max_extra timeout max_lag
             num_eval_workers self,
        distributed_init num_workers num_steps min_finished max_extra timeout
                         max_lag num_eval_workers = Ret self ->
        d_episode_complete self = false)
  /\ (forall self, s_episode_complete (simple_reset self) = false)
  /\ (forall self, d_episode_complete (distributed_reset self) = false)
  /\ (forall (Info TVal : Type) (self : Simple)
             (results : list (WorkerResult Info TVal)) self' sent acc,
        1 <= s_parallelism self ->
        simple_collect self results = Ret (self', sent, acc) ->
        exists r,
          results !! (Z.to_nat (s_parallelism self) - 1)%nat = Some r
          /\ (if s_parallelism self =? 1
              then r_end_of_episode r = s_episode_complete self'
              else r_episode_end r = Some (s_episode_complete self')))
  /\ (forall (Info TVal : Type) (self : Distributed) ep segment version
             (inbox : list (Delivery Info TVal)) self' report,
        distributed_collect self ep segment version inbox = Ret (self', report) ->
        d_episode_complete self'
        = match last (List.filter (fun msg => handled self msg ep segment version)
                        (omap recv_msg (quorum_recvs report ++ extra_recvs report)))
          with
          | Some msg => m_end_of_episode msg
          | None => d_episode_complete self
          end).
Proof.
  split; [|split; [|split; [|split; [|split]]]].
  - intros num_steps parallelism eval_parallelism self. unfold simple_init.
    repeat match goal with |- context [if ?c then _ else _] => destruct c end;
      try discriminate.
    all: intros [= <-]; reflexivity.
  - intros num_workers num_steps min_finished max_extra timeout max_lag
           num_eval_workers self.
    unfold distributed_init.
    destruct (num_workers <? num_eval_workers); [discriminate|].
    intros [= <-]. reflexivity.
  - reflexivity.
  - reflexivity.
  - intros Info TVal self results self' sent acc H1 H.
    exact (simple_collect_last _ _ _ _ _ H1 H).
  - intros Info TVal self ep segment version inbox self' report H.
    apply collect_ret in H as (self2 & rest1 & -> & _ & He & _).
    simpl. rewrite He. apply flag_after_last.
Qed.

(** C6. On the local manager that samples in process, the
    exploration-step flag is set by the call that completes an episode and
    is then never cleared: over three calls, the first of which completes
    an episode, it goes out with the second request and again with the
    third. On a pool of two workers, and on the remote manager, it goes out
    with the second request only. *)
Theorem in_process_exploration_step_is_never_cleared :
  (exists self',
      simple_rounds (pool 1 1) [[result true]; [result false]; [result false]]
      = Ret (self', [false; true; true])
      /\ s_exploration_step self' = true)
  /\ (exists self',
        simple_rounds (pool 2 1)
          [[result true; result true]; [result false; result false];
           [result false; result false]]
        = Ret (self', [false; true; false])
        /\ s_exploration_step self' = false)
  /\ (exists self1 report1 self2 report2 self3 report3,
        distributed_collect (remote 1 0) 1 0 5 [Arrive (full_reply true)]
        = Ret (self1, report1)
        /\ distributed_collect self1 1 0 5 [Arrive (full_reply false)]
           = Ret (self2, report2)
        /\ distributed_collect self2 1 0 5 [Arrive (full_reply false)]
           = Ret (self3, report3)
        /\ [sent_exploration_step report1; sent_exploration_step report2;
            sent_exploration_step report3] = [false; true; false]).
Proof.
  split; [|split].
  - eexists. split; reflexivity.
  - eexists. split; reflexivity.
  - eexists _, _, _, _, _, _. repeat split; reflexivity.
Qed.

(** C7. With a pool of three workers and two evaluation workers, when
    [choices] draws workers 0 and 1, or worker 0 twice, [evaluate] sends the
    request to the drawn workers and then reads a reply from every pipe of
    the pool: it blocks on a worker that got no request. It returns only
    when every worker of the pool was drawn. *)
Theorem evaluate_blocks_on_worker_without_request (test_tracker : nat -> Tracker nat) :
  simple_evaluate (pool 3 2) [0; 1]%nat test_tracker = Diverges
  /\ simple_evaluate (pool 3 2) [0; 0]%nat test_tracker = Diverges
  /\ simple_evaluate (pool 2 2) [1; 1]%nat test_tracker = Diverges
  /\ simple_evaluate (pool 2 2) [1; 0]%nat test_tracker
     = Ret [test_tracker 0%nat; test_tracker 1%nat].
Proof. repeat split; reflexivity. Qed.

(** C8. With two evaluation workers, [evaluate] makes two receives and no
    more: when the first message is not a valid evaluation reply, it
    returns a single tracker and leaves the second valid reply unread. *)
Theorem evaluate_invalid_reply_uses_up_a_receive :
  distributed_evaluate (remote 4 0) 1 ["w2"%string; "w0"%string]
    [Arrive late_sample_reply; Arrive (test_reply 11); Arrive (test_reply 12)]
  = Ret ([m_tracker (test_reply 11)], 1, [Arrive (test_reply 12)])
  /\ distributed_evaluate (remote 4 0) 1 ["w2"%string; "w0"%string]
       [Arrive (test_reply 11); Arrive (test_reply 12)]
     = Ret ([m_tracker (test_reply 11); m_tracker (test_reply 12)], 2, []).
Proof. split; reflexivity. Qed.

(** C9. The constructor of the remote manager accepts a step budget of 0
    and one below -1, which the constructor of the local manager refuses;
    both refuse more evaluation workers than workers. *)
Theorem remote_init_accepts_invalid_step_budget :
  (exists self, distributed_init 4 0 None None None 0 1 = Ret self
                /\ d_num_steps self = 0)
  /\ (exists self, distributed_init 4 (-7) None None None 0 1 = Ret self
                   /\ d_num_steps self = -7)
  /\ (exists err, simple_init 0 4 1 = Raises err)
  /\ (exists err, simple_init (-7) 4 1 = Raises err)
  /\ (exists err, simple_init (-1) 4 5 = Raises err)
  /\ (exists err, distributed_init 4 (-1) None None None 0 5 = Raises err).
Proof.
  repeat split; eexists; try split; reflexivity.
Qed.


Lemma episode_complete_is_last_worker_witness :
  exists self' report,
    distributed_collect (remote 2 0) 1 0 5 mixed_inbox = Ret (self', report)
    /\ d_episode_complete self' = m_end_of_episode (full_reply false).
Proof.
  destruct (distributed_collect (remote 2 0) 1 0 5 mixed_inbox)
    as [[self' report]| |] eqn:Hrun;
    [|vm_compute in Hrun; discriminate Hrun..].
  pose proof (proj2 (proj2 (proj2 (proj2 (proj2 episode_complete_is_last_worker))))
                nat nat (remote 2 0) 1 0 5 mixed_inbox self' report Hrun) as H.
  exists self', report. split; [reflexivity|].
  rewrite H. vm_compute in Hrun. injection Hrun as _ <-. reflexivity.
Defined.

End Runs.

(** ** The sampler on a small simulation *)

Module SamplerRuns.
Import EnvSampler EnvSamplerFacts Scenarios.

Example flush_at_4 :
  popped <$> fst (fst flushed_at_4) = [cached 0]
  /\ snd (fst flushed_at_4) = [cached 2; cached 5].
Proof. split; reflexivity. Qed.

Lemma sample_flushes_iff_due_witness :
  exists s' res out,
    toy_sample 0 (holding 4 queue) None 0 false = Ret (s', res, out)
    /\ exists (o : list (Flushed nat nat nat Z)) rest,
         transition_cache s' !! 0%nat = Some ("vessel"%string, rest)
         /\ queue = (popped <$> o) ++ rest
         /\ Forall (fun c => terminal s' = true
                             \/ 3 <= toy_tick (learn_env s') - c_tick c)
                   (popped <$> o)
         /\ (forall c, head rest = Some c ->
               ~ (terminal s' = true \/ 3 <= toy_tick (learn_env s') - c_tick c)).
Proof.
  destruct (toy_sample 0 (holding 4 queue) None 0 false)
    as [[[s' res] out]| |] eqn:Hrun;
    [|vm_compute in Hrun; discriminate Hrun..].
  destruct (sample_flushes_iff_due toy_reset toy_step toy_tick toy_state
              toy_env_actions toy_reward toy_post_step 3 toy_policy
              toy_rollout_info toy_params
              0%nat (holding 4 queue) None 0 false s' res out Hrun)
    as [(l & Hroll & _ & _ & _ & _ & _ & Hq & _) _].
  vm_compute in Hroll. injection Hroll as <-.
  destruct (Hq 0%nat "vessel"%string queue eq_refl)
    as (o & rest & before & after & Hlk & _ & Hcat & Hdue & _ & Hstop & _).
  exists s', res, out. split; [reflexivity|].
  exists o, rest. split; [exact Hlk|]. split; [exact Hcat|].
  split; [exact Hdue|exact Hstop].
Defined.

Lemma sample_records_next_state_witness :
  exists s' res out,
    toy_sample 2 after_one_step None 1 false = Ret (s', res, out)
    /\ exists (o : list (Flushed nat nat nat Z)) rest,
         transition_cache s' !! 0%nat = Some ("vessel"%string, rest)
         /\ (terminal s' = true -> rest = [])
         /\ (forall (i : nat) f, o !! i = Some f ->
               t_agent (recorded f) = "vessel"%string
               /\ (t_terminal (recorded f) = true -> terminal s' = true)).
Proof.
  destruct (toy_sample 2 after_one_step None 1 false)
    as [[[s' res] out]| |] eqn:Hrun;
    [|vm_compute in Hrun; discriminate Hrun..].
  destruct (sample_records_next_state toy_reset toy_step toy_tick toy_state
              toy_env_actions toy_reward toy_post_step 3 toy_policy
              toy_rollout_info toy_params
              2%nat after_one_step None 1 false s' res out Hrun)
    as (l & Hroll & _ & _ & _ & _ & Hq).
  vm_compute in Hroll. injection Hroll as <-.
  destruct (Hq 0%nat "vessel"%string _ eq_refl)
    as (o & rest & before & after & Hlk & _ & _ & Hempty & Hrec).
  exists s', res, out. split; [reflexivity|].
  exists o, rest. split; [exact Hlk|]. split; [exact Hempty|].
  intros i f Hi. destruct (Hrec i f Hi) as (_ & Ha & _ & Ht).
  split; [exact Ha|]. intros Hterm. exact (proj2 (proj1 Ht Hterm)).
Defined.

Example one_step_is_cached :
  map (fun kv : Agent * list (Cached nat nat nat) => (fst kv, map c_tick (snd kv)))
      (transition_cache after_one_step)
  = [("vessel"%string, [2])]
  /\ terminal after_one_step = false
  /\ learn_env after_one_step = 4.
Proof. repeat split; reflexivity. Qed.

(** The environment is not part of what [test] leaves alone: without a
    test environment of its own, the sampler evaluates on the learning
    environment, which the call resets and runs to its end. *)
Example shared_env_is_run_to_its_end :
  test_env after_one_step = None
  /\ learn_env after_one_step = 4
  /\ learn_env (fst after_test) = 6.
Proof. repeat split; reflexivity. Qed.

Lemma test_keeps_sampling_state_witness :
  transition_cache (fst after_test) = transition_cache after_one_step
  /\ tracker (fst after_test) = tracker after_one_step
  /\ step_index (fst after_test) = step_index after_one_step
  /\ terminal (fst after_test) = terminal after_one_step
  /\ snd after_test = tracker after_one_step.
Proof.
  destruct (test_keeps_sampling_state toy_reset toy_step toy_tick toy_state
              toy_env_actions toy_reward toy_post_step 3 toy_policy
              toy_rollout_info toy_params 5%nat after_one_step None
              (fst after_test) (snd after_test) eq_refl)
    as (H1 & H2 & H3 & H4 & H5 & _).
  repeat split; assumption.
Defined.

End SamplerRuns.

(** ** More on the sampler: step budget, end of episode, environments *)

Module SamplerProps.
Import EnvSampler EnvSamplerFacts SamplerUse.

Section Budget.

Context {Env Event AgentState Action EnvActions Reward TVal PolicyState
         Info Params : Type}.
Variable env_reset : Env -> Env.
Variable env_step : Env -> option EnvActions -> Env * Event * bool.
Variable env_tick : Env -> Z.
Variable get_state : Env -> Event -> StateDict AgentState.
Variable get_env_actions : Env -> (Agent -> Action) -> Event -> EnvActions.
Variable get_reward : Env -> EnvActions -> Z -> Agent -> Reward.
Variable post_step :
  option (Env -> Tracker TVal -> AgentState -> Action -> EnvActions ->
          (Agent -> Reward) -> Z -> Tracker TVal).
Variable reward_eval_delay : Z.
Variable choose_action_of :
  list (AWCall AgentState Action Reward PolicyState) ->
  option (StateDict AgentState) -> Agent -> Action.
Variable rollout_info_of :
  list (AWCall AgentState Action Reward PolicyState) -> list (string * Info).
Variable exploration_params_of :
  list (AWCall AgentState Action Reward PolicyState) -> list (string * Params).

Local Abbreviation Sampler :=
  (Sampler Env Event AgentState Action EnvActions Reward TVal PolicyState).
Local Abbreviation Loop :=
  (Loop Env Event AgentState Action EnvActions Reward PolicyState).
Local Abbreviation lstate := (l_state Env Event AgentState Action EnvActions Reward PolicyState).
Local Abbreviation lterm := (l_terminal Env Event AgentState Action EnvActions Reward PolicyState).
Local Abbreviation lindex := (l_step_index Env Event AgentState Action EnvActions Reward PolicyState).
Local Abbreviation lcache := (l_cache Env Event AgentState Action EnvActions Reward PolicyState).
Local Abbreviation lenv := (l_env Env Event AgentState Action EnvActions Reward PolicyState).
Local Abbreviation law := (l_aw Env Event AgentState Action EnvActions Reward PolicyState).
Local Abbreviation event_of :=
  (event_ Env Event AgentState Action EnvActions Reward TVal PolicyState).
Local Abbreviation loop :=
  (rollout_loop env_step env_tick get_state get_env_actions choose_action_of).

Implicit Types (s : Sampler) (l : Loop).

(** With a step budget the roll-out loop ends by itself: fuel for the
    budget is enough for it not to run on, and when it returns it has
    taken at most that many steps, and all of them unless the episode
    ended first. *)
Lemma rollout_loop_ends fuel n l :
  (Z.to_nat n <= fuel)%nat ->
  loop fuel (Some n) l <> Diverges
  /\ (forall l',
        loop fuel (Some n) l = Ret l' ->
        lindex l <= lindex l' <= lindex l + Z.max 0 n
        /\ (lterm l' = false -> lindex l' = lindex l + Z.max 0 n)).
Proof.
  revert n l. induction fuel as [|fuel IH]; intros n l Hfuel; simpl.
  - destruct (lterm l) eqn:Ht.
    + split; [discriminate|]. intros l' [= <-]. split; [lia|congruence].
    + assert (Hn : n <= 0) by lia. apply Z.leb_le in Hn. rewrite Hn.
      apply Z.leb_le in Hn.
      split; [discriminate|]. intros l' [= <-]. split; lia.
  - destruct (lterm l) eqn:Ht.
    + split; [discriminate|]. intros l' [= <-]. split; [lia|congruence].
    + destruct (n <=? 0) eqn:Hn.
      * apply Z.leb_le in Hn.
        split; [discriminate|]. intros l' [= <-]. split; lia.
      * apply Z.leb_gt in Hn.
        destruct (lstate l) as [st|]; [|split; [discriminate|discriminate]].
        destruct (env_step (lenv l) _) as [[e1 ev1] term1]. simpl.
        match goal with
        | |- context [loop fuel (Some (n - 1)) ?l1] =>
            destruct (IH (n - 1) l1) as [Hnd Hb]; [lia|]
        end.
        split; [exact Hnd|]. intros l' Hl'.
        destruct (Hb l' Hl') as [Hix Hall]. simpl in Hix, Hall.
        split; [lia|]. intros Hterm. specialize (Hall Hterm). lia.
Qed.

Lemma rollout_loop_terminal fuel steps_to_go l :
  lterm l = true -> loop fuel steps_to_go l = Ret l.
Proof. intros Ht. destruct fuel; simpl; now rewrite Ht. Qed.

(** The loop ends an episode with no pending state. *)
Lemma rollout_loop_end fuel steps_to_go l l' :
  loop fuel steps_to_go l = Ret l' ->
  lterm l = false -> lterm l' = true -> lstate l' = None.
Proof.
  revert steps_to_go l. induction fuel as [|fuel IH]; intros stg l H Ht Ht'; simpl in H.
  - rewrite Ht in H.
    destruct (match stg with Some n => n <=? 0 | None => false end);
      [inversion H; subst; congruence|discriminate].
  - rewrite Ht in H.
    destruct (match stg with Some n => n <=? 0 | None => false end);
      [inversion H; subst; congruence|].
    destruct (lstate l) as [st|]; [|discriminate].
    destruct (env_step (lenv l) _) as [[e1 ev1] [|]].
    + rewrite rollout_loop_terminal in H by reflexivity.
      inversion H; subst. reflexivity.
    + apply IH in H; auto.
Qed.

Local Abbreviation sample :=
  (sample env_reset env_step env_tick get_state get_env_actions get_reward
          post_step reward_eval_delay choose_action_of rollout_info_of
          exploration_params_of).
Local Abbreviation test :=
  (test env_reset env_step get_state get_env_actions choose_action_of).
Local Abbreviation in_use :=
  (SamplerUse.in_use env_reset env_step env_tick get_state get_env_actions
     get_reward post_step reward_eval_delay choose_action_of rollout_info_of
     exploration_params_of).
Local Abbreviation step_range_of := (step_range TVal Info Params).

(** The start of the roll-out loop in [sample], as a loop state. *)
Lemma sample_unfold fuel s policy_state_dict num_steps exploration_step s' res out :
  sample fuel s policy_state_dict num_steps exploration_step = Ret (s', res, out) ->
  exists l0 l,
    lterm l0 = false
    /\ lindex l0 = (if terminal s then 0 else step_index s)
    /\ (lstate l0 = if terminal s then lstate l0 else state_ s)
    /\ (terminal s = true -> is_Some (lstate l0) /\ lcache l0 = [])
    /\ loop fuel (if num_steps =? -1 then None else Some num_steps) l0 = Ret l
    /\ step_range_of res = (lindex l0 + 1, lindex l)
    /\ step_index s' = lindex l /\ terminal s' = lterm l
    /\ state_ s' = lstate l /\ is_Some (event_of s')
    /\ end_of_episode res = lterm l.
Proof.
  unfold EnvSampler.sample. intros H.
  destruct (terminal s) eqn:Hterm.
  - destruct (env_step (env_reset (learn_env s)) None) as [[e1 ev] t0].
    match type of H with
    | context [EnvSampler.rollout_loop _ _ _ _ _ _ _ ?l0] =>
        destruct (loop fuel (if num_steps =? -1 then None else Some num_steps) l0)
          as [l| |] eqn:Hloop; try discriminate; exists l0, l
    end.
    match type of H with
    | context [flush_all ?a ?b ?c ?d ?e ?f ?g ?h ?i] =>
        destruct (flush_all a b c d e f g h i) as [[o q] t]
    end.
    inversion H; subst; simpl. repeat split; eauto.
  - destruct (event_of s) as [ev|]; [|discriminate].
    match type of H with
    | context [EnvSampler.rollout_loop _ _ _ _ _ _ _ ?l0] =>
        destruct (loop fuel (if num_steps =? -1 then None else Some num_steps) l0)
          as [l| |] eqn:Hloop; try discriminate; exists l0, l
    end.
    match type of H with
    | context [flush_all ?a ?b ?c ?d ?e ?f ?g ?h ?i] =>
        destruct (flush_all a b c d e f g h i) as [[o q] t]
    end.
    inversion H; subst; simpl. repeat split; eauto; discriminate.
Qed.

(** X1. With a step budget ([num_steps] other than -1) a [sample] call
    does not run on for ever: fuel for [num_steps] steps is enough for it
    to end. When it returns, its step range starts one past the step index
    (at 1 in a new episode), it has taken at most [num_steps] steps (none
    when [num_steps] is not positive), and all of them unless the episode
    ended. *)
Theorem sample_ends_within_budget fuel s policy_state_dict num_steps
    exploration_step :
  num_steps <> -1 ->
  (Z.to_nat num_steps <= fuel)%nat ->
  sample fuel s policy_state_dict num_steps exploration_step <> Diverges
  /\ (forall s' res out,
        sample fuel s policy_state_dict num_steps exploration_step
        = Ret (s', res, out) ->
        step_range_of res
        = ((if terminal s then 0 else step_index s) + 1, step_index s')
        /\ (if terminal s then 0 else step_index s) <= step_index s'
           <= (if terminal s then 0 else step_index s) + Z.max 0 num_steps
        /\ (end_of_episode res = false ->
            step_index s'
            = (if terminal s then 0 else step_index s) + Z.max 0 num_steps)).
Proof.
  intros Hn Hfuel. split.
  - unfold EnvSampler.sample. apply Z.eqb_neq in Hn. rewrite Hn.
    destruct (terminal s).
    + destruct (env_step (env_reset (learn_env s)) None) as [[e1 ev] t0].
      match goal with
      | |- context [EnvSampler.rollout_loop _ _ _ _ _ _ _ ?l0] =>
          pose proof (proj1 (rollout_loop_ends fuel num_steps l0 Hfuel)) as Hnd;
          destruct (loop fuel (Some num_steps) l0) as [l| |]
      end; [|discriminate|contradiction].
      match goal with
      | |- context [flush_all ?a ?b ?c ?d ?e ?f ?g ?h ?i] =>
          destruct (flush_all a b c d e f g h i) as [[o q] t]
      end.
      discriminate.
    + destruct (event_of s) as [ev|]; [|discriminate].
      match goal with
      | |- context [EnvSampler.rollout_loop _ _ _ _ _ _ _ ?l0] =>
          pose proof (proj1 (rollout_loop_ends fuel num_steps l0 Hfuel)) as Hnd;
          destruct (loop fuel (Some num_steps) l0) as [l| |]
      end; [|discriminate|contradiction].
      match goal with
      | |- context [flush_all ?a ?b ?c ?d ?e ?f ?g ?h ?i] =>
          destruct (flush_all a b c d e f g h i) as [[o q] t]
      end.
      discriminate.
  - intros s' res out H. apply sample_unfold in H
      as (l0 & l & _ & Hix0 & _ & _ & Hloop & Hrange & Hix & _ & _ & _ & Hend).
    apply Z.eqb_neq in Hn. rewrite Hn in Hloop.
    destruct (proj2 (rollout_loop_ends fuel num_steps l0 Hfuel) l Hloop)
      as [Hb Hall].
    rewrite Hrange, Hix, Hend, <- Hix0. split; [reflexivity|]. split; [exact Hb|].
    exact Hall.
Qed.

Lemma rollout_loop_unbounded fuel l l' :
  loop fuel None l = Ret l' -> lterm l' = true.
Proof.
  revert l. induction fuel as [|fuel IH]; intros l H; simpl in H.
  - destruct (lterm l) eqn:Ht; [inversion H; subst; exact Ht|discriminate].
  - destruct (lterm l) eqn:Ht; [inversion H; subst; exact Ht|].
    destruct (lstate l) as [st|]; [|discriminate].
    destruct (env_step (lenv l) _) as [[e1 ev1] term1]. now apply IH in H.
Qed.

Lemma flush_cache_terminal e pending agent cache tr out rest tr' :
  flush_cache env_tick get_reward post_step reward_eval_delay
              e true pending agent cache tr = (out, rest, tr') ->
  rest = [] /\ length out = length cache.
Proof.
  revert tr out rest tr'.
  induction cache as [|c cache IH]; intros tr out rest tr' H; simpl in H.
  - inversion H; subst. now split.
  - match type of H with
    | context [flush_cache ?a ?b ?c ?d ?e ?f ?g ?h cache ?i] =>
        destruct (flush_cache a b c d e f g h cache i) as [[o q] t] eqn:Hrec
    end.
    inversion H; subst. apply IH in Hrec as [-> Hlen]. simpl. now rewrite Hlen.
Qed.

Lemma flush_all_terminal e pending caches tr out caches' tr' :
  flush_all env_tick get_reward post_step reward_eval_delay
            e true pending caches tr = (out, caches', tr') ->
  fst <$> caches' = fst <$> caches
  /\ Forall (fun kv => snd kv = []) caches'.
Proof.
  revert tr out caches' tr'.
  induction caches as [|[a q] caches IH]; intros tr out caches' tr' H; simpl in H.
  - inversion H; subst. split; [reflexivity|constructor].
  - destruct (flush_cache _ _ _ _ e true pending a q tr) as [[o1 q1] t1] eqn:H1.
    destruct (flush_all _ _ _ _ e true pending caches t1) as [[o2 q2] t2] eqn:H2.
    inversion H; subst. apply flush_cache_terminal in H1 as [-> _].
    apply IH in H2 as [Hk Hall]. split.
    + rewrite !fmap_cons. simpl. f_equal. exact Hk.
    + constructor; [reflexivity|exact Hall].
Qed.

(** X2. A [sample] call without step budget ([num_steps] = -1) that
    returns has run the episode to its end; and whenever a call reports
    the end of the episode, it leaves the sampler terminal, without pending
    state and with every agent's queue empty: all cached transitions have
    been flushed. *)
Theorem sample_end_of_episode_flushes_all fuel s policy_state_dict num_steps
    exploration_step s' res out :
  sample fuel s policy_state_dict num_steps exploration_step = Ret (s', res, out) ->
  (num_steps = -1 -> end_of_episode res = true)
  /\ (end_of_episode res = true ->
      terminal s' = true
      /\ state_ s' = None
      /\ Forall (fun kv => snd kv = []) (transition_cache s')).
Proof.
  intros H. pose proof (sample_flush_stage _ _ _ _ _ _ _ _ _ _ _ _ _ _ _ _ _ _ _ H)
    as ((caches & tr0 & Hfl) & _ & _ & Hend).
  apply sample_unfold in H
    as (l0 & l & Ht0 & _ & _ & _ & Hloop & _ & _ & Hterm & Hst & _ & Hend').
  split.
  - intros ->. simpl in Hloop. rewrite Hend'.
    now apply rollout_loop_unbounded in Hloop.
  - intros He. rewrite Hend in He. split; [exact He|]. split.
    + rewrite Hst. eapply rollout_loop_end; eauto; congruence.
    + rewrite He in Hfl. now apply flush_all_terminal in Hfl.
Qed.

Lemma rollout_loop_ready fuel steps_to_go l :
  (lterm l = false -> is_Some (lstate l)) ->
  (forall err, loop fuel steps_to_go l <> Raises err)
  /\ (forall l', loop fuel steps_to_go l = Ret l' ->
        lterm l' = false -> is_Some (lstate l')).
Proof.
  revert steps_to_go l. induction fuel as [|fuel IH]; intros stg l Hwf; simpl.
  - destruct (lterm l) eqn:Ht.
    + split; [discriminate|]. intros l' [= <-] Ht'. congruence.
    + destruct (match stg with Some n => n <=? 0 | None => false end).
      * split; [discriminate|]. intros l' [= <-] _. now apply Hwf.
      * split; discriminate.
  - destruct (lterm l) eqn:Ht.
    + split; [discriminate|]. intros l' [= <-] Ht'. congruence.
    + destruct (match stg with Some n => n <=? 0 | None => false end).
      * split; [discriminate|]. intros l' [= <-] _. now apply Hwf.
      * destruct (Hwf eq_refl) as [st Hst]. rewrite Hst.
        destruct (env_step (lenv l) _) as [[e1 ev1] term1].
        apply IH. simpl. intros ->. eauto.
Qed.

Lemma test_keeps_pending fuel s policy_state_dict s' tr :
  test fuel s policy_state_dict = Ret (s', tr) ->
  state_ s' = state_ s
  /\ event_of s' = event_of s
  /\ terminal s' = terminal s
  /\ transition_cache s' = transition_cache s
  /\ (is_Some (test_env s) -> learn_env s' = learn_env s /\ is_Some (test_env s'))
  /\ (test_env s = None -> test_env s' = None).
Proof.
  unfold EnvSampler.test. intros H.
  destruct (env_step _ None) as [[e1 ev] t0].
  destruct (EnvSampler.test_loop _ _ _ _ _ _ _ _ _) as [[e2 aw2]| |];
    try discriminate.
  inversion H; subst; simpl. repeat split.
  - destruct (test_env s); [reflexivity|]. destruct H0 as [? ?]. discriminate.
  - destruct (test_env s); eauto.
  - intros ->. reflexivity.
Qed.

(** X3. Whatever sequence of returning [sample] calls, and of returning
    [test] calls on a test environment of its own, a sampler has been
    through since its construction: when it is not terminal, its pending
    state and event are in place for the next step; and, if the tick of
    the simulation never goes back in a step, every agent's queue is in
    tick order with no record later than the current tick. *)
Theorem sampler_in_use_is_consistent s :
  in_use s ->
  (terminal s = false -> is_Some (state_ s) /\ is_Some (event_of s))
  /\ ((forall e a, env_tick e <= env_tick (fst (fst (env_step e a)))) ->
      queues_in_order (env_tick (learn_env s)) (transition_cache s)).
Proof.
  intros Huse.
  assert (Hready : terminal s = false -> is_Some (state_ s) /\ is_Some (event_of s)).
  { induction Huse as [ | fuel s psd n x s' res out _ IH Hs
                        | fuel s psd s' tr _ IH _ Ht].
    - discriminate.
    - apply sample_unfold in Hs
        as (l0 & l & Ht0 & _ & Hst0 & Hnew & Hloop & _ & _ & Hterm & Hst & Hev & _).
      intros Hnt. split; [|exact Hev]. rewrite Hst. rewrite Hterm in Hnt.
      refine (proj2 (rollout_loop_ready _ _ l0 _) l Hloop Hnt).
      intros _. destruct (terminal s) eqn:Hts.
      + now apply Hnew.
      + rewrite Hst0. now apply IH.
    - apply test_keeps_pending in Ht as (-> & -> & -> & _). exact IH. }
  split; [exact Hready|].
  intros Hmono. clear Hready.
  induction Huse as [ | fuel s psd n x s' res out _ IH Hs
                      | fuel s psd s' tr _ IH Hte Ht].
  - constructor.
  - exact (proj2 (sample_queues_in_order _ _ _ _ _ _ _ _ _ _ _ _ _ _ _ _ _ _ _
                    Hmono IH Hs)).
  - apply test_keeps_pending in Ht as (_ & _ & _ & -> & Henv & _).
    destruct (Henv Hte) as [-> _]. exact IH.
Qed.

(** X4. A [test] call never touches the pending state and event of the
    sampler; when the sampler has a test environment of its own, the
    learning environment is left as it was, so that sampling can go on
    where it stopped. *)
Theorem test_leaves_learning_environment fuel s policy_state_dict s' tr :
  test fuel s policy_state_dict = Ret (s', tr) ->
  state_ s' = state_ s
  /\ event_of s' = event_of s
  /\ (is_Some (test_env s) -> learn_env s' = learn_env s /\ is_Some (test_env s'))
  /\ (test_env s = None -> test_env s' = None).
Proof.
  intros H. apply test_keeps_pending in H as (H1 & H2 & _ & _ & H3 & H4).
  split; [exact H1|]. split; [exact H2|]. split; [exact H3|exact H4].
Qed.

(** *** The worker loop *)

Local Abbreviation worker :=
  (SamplerUse.worker env_reset env_step env_tick get_state get_env_actions
     get_reward post_step reward_eval_delay choose_action_of rollout_info_of
     exploration_params_of).

(** X5. The event loop of [worker] serves the messages in order up to the
    first [EXIT] and nothing after it: it sends exactly one reply for each
    [SAMPLE] and [TEST] message it serves, in the order of the requests, a
    [SAMPLE] reply echoing the episode, the segment and the version of its
    request and a [TEST] reply the episode; messages with another tag get
    no reply. It stops at the [EXIT] message, when no message is left, or
    in a request whose call does not return. *)
Theorem worker_answers_requests_in_order fuel s inbox s' replies how :
  worker fuel s inbox = (s', replies, how) ->
  exists served rest,
    inbox = served ++ rest
    /\ Forall (fun msg => q_tag msg <> RolloutManager.EXIT) served
    /\ Forall2 answers (List.filter is_work served) replies
    /\ match how with
       | Exited => exists msg rest', rest = msg :: rest'
                                     /\ q_tag msg = RolloutManager.EXIT
       | Waiting => rest = []
       | Stuck | Crashed _ => exists msg rest', rest = msg :: rest'
                                                /\ is_work msg = true
       end.
Proof.
  revert s s' replies how.
  induction inbox as [|msg inbox IH]; intros s s' replies how H; simpl in H.
  - inversion H; subst. exists [], []. repeat split; constructor.
  - destruct (RolloutManager.tag_eqb (q_tag msg) RolloutManager.EXIT) eqn:Hexit.
    { inversion H; subst. exists [], (msg :: inbox).
      apply RolloutManagerFacts.tag_eqb_eq in Hexit.
      repeat split; try constructor. eauto. }
    assert (Hne : q_tag msg <> RolloutManager.EXIT).
    { intros Heq. apply RolloutManagerFacts.tag_eqb_eq in Heq. congruence. }
    destruct (RolloutManager.tag_eqb (q_tag msg) RolloutManager.SAMPLE) eqn:Hsample.
    { destruct (sample fuel s _ _ _) as [[[s1 res] out]| |].
      - destruct (worker fuel s1 inbox) as [[s2 replies1] how1] eqn:Hw.
        inversion H; subst.
        destruct (IH _ _ _ _ Hw) as (served & rest & -> & Hall & Hans & Hhow).
        exists (msg :: served), rest. repeat split.
        + now constructor.
        + simpl. unfold is_work at 1. rewrite Hsample. simpl.
          constructor; [|exact Hans].
          apply RolloutManagerFacts.tag_eqb_eq in Hsample. now repeat split.
        + exact Hhow.
      - inversion H; subst. exists [], (msg :: inbox).
        repeat split; try constructor. exists msg, inbox.
        split; [reflexivity|]. unfold is_work. now rewrite Hsample.
      - inversion H; subst. exists [], (msg :: inbox).
        repeat split; try constructor. exists msg, inbox.
        split; [reflexivity|]. unfold is_work. now rewrite Hsample. }
    destruct (RolloutManager.tag_eqb (q_tag msg) RolloutManager.TEST) eqn:Htest.
    { destruct (test fuel s _) as [[s1 tracker]| |].
      - destruct (worker fuel s1 inbox) as [[s2 replies1] how1] eqn:Hw.
        inversion H; subst.
        destruct (IH _ _ _ _ Hw) as (served & rest & -> & Hall & Hans & Hhow).
        exists (msg :: served), rest. repeat split.
        + now constructor.
        + simpl. unfold is_work at 1. rewrite Hsample, Htest. simpl.
          constructor; [|exact Hans].
          apply RolloutManagerFacts.tag_eqb_eq in Htest. now split.
        + exact Hhow.
      - inversion H; subst. exists [], (msg :: inbox).
        repeat split; try constructor. exists msg, inbox.
        split; [reflexivity|]. unfold is_work. rewrite Htest. apply orb_true_r.
      - inversion H; subst. exists [], (msg :: inbox).
        repeat split; try constructor. exists msg, inbox.
        split; [reflexivity|]. unfold is_work. rewrite Htest. apply orb_true_r. }
    destruct (IH _ _ _ _ H) as (served & rest & -> & Hall & Hans & Hhow).
    exists (msg :: served), rest. repeat split.
    + now constructor.
    + simpl. unfold is_work at 1. rewrite Hsample, Htest. exact Hans.
    + exact Hhow.
Qed.

(** *** The actor loop *)

Variable server :
  list (ActorMsg Info) -> option (PolicyStateDict PolicyState) * Z.

Local Abbreviation actor :=
  (SamplerUse.actor env_reset env_step env_tick get_state get_env_actions
     get_reward post_step reward_eval_delay choose_action_of rollout_info_of
     exploration_params_of server).
Local Abbreviation actor_episode :=
  (SamplerUse.actor_episode env_reset env_step env_tick get_state get_env_actions
     get_reward post_step reward_eval_delay choose_action_of rollout_info_of
     exploration_params_of server).
Local Abbreviation actor_episodes :=
  (SamplerUse.actor_episodes env_reset env_step env_tick get_state get_env_actions
     get_reward post_step reward_eval_delay choose_action_of rollout_info_of
     exploration_params_of server).

Implicit Types (calls_made : list (AWCall AgentState Action Reward PolicyState)).
Implicit Types (sent : list (ActorMsg Info)).

Lemma exploration_steps_app calls_made more :
  exploration_steps (calls_made ++ more)
  = (exploration_steps calls_made + exploration_steps more)%nat.
Proof. unfold exploration_steps. now rewrite List.filter_app, length_app. Qed.

Lemma rollout_loop_calls fuel steps_to_go l l' :
  loop fuel steps_to_go l = Ret l' ->
  exploration_steps (law l') = exploration_steps (law l).
Proof.
  revert steps_to_go l. induction fuel as [|fuel IH]; intros stg l H; simpl in H.
  - destruct (lterm l); [now inversion H|].
    destruct (match stg with Some n => n <=? 0 | None => false end);
      [now inversion H|discriminate].
  - destruct (lterm l); [now inversion H|].
    destruct (match stg with Some n => n <=? 0 | None => false end);
      [now inversion H|].
    destruct (lstate l) as [st|]; [|discriminate].
    destruct (env_step (lenv l) _) as [[e1 ev1] term1].
    apply IH in H. rewrite H. simpl. rewrite exploration_steps_app.
    unfold exploration_steps. simpl. lia.
Qed.

(** A [sample] call advances the exploration schedule once when it is told
    to, and not otherwise. *)
Lemma sample_exploration_steps fuel s policy_state_dict num_steps exploration_step
    s' res out :
  sample fuel s policy_state_dict num_steps exploration_step = Ret (s', res, out) ->
  exploration_steps (agent_wrapper s')
  = (exploration_steps (agent_wrapper s) + (if exploration_step then 1 else 0))%nat.
Proof.
  assert (Hpro : exploration_steps
                   (sample_prologue _ _ _ _ (agent_wrapper s) policy_state_dict
                                    exploration_step)
                 = (exploration_steps (agent_wrapper s)
                    + (if exploration_step then 1 else 0))%nat).
  { unfold sample_prologue. rewrite !exploration_steps_app.
    unfold exploration_steps.
    destruct policy_state_dict as [[|kv d]|], exploration_step; simpl; lia. }
  assert (Hrec : forall (o : list (Flushed AgentState Action EnvActions Reward)),
            exploration_steps
              (map (fun f => RecordTransition (PolicyState := PolicyState) (recorded f)) o)
            = 0%nat).
  { induction o as [|f o IHo]; [reflexivity|exact IHo]. }
  unfold EnvSampler.sample. intros H.
  destruct (terminal s).
  - destruct (env_step (env_reset (learn_env s)) None) as [[e1 ev] t0].
    match type of H with
    | context [EnvSampler.rollout_loop _ _ _ _ _ ?fu ?st ?l0] =>
        destruct (loop fu st l0) as [l| |] eqn:Hloop; try discriminate
    end.
    match type of H with
    | context [flush_all ?a ?b ?c ?d ?e ?f ?g ?h ?i] =>
        destruct (flush_all a b c d e f g h i) as [[o q] t]
    end.
    inversion H; subst; simpl. apply rollout_loop_calls in Hloop.
    rewrite exploration_steps_app, Hrec, Hloop. simpl. rewrite Hpro. lia.
  - destruct (event_of s) as [ev|]; [|discriminate].
    match type of H with
    | context [EnvSampler.rollout_loop _ _ _ _ _ ?fu ?st ?l0] =>
        destruct (loop fu st l0) as [l| |] eqn:Hloop; try discriminate
    end.
    match type of H with
    | context [flush_all ?a ?b ?c ?d ?e ?f ?g ?h ?i] =>
        destruct (flush_all a b c d e f g h i) as [[o q] t]
    end.
    inversion H; subst; simpl. apply rollout_loop_calls in Hloop.
    rewrite exploration_steps_app, Hrec, Hloop. simpl. rewrite Hpro. lia.
Qed.

Local Abbreviation versions_follow := (SamplerUse.versions_follow server).

Lemma versions_follow_snoc sent info :
  versions_follow sent ->
  versions_follow (sent ++ [SampleDoneMsg info (snd (server sent))]).
Proof.
  intros Hs k info' v Hk.
  destruct (decide (k < length sent)%nat) as [Hlt|Hge].
  - rewrite lookup_app_l in Hk by exact Hlt.
    rewrite take_app_le by lia. now apply (Hs k info').
  - rewrite lookup_app_r in Hk by lia.
    destruct (k - length sent)%nat as [|j] eqn:Hj; [|destruct j; discriminate].
    simpl in Hk. inversion Hk; subst.
    assert (k = length sent) as -> by lia.
    rewrite take_app_length. reflexivity.
Qed.

Lemma actor_episode_spec calls fuel num_steps s sent policy_state_dict
    policy_version exploration_step s' sent' policy_state_dict' policy_version' :
  actor_episode calls fuel num_steps s sent policy_state_dict policy_version
                exploration_step
  = Ret (s', sent', policy_state_dict', policy_version') ->
  versions_follow sent -> policy_version = snd (server sent) ->
  versions_follow sent'
  /\ policy_version' = snd (server sent')
  /\ (exists reports, sent' = sent ++ reports /\ reports <> []
        /\ Forall (fun m => exists info v, m = SampleDoneMsg info v) reports)
  /\ terminal s' = true
  /\ exploration_steps (agent_wrapper s')
     = (exploration_steps (agent_wrapper s) + (if exploration_step then 1 else 0))%nat.
Proof.
  revert s sent policy_state_dict policy_version exploration_step.
  induction calls as [|calls IH]; intros s sent psd pv x H Hv Hpv; simpl in H.
  - discriminate.
  - destruct (sample fuel s psd num_steps x) as [[[s1 res] out]| |] eqn:Hs;
      try discriminate.
    pose proof (sample_exploration_steps _ _ _ _ _ _ _ _ Hs) as Hx.
    pose proof (sample_flush_stage _ _ _ _ _ _ _ _ _ _ _ _ _ _ _ _ _ _ _ Hs)
      as (_ & _ & _ & Hend).
    destruct (server (sent ++ [SampleDoneMsg (rollout_info TVal Info Params res) pv]))
      as [psd1 pv1] eqn:Hserver.
    assert (Hv1 : versions_follow
                    (sent ++ [SampleDoneMsg (rollout_info TVal Info Params res) pv])).
    { rewrite Hpv. now apply versions_follow_snoc. }
    destruct (end_of_episode res) eqn:He.
    + inversion H; subst. split; [exact Hv1|]. split; [now rewrite Hserver|].
      split; [|split; [congruence|exact Hx]].
      eexists. split; [reflexivity|]. split; [discriminate|].
      repeat constructor. eauto.
    + apply IH in H as (Hv' & Hpv' & (reports & -> & _ & Hall) & Ht & Hx');
        [|exact Hv1|now rewrite Hserver].
      split; [exact Hv'|]. split; [exact Hpv'|].
      split; [|split; [exact Ht|rewrite Hx', Hx; lia]].
      eexists. split; [now rewrite <- app_assoc|]. split; [discriminate|].
      constructor; [eauto|exact Hall].
Qed.

Lemma actor_episodes_spec episodes calls fuel num_steps s sent policy_state_dict
    policy_version s' sent' :
  actor_episodes episodes calls fuel num_steps s sent policy_state_dict policy_version
  = Ret (s', sent') ->
  versions_follow sent -> policy_version = snd (server sent) ->
  versions_follow sent'
  /\ (exists reports, sent' = sent ++ reports /\ (episodes <= length reports)%nat
        /\ Forall (fun m => exists info v, m = SampleDoneMsg info v) reports)
  /\ (episodes <> 0%nat -> terminal s' = true)
  /\ exploration_steps (agent_wrapper s')
     = (exploration_steps (agent_wrapper s) + episodes)%nat.
Proof.
  revert s sent policy_state_dict policy_version.
  induction episodes as [|episodes IH]; intros s sent psd pv H Hv Hpv; simpl in H.
  - inversion H; subst. split; [exact Hv|]. split; [|split; [congruence|lia]].
    exists []. rewrite app_nil_r. repeat split; [simpl; lia|constructor].
  - destruct (actor_episode calls fuel num_steps s sent psd pv true)
      as [[[[s1 sent1] psd1] pv1]| |] eqn:He; try discriminate.
    apply actor_episode_spec in He
      as (Hv1 & Hpv1 & (reports1 & -> & Hne & Hall1) & Ht1 & Hx1); [|exact Hv|exact Hpv].
    destruct episodes as [|episodes'].
    + simpl in H. inversion H; subst. split; [exact Hv1|].
      split; [|split; [intros _; exact Ht1|rewrite Hx1; lia]].
      exists reports1. repeat split; [|exact Hall1].
      destruct reports1; [congruence|simpl; lia].
    + apply IH in H as (Hv' & (reports & -> & Hlen & Hall) & Ht & Hx');
        [|exact Hv1|exact Hpv1].
      split; [exact Hv'|].
      split; [|split; [intros _; apply Ht; discriminate|rewrite Hx', Hx1; lia]].
      exists (reports1 ++ reports). rewrite app_assoc. repeat split.
      * rewrite length_app. destruct reports1; [congruence|simpl in *; lia].
      * apply Forall_app. now split.
Qed.

(** X6. [actor] refuses a step budget of 0 or below -1 before it sends
    anything. When it returns, it has sent the request for the initial
    policy states, then one report for each [sample] call (at least one for
    each episode), then the end notice; every report carries the version
    that came with the policy states its [sample] call used; the
    exploration schedule has been advanced exactly once for each episode;
    and the sampler is left at the end of an episode. *)
Theorem actor_reports_and_explores_once_per_episode calls fuel s num_episodes
    num_steps :
  ((num_steps = 0 \/ num_steps < -1) ->
   actor calls fuel s num_episodes num_steps
   = Raises "ValueError: num_steps must be a positive integer or -1")
  /\ (forall s' sent,
        actor calls fuel s num_episodes num_steps = Ret (s', sent) ->
        (num_steps = -1 \/ 0 < num_steps)
        /\ (exists reports,
              sent = GetInitialPolicyState :: reports ++ [ActorDone]
              /\ (Z.to_nat num_episodes <= length reports)%nat
              /\ Forall (fun m => exists info v, m = SampleDoneMsg info v) reports)
        /\ (forall (k : nat) info v,
              sent !! k = Some (SampleDoneMsg info v) ->
              v = snd (server (take k sent)))
        /\ exploration_steps (agent_wrapper s')
           = (exploration_steps (agent_wrapper s) + Z.to_nat num_episodes)%nat
        /\ (0 < num_episodes -> terminal s' = true)).
Proof.
  unfold SamplerUse.actor. split.
  - intros Hbad.
    assert (Hb : (num_steps =? 0) || (num_steps <? -1) = true).
    { apply orb_true_iff. destruct Hbad as [->|Hlt]; [now left|right].
      now apply Z.ltb_lt. }
    now rewrite Hb.
  - intros s' sent H.
    destruct ((num_steps =? 0) || (num_steps <? -1)) eqn:Hb; [discriminate|].
    apply orb_false_elim in Hb as [H0 H1].
    apply Z.eqb_neq in H0. apply Z.ltb_ge in H1.
    destruct (server [GetInitialPolicyState]) as [psd pv] eqn:Hserver.
    destruct (actor_episodes _ calls fuel num_steps s _ psd pv)
      as [[s1 sent1]| |] eqn:He; try discriminate.
    inversion H; subst. clear H.
    apply actor_episodes_spec in He as (Hv & (reports & -> & Hlen & Hall) & Ht & Hx).
    + change ([GetInitialPolicyState] ++ reports)
        with (GetInitialPolicyState (Info := Info) :: reports) in *.
      split; [lia|]. split; [|split; [|split; [exact Hx|]]].
      * exists reports. now repeat split.
      * intros k info v Hk.
        destruct (decide (k < length (GetInitialPolicyState :: reports))%nat)
          as [Hlt|Hge].
        -- rewrite lookup_app_l in Hk by exact Hlt.
           rewrite take_app_le by lia. exact (Hv k info v Hk).
        -- rewrite lookup_app_r in Hk by lia.
           destruct (k - length (GetInitialPolicyState :: reports))%nat as [|j];
             [discriminate|destruct j; discriminate].
      * intros Hpos. apply Ht. lia.
    + intros [|[|k]] info v Hk; discriminate.
    + now rewrite Hserver.
Qed.

End Budget.

End SamplerProps.

(** ** More on the managers: what [collect] and [evaluate] return *)

Module ManagerProps.
Import RolloutManager RolloutManagerFacts ManagerUse.

Section Buffers.

Context {Info TVal : Type}.

Implicit Types (self : Distributed) (msg : WorkerMsg Info TVal).
Implicit Types (b : Buffers Info TVal) (inbox : list (Delivery Info TVal)).
Implicit Types (log : list (Recv Info TVal)) (acc : Collected Info TVal).

Lemma dd_get_dd_append {V : Type} (d : list (string * list V)) (k k' : string) (v : V) :
  dd_get (dd_append d k v) k'
  = dd_get d k' ++ (if String.eqb k k' then [v] else []).
Proof.
  induction d as [|[k0 vs] d IH]; simpl.
  - destruct (String.eqb k k'); reflexivity.
  - destruct (String.eqb k0 k) eqn:H0; simpl.
    + apply String.eqb_eq in H0. subst k0.
      destruct (String.eqb k k'); [reflexivity|now rewrite app_nil_r].
    + destruct (String.eqb k0 k') eqn:H1; [|exact IH].
      apply String.eqb_eq in H1. subst k0. rewrite String.eqb_sym, H0.
      now rewrite app_nil_r.
Qed.

Lemma add_result_get acc (rollout_info : RolloutInfo Info) (tracker : Tracker TVal)
    (policy : string) :
  dd_get (info_by_policy (add_result acc rollout_info tracker)) policy
  = dd_get (info_by_policy acc) policy ++ items_under rollout_info policy.
Proof.
  unfold add_result, items_under. simpl.
  generalize (info_by_policy acc) as d.
  induction rollout_info as [|[k v] info IH]; intros d; simpl.
  - now rewrite app_nil_r.
  - rewrite IH, dd_get_dd_append.
    destruct (String.eqb k policy); simpl; now rewrite <- app_assoc.
Qed.

(** X11. Adding a worker's result to the buffers of a [collect] call
    appends, under every policy name, the experience that the result holds
    under that name, and nothing under the other names; it keeps what was
    there, in order, and puts the tracker at the end of the trackers. *)
Theorem add_result_appends_per_policy acc (rollout_info : RolloutInfo Info)
    (tracker : Tracker TVal) :
  (forall policy,
      dd_get (info_by_policy (add_result acc rollout_info tracker)) policy
      = dd_get (info_by_policy acc) policy ++ items_under rollout_info policy)
  /\ (forall policy,
        (forall info, (policy, info) ∉ rollout_info) ->
        dd_get (info_by_policy (add_result acc rollout_info tracker)) policy
        = dd_get (info_by_policy acc) policy)
  /\ trackers (add_result acc rollout_info tracker) = trackers acc ++ [tracker].
Proof.
  split; [|split].
  - intros policy. apply add_result_get.
  - intros policy Hno. rewrite add_result_get.
    assert (Hnil : items_under rollout_info policy = []).
    { unfold items_under. induction rollout_info as [|[k v] info IH]; [reflexivity|].
      simpl. destruct (String.eqb k policy) eqn:Hk.
      - apply String.eqb_eq in Hk. subst k. exfalso. apply (Hno v). constructor.
      - apply IH. intros i Hi. apply (Hno i). now constructor. }
    rewrite Hnil. now rewrite app_nil_r.
  - reflexivity.
Qed.

Lemma gathered_config self self' ep segment version log acc :
  config self' = config self ->
  gathered self' ep segment version log acc = gathered self ep segment version log acc.
Proof.
  intros Hc. revert acc. unfold gathered.
  induction log as [|r log IH]; intros acc; simpl; [reflexivity|].
  rewrite IH. destruct (recv_msg r); [|reflexivity].
  now rewrite (counted_config self self').
Qed.

Lemma gathered_app self ep segment version log1 log2 acc :
  gathered self ep segment version (log1 ++ log2) acc
  = gathered self ep segment version log2 (gathered self ep segment version log1 acc).
Proof. unfold gathered. apply fold_left_app. Qed.

Lemma quorum_loop_gathers self b ep segment version inbox self' b' rest :
  quorum_loop self b ep segment version inbox = Ret (self', b', rest) ->
  exists new,
    b_log b' = b_log b ++ new
    /\ b_collected b' = gathered self ep segment version new (b_collected b).
Proof.
  revert self b.
  induction inbox as [|[msg|] inbox IH]; intros self b H; simpl in H.
  - discriminate.
  - destruct (absorb self b (RecvBlocking msg) msg ep segment version)
      as [self1 b1] eqn:Habs.
    apply absorb_spec in Habs as (Hc & _ & _ & Hl & _ & Hcol).
    destruct (b_num_finishes b1 =? d_min_finished_workers self).
    + inversion H; subst. exists [RecvBlocking msg]. split; [exact Hl|].
      rewrite Hcol. reflexivity.
    + apply IH in H as (new & Hl' & Hcol').
      exists (RecvBlocking msg :: new). split.
      * rewrite Hl', Hl. now rewrite <- app_assoc.
      * rewrite Hcol', Hcol. rewrite (gathered_config self self1) by exact Hc.
        reflexivity.
  - now apply IH.
Qed.

Lemma extra_loop_gathers tries self b ep segment version inbox self' b' rest :
  extra_loop tries self b ep segment version inbox = (self', b', rest) ->
  exists new,
    b_log b' = b_log b ++ new
    /\ b_collected b' = gathered self ep segment version new (b_collected b).
Proof.
  revert self b inbox.
  induction tries as [|tries IH]; intros self b inbox H; simpl in H.
  - inversion H; subst. exists []. now rewrite app_nil_r.
  - destruct (receive_timeout inbox) as [[msg|] rest0].
    + destruct (absorb self b (RecvTimed (d_extra_recv_timeout self) (Some msg))
                       msg ep segment version) as [self1 b1] eqn:Habs.
      apply absorb_spec in Habs as (Hc & _ & _ & Hl & _ & Hcol).
      destruct (b_num_finishes b1 =? d_num_workers self).
      * inversion H; subst. eexists. split; [exact Hl|]. rewrite Hcol. reflexivity.
      * apply IH in H as (new & Hl' & Hcol').
        exists (RecvTimed (d_extra_recv_timeout self) (Some msg) :: new). split.
        -- rewrite Hl', Hl. now rewrite <- app_assoc.
        -- rewrite Hcol', Hcol. rewrite (gathered_config self self1) by exact Hc.
           reflexivity.
    + apply IH in H as (new & Hl' & Hcol'). simpl in *.
      exists (RecvTimed (d_extra_recv_timeout self) None :: new). split.
      * rewrite Hl'. now rewrite <- app_assoc.
      * exact Hcol'.
Qed.

Lemma collect_gathers self ep segment version inbox self' report :
  distributed_collect self ep segment version inbox = Ret (self', report) ->
  collected report
  = gathered self ep segment version (quorum_recvs report ++ extra_recvs report)
             no_results.
Proof.
  unfold distributed_collect. intros H.
  set (self0 := set_flags self false (d_episode_complete self)) in *.
  assert (Hc0 : config self0 = config self) by reflexivity.
  destruct (quorum_loop self0 _ ep segment version inbox)
    as [[[self1 b1] rest1]| |] eqn:Hq; try discriminate.
  pose proof (quorum_loop_ret _ _ _ _ _ _ _ _ _ Hq) as (_ & _ & _ & _ & _ & Hc1 & _).
  apply quorum_loop_gathers in Hq as (new1 & Hl1 & Hcol1).
  match type of H with
  | context [extra_loop ?t ?s ?b _ _ _ ?i] =>
      destruct (extra_loop t s b ep segment version i)
        as [[self2 b2] rest2] eqn:Hex
  end.
  apply extra_loop_gathers in Hex as (new2 & Hl2 & Hcol2).
  simpl in *. inversion H; subst; simpl. clear H.
  rewrite gathered_app, Hcol2, Hcol1.
  rewrite (gathered_config self0 self1) by exact Hc1.
  now rewrite !(gathered_config self self0) by exact Hc0.
Qed.

Lemma gathered_trackers self ep segment version log acc :
  trackers (gathered self ep segment version log acc)
  = trackers acc
    ++ (m_tracker <$> List.filter (counted self ep segment version)
                                  (omap recv_msg log)).
Proof.
  revert acc. unfold gathered.
  induction log as [|r log IH]; intros acc; simpl; [now rewrite app_nil_r|].
  rewrite IH. destruct (recv_msg r) as [msg|]; simpl; [|reflexivity].
  destruct (counted self ep segment version msg); simpl; [|reflexivity].
  now rewrite <- app_assoc.
Qed.

Lemma gathered_infos self ep segment version log acc policy :
  dd_get (info_by_policy (gathered self ep segment version log acc)) policy
  = dd_get (info_by_policy acc) policy
    ++ concat ((fun msg => items_under (m_rollout_info msg) policy)
               <$> List.filter (counted self ep segment version) (omap recv_msg log)).
Proof.
  revert acc. unfold gathered.
  induction log as [|r log IH]; intros acc; cbn -[add_result];
    [now rewrite app_nil_r|].
  rewrite IH. destruct (recv_msg r) as [msg|]; cbn -[add_result]; [|reflexivity].
  destruct (counted self ep segment version msg); cbn -[add_result]; [|reflexivity].
  rewrite add_result_get. now rewrite <- app_assoc.
Qed.

Lemma tally_filter {A} (f : A -> bool) (l : list A) :
  tally f l = Z.of_nat (length (List.filter f l)).
Proof.
  induction l as [|x l IH]; simpl; [reflexivity|].
  rewrite IH. destruct (f x); simpl; lia.
Qed.

Lemma tally_counted_recv self ep segment version log :
  tally (counted_recv self ep segment version) log
  = Z.of_nat (length (List.filter (counted self ep segment version)
                                  (omap recv_msg log))).
Proof.
  induction log as [|r log IH]; [reflexivity|].
  simpl. rewrite IH. unfold counted_recv.
  destruct (recv_msg r) as [msg|]; simpl;
    [destruct (counted self ep segment version msg); simpl|];
    change (list_omap _ _ recv_msg log) with (omap recv_msg log); lia.
Qed.

(** X7. What the remote [collect] returns is made of the counted replies
    and of nothing else: the trackers are those of the counted replies, in
    the order in which they were received, one for each finish counted;
    and under every policy name the returned list holds the experience
    that the counted replies hold under that name, in the same order. *)
Theorem collect_returns_counted_replies self ep segment version inbox self' report :
  distributed_collect self ep segment version inbox = Ret (self', report) ->
  trackers (collected report)
  = (m_tracker <$> List.filter (counted self ep segment version)
                     (omap recv_msg (quorum_recvs report ++ extra_recvs report)))
  /\ Z.of_nat (length (trackers (collected report))) = num_finishes report
  /\ (forall policy,
        dd_get (info_by_policy (collected report)) policy
        = concat ((fun msg => items_under (m_rollout_info msg) policy)
                  <$> List.filter (counted self ep segment version)
                        (omap recv_msg (quorum_recvs report ++ extra_recvs report)))).
Proof.
  intros H. pose proof (collect_gathers _ _ _ _ _ _ _ H) as Hg.
  apply collect_ret in H
    as (self2 & rest1 & _ & _ & _ & _ & _ & Hqf & _ & _
        & new & -> & _ & _ & Hn & _).
  rewrite Hg, gathered_trackers. simpl. split; [reflexivity|]. split.
  - rewrite length_fmap, omap_app, List.filter_app, length_app.
    rewrite Hn, Hqf. rewrite Nat2Z.inj_add.
    now rewrite !tally_counted_recv.
  - intros policy. now rewrite gathered_infos.
Qed.

Lemma tally_length {A} (f : A -> bool) (l : list A) :
  0 <= tally f l <= Z.of_nat (length l).
Proof.
  induction l as [|x l IH]; simpl; [lia|]. destruct (f x); lia.
Qed.

(** X8. A remote manager built without [max_extra_recv_tries] never
    counts more results in a [collect] call than the larger of its quorum
    and its number of workers: the quorum is the given one, or the number
    of workers, the second loop makes at most the difference of the two in
    receives, and the trackers handed on are as many as the finishes. Built
    without [min_finished_workers] either, it makes no timed receive and
    counts exactly one result for each worker. *)
Theorem default_extra_tries_stay_within_workers num_workers num_steps min_finished
    timeout max_lag num_eval_workers self ep segment version inbox self' report :
  distributed_init num_workers num_steps min_finished None timeout max_lag
                   num_eval_workers = Ret self ->
  distributed_collect self ep segment version inbox = Ret (self', report) ->
  quorum_finishes report = default num_workers min_finished
  /\ (length (extra_recvs report)
      <= Z.to_nat (num_workers - default num_workers min_finished))%nat
  /\ default num_workers min_finished <= num_finishes report
     <= Z.max (default num_workers min_finished) num_workers
  /\ Z.of_nat (length (trackers (collected report))) = num_finishes report
  /\ (min_finished = None ->
      extra_recvs report = [] /\ num_finishes report = num_workers).
Proof.
  intros Hinit H.
  assert (Hmin : d_min_finished_workers self = default num_workers min_finished
                 /\ d_max_extra_recv_tries self
                    = num_workers - default num_workers min_finished).
  { unfold distributed_init in Hinit.
    destruct (num_workers <? num_eval_workers); [discriminate|].
    inversion Hinit; subst; simpl. destruct min_finished; now split. }
  destruct Hmin as [Hmin Hextra].
  pose proof (collect_gathers _ _ _ _ _ _ _ H) as Hg.
  apply collect_ret in H
    as (self2 & rest1 & _ & _ & _ & _ & _ & Hqt & Hqf & _
        & new & -> & Hlen & _ & Hn & _).
  rewrite Hextra in Hlen. rewrite Hmin in Hqf.
  pose proof (tally_length (counted_recv self ep segment version)
                           (extra_recvs report)) as Ht.
  assert (Hcount : Z.of_nat (length (trackers (collected report)))
                   = num_finishes report).
  { rewrite Hg, gathered_trackers. simpl.
    rewrite length_fmap, omap_app, List.filter_app, length_app, Nat2Z.inj_add.
    now rewrite Hn, Hqt, !tally_counted_recv. }
  split; [exact Hqf|]. split; [exact Hlen|]. split; [lia|].
  split; [exact Hcount|].
  intros ->. simpl in *. rewrite Z.sub_diag in Hlen.
  destruct (extra_recvs report) as [|r new] eqn:He; simpl in *; [|lia].
  split; [reflexivity|]. simpl in Hn. lia.
Qed.

Lemma simple_recv_all_seq (k n : nat) (results : list (WorkerResult Info TVal))
    acc complete :
  (k + n <= length results)%nat ->
  Forall (fun r => is_Some (r_episode_end r)) (take n (drop k results)) ->
  exists acc' complete',
    simple_recv_all (seq k n) results acc complete = Ret (acc', complete').
Proof.
  revert k acc complete.
  induction n as [|n IH]; intros k acc complete Hlen Hkeys; simpl; [eauto|].
  destruct (lookup_lt_is_Some_2 results k) as [r Hr]; [lia|].
  rewrite Hr. rewrite (drop_S _ _ _ Hr) in Hkeys. simpl in Hkeys.
  inversion Hkeys as [|? ? [ended He] Hrest]; subst. rewrite He.
  apply IH; [lia|exact Hrest].
Qed.

Lemma simple_recv_all_ret (k n : nat) (results : list (WorkerResult Info TVal))
    acc complete acc' complete' :
  simple_recv_all (seq k n) results acc complete = Ret (acc', complete') ->
  length (take n (drop k results)) = n
  /\ Forall (fun r => is_Some (r_episode_end r)) (take n (drop k results))
  /\ trackers acc' = trackers acc ++ (r_tracker <$> take n (drop k results))
  /\ (forall policy,
        dd_get (info_by_policy acc') policy
        = dd_get (info_by_policy acc) policy
          ++ concat ((fun r => items_under (r_rollout_info r) policy)
                     <$> take n (drop k results))).
Proof.
  revert k acc complete.
  induction n as [|n IH]; intros k acc complete H; simpl in H.
  - inversion H; subst. simpl. split; [reflexivity|]. split; [constructor|].
    split; [|intros policy]; now rewrite app_nil_r.
  - destruct (results !! k) as [r|] eqn:Hr; [|discriminate].
    destruct (r_episode_end r) as [ended|] eqn:He; [|discriminate].
    apply IH in H as (Hlen & Hkeys & Htr & Hinfo).
    rewrite (drop_S _ _ _ Hr). simpl.
    split; [now rewrite Hlen|]. split; [constructor; [rewrite He; eauto|exact Hkeys]|].
    split.
    + rewrite Htr. simpl. now rewrite <- app_assoc.
    + intros policy. rewrite Hinfo, add_result_get. now rewrite <- app_assoc.
Qed.

Lemma simple_recv_all_key_error (k n : nat) (results : list (WorkerResult Info TVal))
    acc complete :
  Forall (fun r => r_episode_end r = None) results ->
  simple_recv_all (seq k (S n)) results acc complete
  = match results !! k with
    | Some _ => Raises "KeyError: 'episode_end'"
    | None => Diverges
    end.
Proof.
  intros Hno. simpl. destruct (results !! k) as [r|] eqn:Hr; [|reflexivity].
  rewrite Forall_forall in Hno.
  rewrite (Hno r) by (eapply list_elem_of_lookup_2; exact Hr). reflexivity.
Qed.

(** X9. What a [collect] call of the local manager needs of the results.
    In process it returns whatever the sampler returns: the sampler's
    tracker and experience, the flag read under [end_of_episode]. On a pool
    it returns only if every worker answers with a result that has the key
    [episode_end], and then with the trackers and the experience of these
    results in pool order; with results as [sample] returns them, which
    have no such key, a pool [collect] never returns: it raises [KeyError]
    as soon as the first worker has answered. *)
Theorem pool_collect_needs_episode_end (self : Simple)
    (results : list (WorkerResult Info TVal)) :
  (s_parallelism self = 1 ->
   forall r, results !! 0%nat = Some r ->
     exists (self' : Simple) acc,
       simple_collect self results = Ret (self', s_exploration_step self, acc)
       /\ trackers acc = [r_tracker r]
       /\ (forall policy,
             dd_get (info_by_policy acc) policy
             = items_under (r_rollout_info r) policy)
       /\ s_episode_complete self' = r_end_of_episode r)
  /\ (s_parallelism self <> 1 ->
      forall (self' : Simple) sent acc,
        simple_collect self results = Ret (self', sent, acc) ->
        sent = s_exploration_step self
        /\ length (take (Z.to_nat (s_parallelism self)) results)
           = Z.to_nat (s_parallelism self)
        /\ Forall (fun r => is_Some (r_episode_end r))
                  (take (Z.to_nat (s_parallelism self)) results)
        /\ trackers acc
           = (r_tracker <$> take (Z.to_nat (s_parallelism self)) results)
        /\ (forall policy,
              dd_get (info_by_policy acc) policy
              = concat ((fun r => items_under (r_rollout_info r) policy)
                        <$> take (Z.to_nat (s_parallelism self)) results)))
  /\ (s_parallelism self <> 1 ->
      (Z.to_nat (s_parallelism self) <= length results)%nat ->
      Forall (fun r => is_Some (r_episode_end r))
             (take (Z.to_nat (s_parallelism self)) results) ->
      exists r, simple_collect self results = Ret r)
  /\ (1 < s_parallelism self ->
      Forall (fun r => r_episode_end r = None) results ->
      simple_collect self results
      = match results !! 0%nat with
        | Some _ => Raises "KeyError: 'episode_end'"
        | None => Diverges
        end).
Proof.
  unfold simple_collect. split; [|split; [|split]].
  - intros Hp r Hr. rewrite Hp, Hr. simpl.
    eexists _, _. split; [reflexivity|]. split; [reflexivity|].
    split; [|reflexivity].
    intros policy. now rewrite add_result_get.
  - intros Hp self' sent acc H. apply Z.eqb_neq in Hp. rewrite Hp in H.
    destruct (simple_recv_all _ _ _ _) as [[acc1 complete]| |] eqn:Hr;
      try discriminate.
    inversion H; subst.
    apply simple_recv_all_ret in Hr as (Hlen & Hkeys & Htr & Hinfo).
    rewrite drop_0 in *. split; [reflexivity|]. split; [exact Hlen|].
    split; [exact Hkeys|]. split; [exact Htr|].
    intros policy. now rewrite Hinfo.
  - intros Hp Hlen Hkeys. apply Z.eqb_neq in Hp. rewrite Hp.
    destruct (simple_recv_all_seq 0 (Z.to_nat (s_parallelism self)) results
                no_results (s_episode_complete self))
      as (acc' & complete' & ->); [lia|now rewrite drop_0|].
    eauto.
  - intros Hp Hno.
    assert (Hne : (s_parallelism self =? 1) = false) by (apply Z.eqb_neq; lia).
    rewrite Hne.
    destruct (Z.to_nat (s_parallelism self)) as [|n] eqn:Hn; [lia|].
    rewrite simple_recv_all_key_error by exact Hno.
    destruct (results !! 0%nat); reflexivity.
Qed.

Lemma receive_arrivals inbox msg rest :
  receive inbox = Some (msg, rest) -> arrivals inbox = msg :: arrivals rest.
Proof.
  induction inbox as [|[m|] inbox IH]; simpl; intros H.
  - discriminate.
  - now inversion H; subst.
  - now apply IH.
Qed.

Lemma eval_loop_tests iterations self ep inbox finishes (got got' : list (Tracker TVal))
    finishes' rest :
  eval_loop iterations self ep inbox finishes got = Ret (got', finishes', rest) ->
  exists read,
    arrivals inbox = read ++ arrivals rest
    /\ (length read <= iterations)%nat
    /\ got' = got ++ (m_tracker <$> List.filter (is_test_reply ep) read)
    /\ finishes'
       = finishes + Z.of_nat (length (List.filter (is_test_reply ep) read))
    /\ (length read = iterations
        \/ finishes' = d_num_eval_workers self
           /\ exists msg, last read = Some msg /\ is_test_reply ep msg = true).
Proof.
  revert inbox finishes got.
  induction iterations as [|n IH]; intros inbox finishes got H; simpl in H.
  - inversion H; subst. exists []. simpl. rewrite app_nil_r.
    split; [reflexivity|]. split; [lia|]. split; [reflexivity|].
    split; [lia|now left].
  - destruct (receive inbox) as [[result inbox1]|] eqn:Hrecv; [|discriminate].
    apply receive_arrivals in Hrecv.
    assert (Hskip : forall read,
               is_test_reply ep result = false ->
               List.filter (is_test_reply ep) (result :: read)
               = List.filter (is_test_reply ep) read).
    { intros read Hno. simpl. now rewrite Hno. }
    assert (Hkeep : forall read,
               is_test_reply ep result = true ->
               List.filter (is_test_reply ep) (result :: read)
               = result :: List.filter (is_test_reply ep) read).
    { intros read Hyes. simpl. now rewrite Hyes. }
    assert (Hlast : forall read msg,
               last read = Some msg -> last (result :: read) = Some msg).
    { intros [|x read] msg Hl; [discriminate|]. now rewrite last_cons_cons. }
    assert (Htest : is_test_reply ep result
                    = tag_eqb (m_type result) TEST_DONE && (m_episode result =? ep))
      by reflexivity.
    destruct (tag_eqb (m_type result) TEST_DONE) eqn:Htag;
      destruct (m_episode result =? ep) eqn:Hep; simpl in H.
    + destruct (finishes + 1 =? d_num_eval_workers self) eqn:Hdone.
      * inversion H; subst. exists [result]. rewrite Hrecv.
        rewrite Hkeep by exact Htest. simpl.
        split; [reflexivity|]. split; [lia|]. split; [reflexivity|].
        split; [lia|]. right.
        apply Z.eqb_eq in Hdone. split; [exact Hdone|].
        exists result. split; [reflexivity|].
        exact Htest.
      * apply IH in H as (read & Ha & Hl & -> & -> & Hend).
        exists (result :: read). rewrite Hrecv, Ha.
        rewrite Hkeep by exact Htest. simpl.
        split; [reflexivity|]. split; [lia|].
        split; [now rewrite <- app_assoc|].
        split; [rewrite ?Zpos_P_of_succ_nat; lia|].
        destruct Hend as [Hend|(Hend & msg & Hm & Ht)]; [left; lia|right].
        split; [exact Hend|]. exists msg. split; [now apply Hlast|exact Ht].
    + apply IH in H as (read & Ha & Hl & -> & -> & Hend).
      exists (result :: read). rewrite Hrecv, Ha.
      rewrite Hskip by exact Htest. simpl.
      split; [reflexivity|]. split; [lia|]. split; [reflexivity|].
      split; [reflexivity|].
      destruct Hend as [Hend|(Hend & msg & Hm & Ht)]; [left; lia|right].
      split; [exact Hend|]. exists msg. split; [now apply Hlast|exact Ht].
    + apply IH in H as (read & Ha & Hl & -> & -> & Hend).
      exists (result :: read). rewrite Hrecv, Ha.
      rewrite Hskip by exact Htest. simpl.
      split; [reflexivity|]. split; [lia|]. split; [reflexivity|].
      split; [reflexivity|].
      destruct Hend as [Hend|(Hend & msg & Hm & Ht)]; [left; lia|right].
      split; [exact Hend|]. exists msg. split; [now apply Hlast|exact Ht].
    + apply IH in H as (read & Ha & Hl & -> & -> & Hend).
      exists (result :: read). rewrite Hrecv, Ha.
      rewrite Hskip by exact Htest. simpl.
      split; [reflexivity|]. split; [lia|]. split; [reflexivity|].
      split; [reflexivity|].
      destruct Hend as [Hend|(Hend & msg & Hm & Ht)]; [left; lia|right].
      split; [exact Hend|]. exists msg. split; [now apply Hlast|exact Ht].
Qed.

(** X10. What the remote [evaluate] returns: it reads at most as many
    messages as workers were drawn, and the trackers it returns are those
    of the messages read that carry the tag [TEST_DONE] and the episode of
    the call, in the order of their arrival, one for each finish counted.
    It stops before the last receive only on such a message, with the
    number of finishes equal to the number of evaluation workers. *)
Theorem evaluate_returns_test_replies self ep (workers : list string) inbox
    (ts : list (Tracker TVal)) finishes rest :
  distributed_evaluate self ep workers inbox = Ret (ts, finishes, rest) ->
  exists read,
    arrivals inbox = read ++ arrivals rest
    /\ (length read <= length workers)%nat
    /\ ts = (m_tracker <$> List.filter (is_test_reply ep) read)
    /\ finishes = Z.of_nat (length ts)
    /\ (length ts <= length workers)%nat
    /\ (length read = length workers
        \/ finishes = d_num_eval_workers self
           /\ exists msg, last read = Some msg /\ is_test_reply ep msg = true).
Proof.
  unfold distributed_evaluate. intros H.
  apply eval_loop_tests in H as (read & Ha & Hl & -> & -> & Hend).
  exists read. simpl. rewrite length_fmap.
  split; [exact Ha|]. split; [exact Hl|]. split; [reflexivity|].
  split; [reflexivity|]. split; [|exact Hend].
  pose proof (filter_length (is_test_reply ep) read). lia.
Qed.

Lemma receive_some inbox :
  arrivals inbox <> [] -> exists msg rest, receive inbox = Some (msg, rest).
Proof.
  induction inbox as [|[m|] inbox IH]; simpl; intros H.
  - congruence.
  - eauto.
  - now apply IH.
Qed.

Lemma eval_loop_returns iterations self ep inbox finishes (got : list (Tracker TVal)) :
  (iterations <= length (arrivals inbox))%nat ->
  exists r, eval_loop iterations self ep inbox finishes got = Ret r.
Proof.
  revert inbox finishes got.
  induction iterations as [|n IH]; intros inbox finishes got Hlen; simpl; [eauto|].
  destruct (receive_some inbox) as (msg & rest & Hrecv).
  { intros Hnil. rewrite Hnil in Hlen. simpl in Hlen. lia. }
  rewrite Hrecv. apply receive_arrivals in Hrecv.
  rewrite Hrecv in Hlen. simpl in Hlen.
  destruct (negb (tag_eqb (m_type msg) TEST_DONE) || negb (m_episode msg =? ep));
    [apply IH; lia|].
  destruct (m_episode msg =? ep); [|apply IH; lia].
  destruct (finishes + 1 =? d_num_eval_workers self); [eauto|apply IH; lia].
Qed.

Lemma eval_loop_starves iterations self ep inbox finishes (got : list (Tracker TVal)) :
  (length (arrivals inbox) < iterations)%nat ->
  (d_num_eval_workers self <= finishes
   \/ finishes + Z.of_nat (length (List.filter (is_test_reply ep) (arrivals inbox)))
      < d_num_eval_workers self) ->
  eval_loop iterations self ep inbox finishes got = Diverges.
Proof.
  revert inbox finishes got.
  induction iterations as [|n IH]; intros inbox finishes got Hlen Hno; simpl; [lia|].
  destruct (receive inbox) as [[msg rest]|] eqn:Hrecv; [|reflexivity].
  apply receive_arrivals in Hrecv. rewrite Hrecv in Hlen, Hno. simpl in Hlen, Hno.
  unfold is_test_reply at 1 in Hno.
  destruct (tag_eqb (m_type msg) TEST_DONE); destruct (m_episode msg =? ep);
    simpl in *; try (apply IH; [lia|exact Hno]).
  rewrite ?Zpos_P_of_succ_nat in Hno.
  destruct (finishes + 1 =? d_num_eval_workers self) eqn:Hdone.
  - apply Z.eqb_eq in Hdone. lia.
  - apply IH; lia.
Qed.

Lemma eval_loop_never_raises iterations self ep inbox finishes
    (got : list (Tracker TVal)) err :
  eval_loop iterations self ep inbox finishes got <> Raises err.
Proof.
  revert inbox finishes got.
  induction iterations as [|n IH]; intros inbox finishes got; simpl; [discriminate|].
  destruct (receive inbox) as [[msg rest]|]; [|discriminate].
  destruct (negb (tag_eqb (m_type msg) TEST_DONE) || negb (m_episode msg =? ep));
    [apply IH|].
  destruct (m_episode msg =? ep); [|apply IH].
  destruct (finishes + 1 =? d_num_eval_workers self); [discriminate|apply IH].
Qed.

(** X16. The remote [evaluate] never raises. It returns whenever as many
    messages arrive as workers were drawn, whatever the messages are, and
    so possibly with fewer trackers than evaluation workers; when fewer
    messages arrive, and fewer valid evaluation replies among them than
    there are evaluation workers, it blocks. *)
Theorem remote_evaluate_returns_or_blocks self ep (workers : list string) inbox :
  ((length workers <= length (arrivals inbox))%nat ->
   exists r, distributed_evaluate self ep workers inbox = Ret r)
  /\ ((length (arrivals inbox) < length workers)%nat ->
      d_num_eval_workers self <= 0
      \/ Z.of_nat (length (List.filter (is_test_reply ep) (arrivals inbox)))
         < d_num_eval_workers self ->
      distributed_evaluate self ep workers inbox = Diverges)
  /\ (forall err, distributed_evaluate self ep workers inbox <> Raises err).
Proof.
  unfold distributed_evaluate. split; [|split].
  - apply eval_loop_returns.
  - intros Hlen Hno. apply eval_loop_starves; [exact Hlen|]. simpl. exact Hno.
  - intros err. apply eval_loop_never_raises.
Qed.

Lemma simple_init_ret num_steps parallelism eval_parallelism (self : Simple) :
  simple_init num_steps parallelism eval_parallelism = Ret self ->
  1 <= parallelism /\ eval_parallelism <= parallelism
  /\ s_parallelism self = parallelism
  /\ s_eval_parallelism self = eval_parallelism.
Proof.
  unfold simple_init.
  destruct ((num_steps =? 0) || (num_steps <? -1)); [discriminate|].
  destruct (parallelism <? 1) eqn:H1; [discriminate|].
  destruct (parallelism <? eval_parallelism) eqn:H2; [discriminate|].
  intros [= <-]. simpl. lia.
Qed.

(** X12. [evaluate] on a local manager as [__init__] builds it, with
    [chosen] the draw of [choices] (as many pool indices as evaluation
    workers). With one evaluation worker it runs the in-process sampler
    when the manager samples in process, and raises on a pool, which has no
    sampler of its own. With another number of evaluation workers it raises
    in process, where there are no pipes; on a pool it returns exactly when
    the draw is a permutation of the pool, which takes as many evaluation
    workers as workers. *)
Theorem evaluate_after_init num_steps parallelism eval_parallelism (self : Simple)
    (chosen : list nat) (test_tracker : nat -> Tracker TVal) :
  simple_init num_steps parallelism eval_parallelism = Ret self ->
  length chosen = Z.to_nat eval_parallelism ->
  (eval_parallelism = 1 ->
   simple_evaluate self chosen test_tracker
   = if parallelism =? 1 then Ret [test_tracker 0%nat]
     else Raises "AttributeError: env_sampler")
  /\ (eval_parallelism <> 1 -> parallelism = 1 ->
      simple_evaluate self chosen test_tracker
      = Raises "AttributeError: _manager_ends")
  /\ (eval_parallelism <> 1 -> parallelism <> 1 ->
      ((exists ts, simple_evaluate self chosen test_tracker = Ret ts)
       <-> chosen ≡ₚ seq 0 (Z.to_nat parallelism))
      /\ ((exists ts, simple_evaluate self chosen test_tracker = Ret ts) ->
          eval_parallelism = parallelism)).
Proof.
  intros Hinit Hlen.
  apply simple_init_ret in Hinit as (Hp1 & Hle & Hp & He).
  split; [|split].
  - intros ->. unfold simple_evaluate. rewrite He, Hp. reflexivity.
  - intros Hne ->. unfold simple_evaluate. rewrite He, Hp.
    apply Z.eqb_neq in Hne. now rewrite Hne.
  - intros Hne Hnp.
    assert (Hiff : (exists ts, simple_evaluate self chosen test_tracker = Ret ts)
                   <-> chosen ≡ₚ seq 0 (Z.to_nat parallelism)).
    { rewrite evaluate_returns_iff by congruence. rewrite Hp. split.
      - intros Hall. symmetry. apply submseteq_length_Permutation.
        + apply NoDup_submseteq; [apply NoDup_seq|].
          intros j Hj. apply elem_of_seq in Hj. apply Hall. lia.
        + rewrite length_seq, Hlen. lia.
      - intros Hperm j Hj. rewrite Hperm. apply elem_of_seq. lia. }
    split; [exact Hiff|].
    intros Hret. apply Hiff in Hret. apply Permutation_length in Hret.
    rewrite length_seq, Hlen in Hret. lia.
Qed.

End Buffers.

End ManagerProps.

(** ** The agent wrapper *)

Module AgentWrapperProps.
Import AgentWrapper.

Section Routing.

Context {PolicyState Info : Type}.

Implicit Types (w : Wrapper) (conn ids : list string).

Lemma start_hosts_ret get_policy_func_dict ids conn conn' :
  start_hosts get_policy_func_dict ids conn = Ret conn' ->
  Forall (fun id_ => id_ ∈ get_policy_func_dict) ids
  /\ (forall id_, id_ ∈ conn' <-> id_ ∈ conn \/ id_ ∈ ids)
  /\ (NoDup conn -> NoDup conn').
Proof.
  revert conn. induction ids as [|id_ ids IH]; intros conn H; simpl in H.
  - inversion H; subst. split; [constructor|]. split; [|tauto].
    intros x. rewrite elem_of_nil. tauto.
  - destruct (bool_decide (id_ ∈ get_policy_func_dict)) eqn:Hin; [|discriminate].
    apply bool_decide_eq_true in Hin.
    apply IH in H as (Hall & Hmem & Hnd).
    split; [now constructor|]. split.
    + intros x. rewrite Hmem, elem_of_cons.
      destruct (bool_decide (id_ ∈ conn)) eqn:Hc.
      * apply bool_decide_eq_true in Hc. split; [tauto|].
        intros [?|[->|?]]; tauto.
      * rewrite elem_of_app, list_elem_of_singleton. tauto.
    + intros Hn. apply Hnd.
      destruct (bool_decide (id_ ∈ conn)) eqn:Hc; [exact Hn|].
      apply bool_decide_eq_false in Hc.
      apply NoDup_app. split; [exact Hn|]. split; [|apply NoDup_singleton].
      intros x Hx Hx'. apply list_elem_of_singleton in Hx'. now subst.
Qed.

Lemma start_hosts_returns get_policy_func_dict ids conn :
  Forall (fun id_ => id_ ∈ get_policy_func_dict) ids ->
  exists conn', start_hosts get_policy_func_dict ids conn = Ret conn'.
Proof.
  intros Hall. revert conn.
  induction Hall as [|id_ ids Hin _ IH]; intros conn; simpl; [eauto|].
  rewrite bool_decide_eq_true_2 by exact Hin. apply IH.
Qed.

Lemma init_ret get_policy_func_dict (a2p : gmap string string) ptp w :
  init get_policy_func_dict a2p ptp = Ret w ->
  Forall (fun id_ => id_ ∈ get_policy_func_dict) ptp
  /\ policy_dict w = filter (fun id_ => id_ ∉ ptp) get_policy_func_dict
  /\ agent2policy w = a2p
  /\ policy_by_agent w
     = filter (fun kv : string * string => kv.2 ∈ policy_dict w) a2p
  /\ (forall id_, id_ ∈ conn_ w <-> id_ ∈ ptp)
  /\ NoDup (conn_ w).
Proof.
  unfold init.
  destruct (start_hosts get_policy_func_dict ptp []) as [conn| |] eqn:Hs;
    try discriminate.
  intros [= <-]. simpl. apply start_hosts_ret in Hs as (Hall & Hmem & Hnd).
  split; [exact Hall|]. repeat split; try reflexivity.
  - rewrite Hmem, elem_of_nil. tauto.
  - rewrite Hmem, elem_of_nil. tauto.
  - apply Hnd. constructor.
Qed.

(** X13. The wrapper is built exactly when every policy to parallelize
    has a creation function. A transition of an agent then goes to the
    agent's own policy and to no other: through the pipe of the policy's
    host when the policy is parallelized, and otherwise to the policy of
    this process (which records it when it is an [RLPolicy]).
    [record_transition] raises [KeyError] for an agent without a policy
    and for a policy name without a creation function. *)
Theorem record_transition_reaches_own_policy (is_rl_policy : string -> bool)
    get_policy_func_dict (a2p : gmap string string) ptp :
  ((exists w, init get_policy_func_dict a2p ptp = Ret w)
   <-> Forall (fun id_ => id_ ∈ get_policy_func_dict) ptp)
  /\ (forall w agent,
        init get_policy_func_dict a2p ptp = Ret w ->
        record_transition is_rl_policy w agent
        = match a2p !! agent with
          | None => Raises ("KeyError: " ++ agent)
          | Some policy_id =>
              if bool_decide (policy_id ∈ ptp) then Ret (Sent policy_id)
              else if bool_decide (policy_id ∈ get_policy_func_dict)
                   then Ret (if is_rl_policy policy_id
                             then Recorded policy_id else Skipped policy_id)
                   else Raises ("KeyError: " ++ policy_id)
          end).
Proof.
  split.
  - split.
    + intros [w Hw]. now apply init_ret in Hw.
    + intros Hall. unfold init.
      destruct (start_hosts_returns get_policy_func_dict ptp [] Hall) as [conn ->].
      eauto.
  - intros w agent Hw.
    apply init_ret in Hw as (_ & Hpd & Ha & Hpa & Hconn & _).
    unfold record_transition. rewrite Hpa, Ha, Hpd.
    destruct (a2p !! agent) as [policy_id|] eqn:Hag.
    + destruct (bool_decide (policy_id ∈ ptp)) eqn:Hp.
      * apply bool_decide_eq_true in Hp.
        rewrite (map_lookup_filter_None_2 _ a2p agent).
        -- rewrite bool_decide_eq_true_2 by now apply Hconn. reflexivity.
        -- right. intros x Hx. rewrite Hag in Hx. inversion Hx; subst. simpl.
           rewrite list_elem_of_filter. tauto.
      * apply bool_decide_eq_false in Hp.
        destruct (bool_decide (policy_id ∈ get_policy_func_dict)) eqn:Hg.
        -- apply bool_decide_eq_true in Hg.
           assert (Hl : filter (fun kv : string * string =>
                                  kv.2 ∈ filter (fun id_ => id_ ∉ ptp)
                                                get_policy_func_dict) a2p !! agent
                        = Some policy_id).
           { apply map_lookup_filter_Some. split; [exact Hag|]. simpl.
             rewrite list_elem_of_filter. tauto. }
           now rewrite Hl.
        -- apply bool_decide_eq_false in Hg.
           rewrite (map_lookup_filter_None_2 _ a2p agent).
           ++ rewrite bool_decide_eq_false_2; [reflexivity|].
              now rewrite Hconn.
           ++ right. intros x Hx. rewrite Hag in Hx. inversion Hx; subst. simpl.
              rewrite list_elem_of_filter. tauto.
    + rewrite (map_lookup_filter_None_2 _ a2p agent) by now left. reflexivity.
Qed.

Lemma send_states_spec conn (psd : list (string * PolicyState)) :
  ((exists sent, send_states conn psd = Ret sent)
   <-> Forall (fun id_ => is_Some (dict_get psd id_)) conn)
  /\ (forall sent,
        send_states conn psd = Ret sent ->
        sent.*1 = conn
        /\ Forall (fun kv => dict_get psd kv.1 = Some kv.2) sent).
Proof.
  induction conn as [|id_ conn [IHr IHs]]; simpl.
  - split; [split; [constructor|eauto]|].
    intros sent [= <-]. split; [reflexivity|constructor].
  - destruct (dict_get psd id_) as [st|] eqn:Hst.
    + destruct (send_states conn psd) as [sent0| |] eqn:Hs.
      * destruct (IHs sent0 eq_refl) as [Hk Hv]. split.
        -- split; [|eauto]. intros _. constructor; [rewrite Hst; eauto|].
           apply IHr. eauto.
        -- intros sent [= <-]. split; [rewrite fmap_cons; now f_equal|].
           constructor; [exact Hst|exact Hv].
      * split; [|discriminate]. split; [intros [? ?]; discriminate|].
        intros Hall. inversion Hall; subst.
        apply IHr in H2 as [? ?]. discriminate.
      * split; [|discriminate]. split; [intros [? ?]; discriminate|].
        intros Hall. inversion Hall; subst.
        apply IHr in H2 as [? ?]. discriminate.
    + split; [|discriminate]. split; [intros [? ?]; discriminate|].
      intros Hall. inversion Hall as [|? ? [? Hx] ?]; subst.
      rewrite Hst in Hx. discriminate.
Qed.

Lemma set_local_states_spec w (items : list (string * PolicyState)) :
  ((exists done, set_local_states w items = Ret done)
   <-> Forall (fun kv => kv.1 ∈ conn_ w \/ kv.1 ∈ policy_dict w) items)
  /\ (forall done,
        set_local_states w items = Ret done ->
        done = filter (fun kv => kv.1 ∉ conn_ w) items).
Proof.
  induction items as [|[id_ st] items [IHr IHs]]; simpl.
  - split; [split; [constructor|eauto]|]. now intros done [= <-].
  - destruct (bool_decide (id_ ∈ conn_ w)) eqn:Hc.
    + apply bool_decide_eq_true in Hc. split.
      * rewrite IHr. split; [intros H; constructor; [now left|exact H]|].
        intros H. now inversion H.
      * intros done Hd. rewrite filter_cons_False by (simpl; tauto).
        now apply IHs.
    + apply bool_decide_eq_false in Hc.
      destruct (bool_decide (id_ ∈ policy_dict w)) eqn:Hp.
      * apply bool_decide_eq_true in Hp.
        destruct (set_local_states w items) as [done0| |] eqn:Hs.
        -- split.
           ++ split; [|eauto]. intros _. constructor; [now right|].
              apply IHr. eauto.
           ++ intros done [= <-]. rewrite filter_cons_True by exact Hc.
              f_equal. now apply IHs.
        -- split; [|discriminate]. split; [intros [? ?]; discriminate|].
           intros Hall. inversion Hall; subst.
           apply IHr in H2 as [? ?]. discriminate.
        -- split; [|discriminate]. split; [intros [? ?]; discriminate|].
           intros Hall. inversion Hall; subst.
           apply IHr in H2 as [? ?]. discriminate.
      * apply bool_decide_eq_false in Hp.
        split; [|discriminate]. split; [intros [? ?]; discriminate|].
        intros Hall. inversion Hall as [|? ? [?|?] ?]; subst; simpl in *; tauto.
Qed.

(** X14. [set_policy_states] on a wrapper as [__init__] builds it. The
    call returns exactly when the dict of policy states has an entry for
    every parallelized policy and names only policies with a creation
    function: a policy of this process may be left out, a parallelized one
    may not. When it returns, every policy host was sent the state found
    under its name, once, and the states set in this process are the
    entries of the other policies, in the order of the dict. *)
Theorem set_policy_states_serves_every_host get_policy_func_dict
    (a2p : gmap string string) ptp w (psd : list (string * PolicyState)) :
  init get_policy_func_dict a2p ptp = Ret w ->
  ((exists r, set_policy_states w psd = Ret r)
   <-> Forall (fun id_ => is_Some (dict_get psd id_)) ptp
       /\ Forall (fun kv => kv.1 ∈ get_policy_func_dict) psd)
  /\ (forall sent done,
        set_policy_states w psd = Ret (sent, done) ->
        sent.*1 = conn_ w
        /\ NoDup (sent.*1)
        /\ (forall id_, id_ ∈ sent.*1 <-> id_ ∈ ptp)
        /\ Forall (fun kv => dict_get psd kv.1 = Some kv.2) sent
        /\ done = filter (fun kv => kv.1 ∉ ptp) psd).
Proof.
  intros Hw. apply init_ret in Hw as (Hall & Hpd & _ & _ & Hconn & Hnd).
  destruct (send_states_spec (conn_ w) psd) as [Hsr Hss].
  destruct (set_local_states_spec w psd) as [Hlr Hls].
  assert (Hhosts : Forall (fun id_ => is_Some (dict_get psd id_)) (conn_ w)
                   <-> Forall (fun id_ => is_Some (dict_get psd id_)) ptp).
  { rewrite !Forall_forall. split; intros H x Hx; apply H; now apply Hconn. }
  assert (Hnames : Forall (fun kv => kv.1 ∈ conn_ w \/ kv.1 ∈ policy_dict w) psd
                   <-> Forall (fun kv => kv.1 ∈ get_policy_func_dict) psd).
  { rewrite Forall_forall in Hall. rewrite !Forall_forall.
    split; intros H kv Hkv; specialize (H kv Hkv).
    - destruct H as [H|H]; [apply Hall; now apply Hconn|].
      rewrite Hpd in H. now apply list_elem_of_filter in H.
    - destruct (decide (kv.1 ∈ ptp)) as [Hin|Hout]; [left; now apply Hconn|].
      right. rewrite Hpd. now apply list_elem_of_filter. }
  unfold set_policy_states. split.
  - rewrite <- Hhosts, <- Hnames, <- Hsr, <- Hlr.
    destruct (send_states (conn_ w) psd) as [sent| |];
      destruct (set_local_states w psd) as [done| |];
      split; try (intros [? ?]; discriminate);
      try (intros [[? ?] [? ?]]; discriminate); eauto.
  - intros sent done H.
    destruct (send_states (conn_ w) psd) as [sent0| |] eqn:Hs; try discriminate.
    destruct (set_local_states w psd) as [done0| |] eqn:Hl; try discriminate.
    inversion H; subst.
    destruct (Hss sent eq_refl) as [Hk Hv].
    split; [exact Hk|]. split; [now rewrite Hk|].
    split; [intros id_; now rewrite Hk|]. split; [exact Hv|].
    rewrite (Hls done eq_refl). apply list_filter_iff.
    intros kv. now rewrite Hconn.
Qed.

Lemma dict_set_fresh {V : Type} (d : list (string * V)) k v :
  k ∉ d.*1 -> dict_set d k v = d ++ [(k, v)].
Proof.
  induction d as [|[k' v'] d IH]; simpl; intros Hk; [reflexivity|].
  rewrite not_elem_of_cons in Hk. destruct Hk as [Hne Hk].
  destruct (String.eqb k' k) eqn:He.
  - apply String.eqb_eq in He. congruence.
  - now rewrite IH.
Qed.

Lemma dict_merge_disjoint {V : Type} (a b : list (string * V)) :
  NoDup (b.*1) -> (forall k, k ∈ b.*1 -> k ∉ a.*1) -> dict_merge a b = a ++ b.
Proof.
  unfold dict_merge. revert a.
  induction b as [|[k v] b IH]; intros a Hnd Hdis; simpl.
  - now rewrite app_nil_r.
  - simpl in Hnd. apply NoDup_cons in Hnd as [Hk Hnd].
    rewrite dict_set_fresh by (apply Hdis; simpl; left).
    rewrite IH; [now rewrite <- app_assoc|exact Hnd|].
    intros k' Hk'. rewrite fmap_app, elem_of_app. simpl.
    rewrite list_elem_of_singleton. intros [Hin| ->]; [|tauto].
    revert Hin. apply Hdis. simpl. now right.
Qed.

(** X15. The roll-out information of a wrapper as [__init__] builds it
    holds an entry for every [RLPolicy] of this process, in the order of
    the creation functions, followed by one for every policy host: no
    answer of a host replaces the entry of a local policy. It is the empty
    dict exactly when no policy is parallelized and no policy is an
    [RLPolicy]. *)
Theorem rollout_info_has_local_then_hosts (is_rl_policy : string -> bool)
    get_policy_func_dict (a2p : gmap string string) ptp w
    (local_rollout_info host_rollout_info : string -> Info) :
  init get_policy_func_dict a2p ptp = Ret w ->
  get_rollout_info is_rl_policy local_rollout_info host_rollout_info w
  = ((fun id_ => (id_, local_rollout_info id_))
       <$> filter (fun id_ => is_rl_policy id_ /\ id_ ∉ ptp) get_policy_func_dict)
    ++ ((fun id_ => (id_, host_rollout_info id_)) <$> conn_ w)
  /\ (get_rollout_info is_rl_policy local_rollout_info host_rollout_info w = []
      <-> ptp = []
          /\ Forall (fun id_ => is_rl_policy id_ = false) get_policy_func_dict).
Proof.
  intros Hw. apply init_ret in Hw as (Hall & Hpd & _ & _ & Hconn & Hnd).
  assert (Heq : get_rollout_info is_rl_policy local_rollout_info host_rollout_info w
                = ((fun id_ => (id_, local_rollout_info id_))
                     <$> filter (fun id_ => is_rl_policy id_ /\ id_ ∉ ptp)
                                get_policy_func_dict)
                  ++ ((fun id_ => (id_, host_rollout_info id_)) <$> conn_ w)).
  { unfold get_rollout_info. rewrite Hpd.
    rewrite list_filter_filter.
    rewrite dict_merge_disjoint; [reflexivity| |].
    - rewrite <- list_fmap_compose. simpl. now rewrite list_fmap_id.
    - intros k. rewrite <- !list_fmap_compose. simpl. rewrite !list_fmap_id.
      intros Hk Hk'. apply list_elem_of_filter in Hk' as [[_ Hout] _].
      apply Hout. now apply Hconn. }
  split; [exact Heq|]. rewrite Heq. split.
  - intros H. apply app_eq_nil in H as [Hl Hr].
    apply fmap_nil_inv in Hl, Hr.
    assert (Hp : ptp = []).
    { destruct ptp as [|id_ ptp']; [reflexivity|].
      assert (Hin : id_ ∈ conn_ w) by (apply Hconn; left).
      rewrite Hr in Hin. now apply elem_of_nil in Hin. }
    split; [exact Hp|]. subst ptp. apply Forall_forall. intros id_ Hin.
    destruct (is_rl_policy id_) eqn:Hrl; [|reflexivity]. exfalso.
    apply (filter_nil_not_elem_of _ _ id_ Hl); [|exact Hin].
    rewrite Hrl. split; [exact I|]. apply not_elem_of_nil.
  - intros [-> Hno].
    assert (Hc : conn_ w = []).
    { destruct (conn_ w) as [|id_ c]; [reflexivity|].
      assert (Hin : id_ ∈ @nil string) by (apply Hconn; left).
      now apply elem_of_nil in Hin. }
    rewrite Hc. simpl. rewrite app_nil_r.
    replace (filter (fun id_ => is_rl_policy id_ /\ id_ ∉ []) get_policy_func_dict)
      with (@nil string); [reflexivity|].
    symmetry. clear -Hno.
    induction get_policy_func_dict as [|id_ l IH]; [reflexivity|].
    inversion Hno; subst. rewrite filter_cons_False; [now apply IH|].
    intros [Hrl _]. rewrite H1 in Hrl. exact Hrl.
Qed.

End Routing.

End AgentWrapperProps.

(** ** The callers on the small simulation *)

Module UseRuns.
Import RolloutManager EnvSampler SamplerUse ManagerUse Scenarios UseScenarios.

Lemma sample_ends_within_budget_witness :
  toy_sample 2 after_one_step None 2 false <> Diverges.
Proof.
  refine (proj1 (SamplerProps.sample_ends_within_budget
                   toy_reset toy_step toy_tick toy_state toy_env_actions
                   toy_reward toy_post_step 3 toy_policy toy_rollout_info
                   toy_params 2%nat after_one_step None 2 false _ _)).
  - lia.
  - simpl. lia.
Defined.

Lemma sample_end_of_episode_flushes_all_witness :
  exists s' res out,
    whole_episode = Ret (s', res, out)
    /\ end_of_episode res = true
    /\ terminal s' = true.
Proof.
  destruct whole_episode as [[[s' res] out]| |] eqn:Hrun;
    [|vm_compute in Hrun; discriminate Hrun..].
  destruct (SamplerProps.sample_end_of_episode_flushes_all
              toy_reset toy_step toy_tick toy_state toy_env_actions toy_reward
              toy_post_step 3 toy_policy toy_rollout_info toy_params
              5%nat fresh None (-1) false s' res out Hrun) as [H1 H2].
  exists s', res, out. split; [reflexivity|].
  split; [exact (H1 eq_refl)|exact (proj1 (H2 (H1 eq_refl)))].
Defined.

Lemma sampler_in_use_is_consistent_witness :
  is_Some (state_ after_one_step).
Proof.
  assert (Huse : in_use toy_reset toy_step toy_tick toy_state toy_env_actions
                        toy_reward toy_post_step 3 toy_policy toy_rollout_info
                        toy_params after_one_step).
  { eapply (in_use_sample _ _ _ _ _ _ _ _ _ _ _ _ _ _ _ _ _ _ _ _ _
                          1%nat fresh None 1 false after_one_step);
      [apply in_use_init|reflexivity]. }
  destruct (SamplerProps.sampler_in_use_is_consistent
              toy_reset toy_step toy_tick toy_state toy_env_actions toy_reward
              toy_post_step 3 toy_policy toy_rollout_info toy_params
              after_one_step Huse) as (H1 & _).
  exact (proj1 (H1 eq_refl)).
Defined.

Lemma test_leaves_learning_environment_witness :
  state_ (fst after_test) = state_ after_one_step
  /\ (test_env after_one_step = None -> test_env (fst after_test) = None).
Proof.
  destruct (SamplerProps.test_leaves_learning_environment
              toy_reset toy_step toy_state toy_env_actions toy_policy
              5%nat after_one_step None (fst after_test) (snd after_test) eq_refl)
    as (H1 & _ & _ & H4).
  split; [exact H1|exact H4].
Defined.

Lemma worker_answers_requests_in_order_witness :
  exists served rest,
    worker_inbox = served ++ rest
    /\ Forall2 answers (List.filter is_work served) (snd (fst worker_run)).
Proof.
  destruct worker_run as [[s' replies] how] eqn:Hrun.
  destruct (SamplerProps.worker_answers_requests_in_order
              toy_reset toy_step toy_tick toy_state toy_env_actions toy_reward
              toy_post_step 3 toy_policy toy_rollout_info toy_params
              5%nat fresh worker_inbox s' replies how Hrun)
    as (served & rest & H1 & _ & H3 & _).
  exists served, rest. split; [exact H1|exact H3].
Defined.

Lemma collect_returns_counted_replies_witness :
  exists report : CollectReport nat nat,
    trackers (collected report)
    = (m_tracker <$> List.filter (counted (remote 2 2) 1 0 5)
                       (omap recv_msg (quorum_recvs report ++ extra_recvs report)))
    /\ Z.of_nat (length (trackers (collected report))) = num_finishes report.
Proof.
  destruct (distributed_collect (remote 2 2) 1 0 5 busy_inbox)
    as [[self' report]| |] eqn:Hrun;
    [|vm_compute in Hrun; discriminate Hrun..].
  destruct (ManagerProps.collect_returns_counted_replies
              (remote 2 2) 1 0 5 busy_inbox self' report Hrun) as (H1 & H2 & _).
  exists report. split; [exact H1|exact H2].
Defined.

Lemma default_extra_tries_stay_within_workers_witness :
  exists report : CollectReport nat nat,
    extra_recvs report = [] /\ num_finishes report = 4.
Proof.
  destruct (distributed_collect (remote 4 0) 1 0 5 full_inbox)
    as [[self' report]| |] eqn:Hrun;
    [|vm_compute in Hrun; discriminate Hrun..].
  destruct (ManagerProps.default_extra_tries_stay_within_workers
              4 (-1) None (Some 100) 0 2 (remote 4 0) 1 0 5 full_inbox self' report
              eq_refl Hrun) as (_ & _ & _ & _ & H).
  exists report. exact (H eq_refl).
Defined.

Lemma evaluate_returns_test_replies_witness :
  exists read,
    arrivals eval_inbox = read ++ arrivals [Arrive (test_reply 12)]
    /\ [m_tracker (test_reply 11)]
       = (m_tracker <$> List.filter (is_test_reply 1) read).
Proof.
  destruct (ManagerProps.evaluate_returns_test_replies
              (remote 4 0) 1 ["w2"; "w0"]%string eval_inbox
              [m_tracker (test_reply 11)] 1 [Arrive (test_reply 12)] eq_refl)
    as (read & H1 & _ & H3 & _).
  exists read. split; [exact H1|exact H3].
Defined.

Lemma evaluate_after_init_witness :
  (exists ts, simple_evaluate (pool 2 2) [1; 0]%nat worker_tracker = Ret ts)
  <-> [1; 0]%nat ≡ₚ seq 0 (Z.to_nat 2).
Proof.
  destruct (ManagerProps.evaluate_after_init
              (-1) 2 2 (pool 2 2) [1; 0]%nat worker_tracker eq_refl eq_refl)
    as (_ & _ & H).
  apply H; lia.
Defined.

Lemma set_policy_states_serves_every_host_witness :
  exists r, AgentWrapper.set_policy_states toy_wrapper toy_policy_states = Ret r.
Proof.
  destruct (AgentWrapperProps.set_policy_states_serves_every_host
              policy_names agents ["ac"%string] toy_wrapper toy_policy_states
              eq_refl) as [H _].
  apply H. split.
  - repeat constructor. eexists. reflexivity.
  - repeat constructor.
Defined.

Lemma rollout_info_has_local_then_hosts_witness :
  AgentWrapper.get_rollout_info toy_is_rl (fun _ => 0%nat) (fun _ => 1%nat) toy_wrapper
  = ((fun id_ => (id_, 0%nat))
       <$> filter (fun id_ => toy_is_rl id_ /\ id_ ∉ ["ac"%string]) policy_names)
    ++ ((fun id_ => (id_, 1%nat)) <$> AgentWrapper.conn_ toy_wrapper).
Proof.
  exact (proj1 (AgentWrapperProps.rollout_info_has_local_then_hosts
                  toy_is_rl policy_names agents ["ac"%string] toy_wrapper
                  (fun _ => 0%nat) (fun _ => 1%nat) eq_refl)).
Defined.

End UseRuns.
